(** * Mailvelope keyring management and synchronisation: a shallow embedding

    The development follows the modules of the repository:
    - [key.js]           : [checkKeyId]
    - [KeyringLocal.js]  : [getPrimaryKey], [importKeys], [importPublicKey],
                           [importPrivateKey], [removeKey]
    - [KeyStoreLocal.js] : [store]
    - [pgpModel.js]      : [encryptSyncMessage], [convertChangeLog],
                           [decryptSyncMessage], [createPrivateKeyBackup],
                           [parseMetaInfo], [restorePrivateKeyBackup]

    JavaScript objects used as dictionaries are finite maps ([gmap string _]),
    arrays are lists, and the mutable keyring object is threaded explicitly
    through every operation; an exception is a left injection.  A loop over
    a dictionary goes through its entries in the order of [map_to_list]; no
    property below depends on that order.  The OpenPGP
    engine is an external collaborator: it is represented symbolically (a
    text is represented by what the engine decodes it to, a ciphertext by its
    plaintext and the secret that opens it).  Functions of the repository
    whose source is not at hand are modelled from the specification and
    marked as such. *)

From Stdlib Require Import ZArith String Ascii List Bool Lia Sorted.
From stdpp Require Import base option list gmap strings fin_maps.

Open Scope string_scope.
Open Scope Z_scope.
Open Scope list_scope.

Set Warnings "-register-all,-clear-no-such-hyp".

(** ** The OpenPGP engine (external), symbolically *)

Module openpgp.

(** [openpgp.enums.keyStatus] *)
Inductive keyStatus := invalid | expired | revoked | valid | no_self_cert.

#[global] Instance keyStatus_eq_dec : EqDecision keyStatus.
Proof. solve_decision. Defined.

(** [openpgp.key.Key], reduced to what the keyring code observes.
    [secret] is the (encrypted) secret key material: a key is private
    exactly when it carries some. *)
Record Key := mkKey {
  fingerprint : string;              (* key.primaryKey.getFingerprint() *)
  keyId : string;                    (* key.primaryKey.getKeyId().toHex() *)
  created : Z;                       (* key.primaryKey.created *)
  secret : option string;
  status : keyStatus;                (* key.verifyPrimaryKey() *)
  signingKeyId : option string;      (* key.getSigningKeyPacket() *)
  encryptionKeyId : option string;   (* key.getEncryptionKeyPacket() *)
  subKeyIds : list string;           (* key.getSubkeyPackets() *)
  certifications : list string       (* user ids and their signatures *)
}.

#[global] Instance Key_eq_dec : EqDecision Key.
Proof. solve_decision. Defined.

Definition isPublic (k : Key) : bool :=
  match secret k with None => true | Some _ => false end.

Definition isPrivate (k : Key) : bool := negb (isPublic k).

(** [key.toPublic()]: the same key without its secret material. *)
Definition toPublic (k : Key) : Key :=
  mkKey (fingerprint k) (keyId k) (created k) None (status k)
        (signingKeyId k) (encryptionKeyId k) (subKeyIds k) (certifications k).

(** Merge of packet lists as done by [Key.prototype.update]: every item of
    the source that the destination lacks is appended to the destination. *)
Definition mergeNew (dest src : list string) : list string :=
  foldl (fun acc x => if decide (x ∈ acc) then acc else acc ++ [x]) dest src.

(** [dest.update(src)], the merge: the destination keeps its identity and
    secret material and gains the certifications and subkeys of the
    source. *)
Definition update (dest src : Key) : Key :=
  mkKey (fingerprint dest) (keyId dest) (created dest) (secret dest)
        (status dest) (signingKeyId dest) (encryptionKeyId dest)
        (mergeNew (subKeyIds dest) (subKeyIds src))
        (mergeNew (certifications dest) (certifications src)).

(** [dest.update(src)] ends with a [TypeError] when the source has a subkey
    and the destination has none: the [subKeys] of the destination are then
    [null], and the loop over the subkeys of the source reads their
    [length]. *)
Definition updateThrows (dest src : Key) : option string :=
  if bool_decide (subKeyIds dest = []) && negb (bool_decide (subKeyIds src = []))
  then Some "TypeError: Cannot read property 'length' of null"
  else None.

(** Packets ([openpgp.packet]).  A symmetric-key encrypted session key
    packet is represented by what it holds: the cipher that its algorithm
    octet names and, when it carries an encrypted session key, the cipher of
    that session key, which only the decryption reveals.  A symmetrically
    encrypted data packet is represented by the passphrase that opens it and
    the packets inside. *)
Inductive Packet :=
| SymEncryptedSessionKey (algorithm : string) (encrypted : option string)
| SymEncryptedIntegrityProtected (passphrase : string) (packets : list Packet)
| Literal (text : string)
| KeyPacket (primary : Key)
| UserIdPacket (certification : string)
| SubkeyPacket (subKeyId : string)
| OtherPacket (tag : Z).

(** [packet.tag] (RFC 4880 section 4.3) *)
Definition tag (p : Packet) : Z :=
  match p with
  | SymEncryptedSessionKey _ _ => 3
  | SymEncryptedIntegrityProtected _ _ => 18
  | Literal _ => 11
  | KeyPacket k => if isPublic k then 6 else 5
  | UserIdPacket _ => 13
  | SubkeyPacket _ => 14
  | OtherPacket t => t
  end.

(** A field of a packet object as JavaScript reads it; it is [undefined]
    on a packet that has no such field. *)
Inductive Field := Undefined | Null | Str (s : string).

#[global] Instance Field_eq_dec : EqDecision Field.
Proof. solve_decision. Defined.

(** [packet.sessionKeyAlgorithm] of a packet that was read: the constructor
    of the session key packet sets it to 'aes256', and [read] replaces it by
    the algorithm octet only when the packet carries no encrypted session
    key. *)
Definition sessionKeyAlgorithm (p : Packet) : Field :=
  match p with
  | SymEncryptedSessionKey algorithm None => Str algorithm
  | SymEncryptedSessionKey _ (Some _) => Str "aes256"
  | _ => Undefined
  end.

(** [packet.sessionKeyEncryptionAlgorithm] of a packet that was read: [null]
    from the constructor, and the algorithm octet when the packet carries an
    encrypted session key. *)
Definition sessionKeyEncryptionAlgorithm (p : Packet) : Field :=
  match p with
  | SymEncryptedSessionKey _ None => Null
  | SymEncryptedSessionKey algorithm (Some _) => Str algorithm
  | _ => Undefined
  end.

(** [openpgp.message.Message]: a list of packets. *)
Definition Message := list Packet.

(** One part of an armored text, represented by what it decodes to: the
    packets of one key, the packets of a message, or packets that cannot be
    read.  One armored text can hold several keys: it then has several
    [KeyBlock]s. *)
Inductive ArmoredBlock :=
| KeyBlock (k : Key)
| MessageBlock (m : Message)
| Malformed (reason : string).

(** Armored text: the parts that it decodes to, in order. *)
Definition Armored := list ArmoredBlock.

(** [key.armor()] *)
Definition armor (k : Key) : Armored := [KeyBlock k].

(** Result of [openpgp.key.readArmored]: the keys that could be read and,
    when some part failed, the list of errors ([err] is absent otherwise). *)
Record ReadResult := mkRead { keys : list Key; err : option (list string) }.

Definition readBlock (b : ArmoredBlock) (r : ReadResult) : ReadResult :=
  match b with
  | KeyBlock k => mkRead (k :: keys r) (err r)
  | MessageBlock _ =>
      mkRead (keys r) (Some ("No key packet found" :: default [] (err r)))
  | Malformed reason => mkRead (keys r) (Some (reason :: default [] (err r)))
  end.

Definition readArmored (a : Armored) : ReadResult :=
  foldr readBlock (mkRead [] None) a.

(** [openpgp.KeyArray]: [getForId] and [removeForId] work on the first key
    that has the fingerprint. *)
Fixpoint getForId (keys : list Key) (fpr : string) : option Key :=
  match keys with
  | [] => None
  | k :: rest =>
      if decide (fingerprint k = fpr) then Some k else getForId rest fpr
  end.

Fixpoint removeForId (keys : list Key) (fpr : string) : list Key :=
  match keys with
  | [] => []
  | k :: rest =>
      if decide (fingerprint k = fpr) then rest else k :: removeForId rest fpr
  end.

End openpgp.

Export openpgp.

(** ** keyringSync.js: the change log *)

(** [keyringSync.INSERT], [keyringSync.DELETE], [keyringSync.UPDATE] *)
Inductive ChangeType := INSERT | DELETE | UPDATE.

#[global] Instance ChangeType_eq_dec : EqDecision ChangeType.
Proof. solve_decision. Defined.

(** A change-log entry [{type, time}]; the log maps fingerprints to entries. *)
Record LogEntry := mkEntry { type : ChangeType; time : Z }.

#[global] Instance LogEntry_eq_dec : EqDecision LogEntry.
Proof. solve_decision. Defined.

Abbreviation ChangeLog := (gmap string LogEntry).

(** ** The synchronisation payload *)

(** An entry of [syncData.insertedKeys]: [{armored, time}] *)
Record InsertedKey := mkInserted { armored : Armored; insertedAt : Z }.

(** An entry of [syncData.deletedKeys]: [{time}] *)
Record DeletedKey := mkDeleted { deletedAt : Z }.

Record SyncData := mkSyncData {
  insertedKeys : gmap string InsertedKey;
  deletedKeys : gmap string DeletedKey
}.

(** The serialised payload, represented by what [JSON.parse] makes of it. *)
Inductive Text :=
| JSON (syncData : SyncData)
| NotJSON (raw : string).

Definition JSON_stringify (syncData : SyncData) : Text := JSON syncData.

(** [JSON.parse] throws a [SyntaxError] on anything that is not a payload. *)
Definition JSON_parse (t : Text) : option SyncData :=
  match t with
  | JSON syncData => Some syncData
  | NotJSON _ => None
  end.

(** A signature as reported by [openpgp.decrypt]: [valid] is [null] when the
    signing key is unknown, else the outcome of the verification. *)
Record Signature := mkSig { sig_keyid : string; sig_valid : option bool }.

(** An encrypted and signed message: the key ids it is encrypted for, its
    plaintext, and the signatures found on it as the engine judges them
    against the keyring's own key. *)
Record SyncMessage := mkSyncMessage {
  recipients : list string;
  plaintext : Text;
  signed : list Signature
}.

Record Decrypted := mkDecrypted { data : Text; signatures : list Signature }.

(** [openpgp.decrypt({message, privateKey, publicKeys})]: fails unless the
    private key holds the secret of one of the recipients. *)
Definition openpgp_decrypt (message : SyncMessage) (privateKey publicKeys : Key)
  : option Decrypted :=
  match secret privateKey, encryptionKeyId privateKey with
  | Some _, Some kid =>
      if decide (kid ∈ recipients message)
      then Some (mkDecrypted (plaintext message) (signed message))
      else None
  | _, _ => None
  end.

(** [openpgp.encrypt({data, publicKeys, privateKeys})]: fails unless the key
    can encrypt and sign. *)
Definition openpgp_encrypt (data : Text) (publicKeys privateKeys : Key)
  : option SyncMessage :=
  match encryptionKeyId publicKeys, secret privateKeys, signingKeyId privateKeys with
  | Some kid, Some _, Some sid =>
      Some (mkSyncMessage [kid] data [mkSig sid (Some true)])
  | _, _, _ => None
  end.

(** ** The key store of a keyring *)

(** [keystore.publicKeys.keys] and [keystore.privateKeys.keys] *)
Record KeyStore := mkKeyStore {
  publicKeys : list Key;
  privateKeys : list Key
}.

(** ** pgpModel.js: outgoing payload *)

Definition setInserted (syncData : SyncData) (fpr : string) (e : InsertedKey)
  : SyncData :=
  mkSyncData (<[fpr := e]> (insertedKeys syncData)) (deletedKeys syncData).

Definition setDeleted (syncData : SyncData) (fpr : string) (e : DeletedKey)
  : SyncData :=
  mkSyncData (insertedKeys syncData) (<[fpr := e]> (deletedKeys syncData)).

(** [convertChangeLog(key, changeLog, syncData)] *)
Definition convertChangeLog (key : Key) (changeLog : ChangeLog)
    (syncData : SyncData) : SyncData :=
  let fpr := fingerprint key in
  match changeLog !! fpr with
  | None => syncData                      (* in keyring but not in changeLog *)
  | Some logEntry =>
      match type logEntry with
      | INSERT => setInserted syncData fpr (mkInserted (armor key) (time logEntry))
      | DELETE => syncData                (* in keyring but has DELETE *)
      | UPDATE => syncData                (* 'Invalid changeLog type' *)
      end
  end.

(** The body of the loop [for (const fingerprint in changeLog)] of
    [encryptSyncMessage]. *)
Definition convertDelete (syncData : SyncData) (entry : string * LogEntry)
  : SyncData :=
  let '(fpr, logEntry) := entry in
  if decide (type logEntry = DELETE)
  then setDeleted syncData fpr (mkDeleted (time logEntry))
  else syncData.

(** The body of [encryptSyncMessage] up to [JSON.stringify]: the payload. *)
Definition buildSyncData (changeLog : ChangeLog) (keyStore : KeyStore) : SyncData :=
  let syncData := mkSyncData ∅ ∅ in
  let syncData :=
    foldl (fun sd pubKey => convertChangeLog pubKey changeLog sd)
          syncData (publicKeys keyStore) in
  let syncData :=
    foldl (fun sd privKey => convertChangeLog (toPublic privKey) changeLog sd)
          syncData (privateKeys keyStore) in
  foldl convertDelete syncData (map_to_list changeLog).

(** [encryptSyncMessage(key, changeLog, keyringId)]; the key store is the one
    of the keyring that [keyringId] selects. *)
Definition encryptSyncMessage (key : Key) (changeLog : ChangeLog)
    (keyStore : KeyStore) : option SyncMessage :=
  openpgp_encrypt (JSON_stringify (buildSyncData changeLog keyStore)) key key.

(** ** pgpModel.js: inbound payload *)

Inductive KeyType := public | private.

#[global] Instance KeyType_eq_dec : EqDecision KeyType.
Proof. solve_decision. Defined.

(** An import candidate [{type, armored}] *)
Record Candidate := mkCandidate { c_type : KeyType; c_armored : Armored }.

(** What [decryptSyncMessage] resolves to: [{changeLog, keys}] *)
Record SyncPacket := mkSyncPacket {
  sp_changeLog : ChangeLog;
  sp_keys : list Candidate
}.

Inductive SyncError :=
| DecryptFailed                 (* openpgp.decrypt rejects *)
| InvalidSignature              (* 'Signature of synced keyring is invalid' *)
| TypeError                     (* getSigningKeyPacket() is null *)
| SyntaxError.                  (* JSON.parse throws *)

(** The signature test of [decryptSyncMessage]:
    [sig && sig.valid && sig.keyid.equals(key.getSigningKeyPacket().getKeyId())].
    The key id of the key is only looked at for a valid first signature. *)
Definition checkSignature (key : Key) (sigs : list Signature)
  : SyncError + unit :=
  match sigs with
  | [] => inl InvalidSignature
  | sig :: _ =>
      match sig_valid sig with
      | Some true =>
          match signingKeyId key with
          | None => inl TypeError
          | Some kid =>
              if decide (sig_keyid sig = kid) then inr tt else inl InvalidSignature
          end
      | _ => inl InvalidSignature
      end
  end.

(** The body of the loop [for (fingerprint in syncData.insertedKeys)] of
    [decryptSyncMessage], on the pair of [publicKeys] and [changeLog]. *)
Definition mergeInserted (acc : list Candidate * ChangeLog)
    (entry : string * InsertedKey) : list Candidate * ChangeLog :=
  let '(publicKeys, changeLog) := acc in
  let '(fpr, inserted) := entry in
  (publicKeys ++ [mkCandidate public (armored inserted)],
   <[fpr := mkEntry INSERT (insertedAt inserted)]> changeLog).

(** The body of the loop [for (fingerprint in syncData.deletedKeys)]. *)
Definition mergeDeleted (changeLog : ChangeLog) (entry : string * DeletedKey)
  : ChangeLog :=
  let '(fpr, deleted) := entry in
  <[fpr := mkEntry DELETE (deletedAt deleted)]> changeLog.

(** The two loops of [decryptSyncMessage] over the parsed payload. *)
Definition mergeSyncData (syncData : SyncData) : SyncPacket :=
  let '(publicKeys, changeLog) :=
    foldl mergeInserted ([], ∅) (map_to_list (insertedKeys syncData)) in
  let changeLog :=
    foldl mergeDeleted changeLog (map_to_list (deletedKeys syncData)) in
  mkSyncPacket changeLog publicKeys.

(** [decryptSyncMessage(key, message)] *)
Definition decryptSyncMessage (key : Key) (message : SyncMessage)
  : SyncError + SyncPacket :=
  match openpgp_decrypt message key key with
  | None => inl DecryptFailed
  | Some msg =>
      match checkSignature key (signatures msg) with
      | inl e => inl e
      | inr _ =>
          match JSON_parse (data msg) with
          | None => inl SyntaxError
          | Some syncData => inr (mergeSyncData syncData)
          end
      end
  end.

(** ** The keyring object *)

(** The state a [KeyringLocal] object reaches into: its key store, the
    keyring attribute [primary_key], its [KeyringSync] object, the two
    storage records of the key store, and the clock. *)
Record Keyring := mkKeyring {
  keystore : KeyStore;
  primary_key : string;            (* '' when no primary key is set *)
  sync : ChangeLog;                (* pending change log *)
  committed : ChangeLog;           (* change log durably recorded *)
  storedPublic : list Armored;     (* mvelo.keyring.<id>.publicKeys *)
  storedPrivate : list Armored;    (* mvelo.keyring.<id>.privateKeys *)
  clock : Z                        (* Date.now() *)
}.

Definition setKeystore (r : Keyring) (ks : KeyStore) : Keyring :=
  mkKeyring ks (primary_key r) (sync r) (committed r)
            (storedPublic r) (storedPrivate r) (clock r).

(** Modelled from the spec: [KeyringBase.setPrimaryKey] is not among the
    sources; the primary-key fingerprint is persisted as a keyring attribute
    outside the key store. *)
Definition setPrimaryKey (fpr : string) (r : Keyring) : Keyring :=
  mkKeyring (keystore r) fpr (sync r) (committed r)
            (storedPublic r) (storedPrivate r) (clock r).

(** Modelled from the spec: [KeyringBase.hasPrimaryKey] is not among the
    sources; a keyring has a primary key when the attribute is set. *)
Definition hasPrimaryKey (r : Keyring) : bool :=
  negb (bool_decide (primary_key r = "")).

(** Modelled from the spec: [keystore.getPrimaryKeyFpr] is not among the
    sources; it reads the stored primary-key fingerprint. *)
Definition getPrimaryKeyFpr (r : Keyring) : string := primary_key r.

(** Modelled from the spec: [KeyringBase.validatePrimaryKey] is not among the
    sources; a key passes when it is not expired (its primary binding is
    valid) and is capable of both signing and encryption. *)
Definition validatePrimaryKey (k : Key) : bool :=
  bool_decide (status k = valid)
  && bool_decide (is_Some (encryptionKeyId k))
  && bool_decide (is_Some (signingKeyId k)).

(** Modelled from the spec: [KeyringSync.add] is not among the sources; it
    upserts the entry of the fingerprint, timestamped now, overwriting any
    pending entry of that fingerprint. *)
Definition sync_add (fpr : string) (ty : ChangeType) (r : Keyring) : Keyring :=
  mkKeyring (keystore r) (primary_key r)
            (<[fpr := mkEntry ty (clock r)]> (sync r)) (committed r)
            (storedPublic r) (storedPrivate r) (clock r).

(** Modelled from the spec: [KeyringSync.commit] is not among the sources; it
    clears the pending log, whose changes are then durably recorded. *)
Definition sync_commit (r : Keyring) : Keyring :=
  mkKeyring (keystore r) (primary_key r) ∅ (sync r ∪ committed r)
            (storedPublic r) (storedPrivate r) (clock r).

(** [KeyStoreLocal.store]: [storePublic] then [storePrivate], each writing
    [keys.map(key => key.armor())]. *)
Definition store (r : Keyring) : Keyring :=
  mkKeyring (keystore r) (primary_key r) (sync r) (committed r)
            (map armor (publicKeys (keystore r)))
            (map armor (privateKeys (keystore r))) (clock r).

(** ** Lookup in the key store *)

(** The identifiers handed to [getKeysForId]: fingerprints and key ids, which
    the source tells apart by their length. *)
Inductive Id := Fingerprint (fpr : string) | KeyID (hex : string).

Definition matchesId (id : Id) (deep : bool) (k : Key) : bool :=
  match id with
  | Fingerprint fpr => bool_decide (fingerprint k = fpr)
  | KeyID hex =>
      bool_decide (keyId k = hex) || (deep && bool_decide (hex ∈ subKeyIds k))
  end.

(** Modelled from the spec: [KeyStoreBase.getKeysForId] is not among the
    sources; it returns all keys matching the id, optionally matching subkey
    ids, public keys first, and [null] when there is none. *)
Definition getKeysForId (ks : KeyStore) (id : Id) (deep : bool)
  : option (list Key) :=
  match List.filter (matchesId id deep) (publicKeys ks)
        ++ List.filter (matchesId id deep) (privateKeys ks) with
  | [] => None
  | result => Some result
  end.

(** ** key.js *)

(** A [forEach] whose callback may throw: the first exception wins. *)
Fixpoint firstThrow {A} (f : A -> option string) (l : list A) : option string :=
  match l with
  | [] => None
  | x :: rest => match f x with Some e => Some e | None => firstThrow f rest end
  end.

(** [checkKeyId(sourceKey, keyring)]: [Some e] when it throws [Error(e)]. *)
Definition checkKeyId (sourceKey : Key) (keyring : KeyStore) : option string :=
  let defaultKeyId := keyId sourceKey in
  let primaryClash :=
    match getKeysForId keyring (KeyID defaultKeyId) true with
    | Some keys =>
        firstThrow (fun key =>
          if negb (bool_decide (keyId key = defaultKeyId))
          then Some "Primary keyId equals existing sub keyId."
          else None) keys
    | None => None
    end in
  match primaryClash with
  | Some e => Some e
  | None =>
      firstThrow (fun subKeyId =>
        match getKeysForId keyring (KeyID subKeyId) true with
        | Some keys =>
            firstThrow (fun key =>
              if bool_decide (keyId key = subKeyId)
              then Some "Sub keyId equals existing primary keyId."
              else if negb (bool_decide (keyId key = defaultKeyId))
              then Some "Sub keyId equals existing sub keyId in key with different primary keyId."
              else None) keys
        | None => None
        end) (subKeyIds sourceKey)
  end.

(** ** KeyringLocal.js: primary key *)

(** The scan of [getPrimaryKey] over the private keys: a key replaces the
    current choice when it is strictly newer (or there is no choice yet) and
    passes validation. *)
Definition newestValid (keys : list Key) (primaryKey : option Key) : option Key :=
  foldl (fun primaryKey key =>
           if (match primaryKey with
               | None => true
               | Some chosen => created chosen <? created key
               end) && validatePrimaryKey key
           then Some key else primaryKey)
        primaryKey keys.

(** [getPrimaryKey()]: the keyring after the call and the key returned
    ([None] for [null]). *)
Definition getPrimaryKey (r : Keyring) : Keyring * option Key :=
  let primaryKeyFpr := getPrimaryKeyFpr r in
  let '(r, primaryKey) :=
    if bool_decide (primaryKeyFpr = "") then (r, None)
    else
      match getForId (privateKeys (keystore r)) primaryKeyFpr with
      | Some key =>
          if validatePrimaryKey key then (r, Some key)
          else (setPrimaryKey "" r, None)
      | None => (setPrimaryKey "" r, None)
      end in
  match primaryKey with
  | Some key => (r, Some key)
  | None =>
      match newestValid (privateKeys (keystore r)) None with
      | Some key => (setPrimaryKey (fingerprint key) r, Some key)
      | None => (r, None)
      end
  end.

(** ** KeyringLocal.js: import *)

Inductive ResultType := success | error.

#[global] Instance ResultType_eq_dec : EqDecision ResultType.
Proof. solve_decision. Defined.

(** The localised messages of the import, by their identifier; the
    arguments [keyId, getUserId(key)] are given by the key they come from. *)
Inductive ImportMessage :=
| key_import_unable (e : string)
| key_import_public_read (e : string)
| key_import_public_update (k : Key)
| key_import_public_success (k : Key)
| key_import_private_read (e : string)
| key_import_private_exists (k : Key)
| key_import_private_update (k : Key)
| key_import_private_success (k : Key).

(** An import result [{type, message}] *)
Record ImportResult := mkResult { r_type : ResultType; r_message : ImportMessage }.

(** [key[0].update(src)] on the first key that [getKeysForId(fingerprint)]
    returns: the key object lives in the store, so the store changes.  What
    is represented is the merge; an update that the engine ends with an
    exception ([updateThrows]) leaves the stored key merged in part, which
    is not represented. *)
Fixpoint updateFirst (fpr : string) (src : Key) (keys : list Key) : list Key :=
  match keys with
  | [] => []
  | k :: rest =>
      if decide (fingerprint k = fpr) then update k src :: rest
      else k :: updateFirst fpr src rest
  end.

Definition updateInStore (fpr : string) (src : Key) (ks : KeyStore) : KeyStore :=
  if existsb (matchesId (Fingerprint fpr) false) (publicKeys ks)
  then mkKeyStore (updateFirst fpr src (publicKeys ks)) (privateKeys ks)
  else mkKeyStore (publicKeys ks) (updateFirst fpr src (privateKeys ks)).

(** The callback of [imported.keys.forEach] in [importPublicKey]: [inl e]
    when it throws [Error(e)], else the keyring it leaves and the result it
    pushes. *)
Definition importPublicKey_body (pubKey : Key) (r : Keyring)
  : string + Keyring * ImportResult :=
  match checkKeyId pubKey (keystore r) with
  | Some e => inl e
  | None =>
      let fpr := fingerprint pubKey in
      match getKeysForId (keystore r) (Fingerprint fpr) false with
      | Some _ =>
          let r := setKeystore r (updateInStore fpr pubKey (keystore r)) in
          inr (sync_add fpr UPDATE r,
               mkResult success (key_import_public_update pubKey))
      | None =>
          let ks := keystore r in
          let r := setKeystore r (mkKeyStore (publicKeys ks ++ [pubKey])
                                             (privateKeys ks)) in
          inr (sync_add fpr INSERT r,
               mkResult success (key_import_public_success pubKey))
      end
  end.

(** A [forEach] over the imported keys: an exception leaves the loop with
    the keyring as the earlier iterations made it. *)
Fixpoint forEachKey (body : Key → Keyring → string + Keyring * ImportResult)
    (keys : list Key) (r : Keyring) (result : list ImportResult)
  : Keyring * (string + list ImportResult) :=
  match keys with
  | [] => (r, inr result)
  | k :: rest =>
      match body k r with
      | inl e => (r, inl e)
      | inr (r, message) => forEachKey body rest r (result ++ [message])
      end
  end.

(** [importPublicKey(armored)] *)
Definition importPublicKey (armored : Armored) (r : Keyring)
  : Keyring * (string + list ImportResult) :=
  let imported := readArmored armored in
  let result :=
    match err imported with
    | Some errors =>
        map (fun e => mkResult error (key_import_public_read e)) errors
    | None => []
    end in
  forEachKey importPublicKey_body (keys imported) r result.

(** The callback of [imported.keys.forEach] in [importPrivateKey].  Where
    the key found is public, the candidate is the destination of the
    update: an exception of the update leaves the callback before the key
    store is touched. *)
Definition importPrivateKey_body (privKey : Key) (r : Keyring)
  : string + Keyring * ImportResult :=
  match checkKeyId privKey (keystore r) with
  | Some e => inl e
  | None =>
      let fpr := fingerprint privKey in
      let ks := keystore r in
      match getKeysForId ks (Fingerprint fpr) false with
      | Some (key :: _) =>
          if isPublic key
          then
            match updateThrows privKey key with
            | Some e => inl e
            | None =>
                let privKey := update privKey key in
                let r := setKeystore r
                  (mkKeyStore (removeForId (publicKeys ks) fpr)
                              (privateKeys ks ++ [privKey])) in
                inr (sync_add fpr UPDATE r,
                     mkResult success (key_import_private_exists privKey))
            end
          else
            let r := setKeystore r (updateInStore fpr privKey ks) in
            inr (sync_add fpr UPDATE r,
                 mkResult success (key_import_private_update privKey))
      | _ =>
          let r := setKeystore r (mkKeyStore (publicKeys ks)
                                             (privateKeys ks ++ [privKey])) in
          inr (sync_add fpr INSERT r,
               mkResult success (key_import_private_success privKey))
      end
  end.

(** [importPrivateKey(armored)] *)
Definition importPrivateKey (armored : Armored) (r : Keyring)
  : Keyring * (string + list ImportResult) :=
  let imported := readArmored armored in
  let result :=
    match err imported with
    | Some errors =>
        map (fun e => mkResult error (key_import_private_read e)) errors
    | None => []
    end in
  forEachKey importPrivateKey_body (keys imported) r result.

(** The callback of [armoredKeys.forEach] in [importKeys], with its
    [try]/[catch]. *)
Definition importOne (acc : Keyring * list ImportResult) (key : Candidate)
  : Keyring * list ImportResult :=
  let '(r, result) := acc in
  let '(r, outcome) :=
    match c_type key with
    | public => importPublicKey (c_armored key) r
    | private => importPrivateKey (c_armored key) r
    end in
  match outcome with
  | inr imported => (r, result ++ imported)
  | inl e => (r, result ++ [mkResult error (key_import_unable e)])
  end.

(** [armoredKeys.sort((a, b) => b.type.localeCompare(a.type))]: a stable
    sort that puts the public candidates first. *)
Definition sortPublicFirst (armoredKeys : list Candidate) : list Candidate :=
  List.filter (fun c => bool_decide (c_type c = public)) armoredKeys
  ++ List.filter (fun c => bool_decide (c_type c = private)) armoredKeys.

Definition isSuccess (message : ImportResult) : bool :=
  bool_decide (r_type message = success).

(** The import loop of [importKeys], before the decision to persist. *)
Definition importAll (armoredKeys : list Candidate) (r : Keyring)
  : Keyring * list ImportResult :=
  foldl importOne (r, []) (sortPublicFirst armoredKeys).

(** [importKeys(armoredKeys)] *)
Definition importKeys (armoredKeys : list Candidate) (r : Keyring)
  : Keyring * list ImportResult :=
  let '(r, result) := importAll armoredKeys r in
  if negb (existsb isSuccess result) then (r, result)
  else
    let r := store r in
    let r := sync_commit r in
    let r :=
      match privateKeys (keystore r) with
      | first :: _ =>
          if negb (hasPrimaryKey r) then setPrimaryKey (fingerprint first) r else r
      | [] => r
      end in
    (r, result).

(** ** KeyringLocal.js: removal *)

(** Modelled from the spec: [KeyringBase.removeKey] is not among the
    sources; it removes the key from the collection of its kind and returns
    it, and fails when the key is absent. *)
Definition base_removeKey (fpr : string) (ty : KeyType) (r : Keyring)
  : option (Keyring * Key) :=
  let ks := keystore r in
  match ty with
  | public =>
      removed ← getForId (publicKeys ks) fpr;
      Some (setKeystore r (mkKeyStore (removeForId (publicKeys ks) fpr)
                                      (privateKeys ks)), removed)
  | private =>
      removed ← getForId (privateKeys ks) fpr;
      Some (setKeystore r (mkKeyStore (publicKeys ks)
                                      (removeForId (privateKeys ks) fpr)), removed)
  end.

(** [removeKey(fingerprint, type)] of [KeyringLocal]; [None] when the call to
    the base class throws. *)
Definition removeKey (fpr : string) (ty : KeyType) (r : Keyring) : option Keyring :=
  '(r, removedKey) ← base_removeKey fpr ty r;
  let r :=
    match ty with
    | private =>
        if bool_decide (getPrimaryKeyFpr r = fingerprint removedKey)
        then setPrimaryKey "" r else r
    | public => r
    end in
  let r := sync_add (fingerprint removedKey) DELETE r in
  let r := store r in
  Some (sync_commit r).

(** ** pgpModel.js: backup of a private key *)

(** [key.toPacketlist()]: the key packet, then user ids and subkeys. *)
Definition toPacketlist (k : Key) : list Packet :=
  KeyPacket (mkKey (fingerprint k) (keyId k) (created k) (secret k) (status k)
                   (signingKeyId k) (encryptionKeyId k) [] [])
  :: map UserIdPacket (certifications k) ++ map SubkeyPacket (subKeyIds k).

(** [new openpgp.key.Key(packets)]: throws unless a key packet comes first. *)
Definition Key_fromPackets (packets : list Packet) : option Key :=
  match packets with
  | KeyPacket p :: rest =>
      Some (mkKey (fingerprint p) (keyId p) (created p) (secret p) (status p)
                  (signingKeyId p) (encryptionKeyId p)
                  (omap (fun q => match q with SubkeyPacket i => Some i | _ => None end) rest)
                  (omap (fun q => match q with UserIdPacket c => Some c | _ => None end) rest))
  | _ => None
  end.

(** The packets of an armored text, when all of them can be read. *)
Fixpoint packetsOf (a : Armored) : option Message :=
  match a with
  | [] => Some []
  | KeyBlock k :: rest => (toPacketlist k ++.) <$> packetsOf rest
  | MessageBlock m :: rest => (m ++.) <$> packetsOf rest
  | Malformed _ :: _ => None
  end.

(** [openpgp.message.readArmored]: the packets of the text as a message,
    whatever they are; it throws on a text that holds nothing or that it
    cannot read. *)
Definition message_readArmored (a : Armored) : option Message :=
  match a with
  | [] => None
  | _ => packetsOf a
  end.

(** [msg.armor()] *)
Definition message_armor (m : Message) : Armored := [MessageBlock m].

(** [message.decrypt(null, null, password)]: rejects unless the password
    opens the session key packet and with it the encrypted data packet. *)
Definition message_decrypt (m : Message) (password : string) : option Message :=
  match m with
  | [SymEncryptedSessionKey _ _; SymEncryptedIntegrityProtected passphrase packets] =>
      if decide (passphrase = password) then Some packets else None
  | _ => None
  end.

(** [message.getText()]: the text of the first literal packet, or [null]. *)
Fixpoint getText (m : list Packet) : option string :=
  match m with
  | [] => None
  | Literal t :: _ => Some t
  | _ :: rest => getText rest
  end.

(** Modelled from the spec: [symEncrypt] of crypto.js is not among the
    sources; it symmetrically encrypts the whole message under the backup
    code, as a session-key packet for the fixed cipher, without an encrypted
    session key, followed by one integrity-protected encrypted-data
    packet. *)
Definition symEncrypt (msg : Message) (passphrase : string) : Message :=
  [SymEncryptedSessionKey "aes256" None;
   SymEncryptedIntegrityProtected passphrase msg].

(** Strings: code units below 256; [\s] of a regular expression. *)
Definition isWhitespace (c : ascii) : bool :=
  let n := N_of_ascii c in
  ((9 <=? n) && (n <=? 13) || (n =? 32) || (n =? 160))%N.

Definition CR : ascii := ascii_of_N 13.
Definition LF : ascii := ascii_of_N 10.

(** [txt.replace(/\r/g, '')] *)
Fixpoint removeCR (txt : string) : string :=
  match txt with
  | EmptyString => EmptyString
  | String c rest =>
      if Ascii.eqb c CR then removeCR rest else String c (removeCR rest)
  end.

Definition consHead (c : ascii) (rows : list string) : list string :=
  match rows with
  | [] => [String c EmptyString]
  | row :: rest => String c row :: rest
  end.

(** [txt.split('\n')] *)
Fixpoint splitLines (txt : string) : list string :=
  match txt with
  | EmptyString => [EmptyString]
  | String c rest =>
      if Ascii.eqb c LF then EmptyString :: splitLines rest
      else consHead c (splitLines rest)
  end.

(** [row.split(/:\s/)] *)
Fixpoint splitColonSpace (row : string) : list string :=
  match row with
  | EmptyString => [EmptyString]
  | String c rest =>
      match rest with
      | String d rest' =>
          if Ascii.eqb c ":" && isWhitespace d
          then EmptyString :: splitColonSpace rest'
          else consHead c (splitColonSpace rest)
      | EmptyString => [String c EmptyString]
      end
  end.

(** [parseMetaInfo(txt)]: the object built row by row; a value is
    [undefined] ([None]) when the row has no separator. *)
Definition parseMetaInfo (txt : string) : gmap string (option string) :=
  foldl (fun result row =>
           if negb (String.length row =? 0)%nat
           then
             let keyValue := splitColonSpace row in
             <[default "undefined" (keyValue !! 0%nat) := keyValue !! 1%nat]> result
           else result)
        ∅ (splitLines (removeCR txt)).

(** [createPrivateKeyBackup(primaryKey, keyPwd)], with the outcome of
    [randomString(26)] as the argument [backupCode]. *)
Definition createPrivateKeyBackup (primaryKey : Key) (keyPwd : string)
    (backupCode : string) : string * Armored :=
  let text := ("Version: 1" ++ String LF "")%string in
  let text := (text ++ "Pwd: " ++ keyPwd ++ String LF "")%string in
  let packetList := [Literal text] ++ toPacketlist primaryKey in
  let msg := symEncrypt packetList backupCode in
  (backupCode, message_armor msg).

(** The errors of [restorePrivateKeyBackup], by kind: what
    [mvelo.util.mapError] is handed. *)
Inductive RestoreError :=
| ArmorParseError      (* openpgp.message.readArmored throws *)
| MalformedBackup      (* 'Illegal private key backup structure.' *)
| WrongRestoreCode     (* code 'WRONG_RESTORE_CODE' *)
| InternalError.       (* an exception past the decryption *)

(** The calls to the engine that the restore makes, in order. *)
Inductive EngineCall :=
| CallReadArmored
| CallDecrypt (password : string).

(** The structure test of [restorePrivateKeyBackup], on the fields of the
    packets as [openpgp.message.readArmored] leaves them. *)
Definition backupStructure (message : Message) : bool :=
  match message with
  | [p0; p1] =>
      (tag p0 =? 3)
      && bool_decide (sessionKeyAlgorithm p0 = Str "aes256")
      && (bool_decide (sessionKeyEncryptionAlgorithm p0 = Null)
          || bool_decide (sessionKeyEncryptionAlgorithm p0 = Str "aes256"))
      && (tag p1 =? 18)
  | _ => false
  end.

(** What [restorePrivateKeyBackup] resolves to: [{key, password}], where the
    password is [undefined] ([None]) when the preamble has no [Pwd] value. *)
Record Restored := mkRestored { key : Key; password : option string }.

(** [restorePrivateKeyBackup(armoredBlock, code)]: the calls made to the
    engine and the outcome. *)
Definition restorePrivateKeyBackup (armoredBlock : Armored) (code : string)
  : list EngineCall * (RestoreError + Restored) :=
  match message_readArmored armoredBlock with
  | None => ([CallReadArmored], inl ArmorParseError)
  | Some message =>
      if negb (backupStructure message)
      then ([CallReadArmored], inl MalformedBackup)
      else
        let calls := [CallReadArmored; CallDecrypt code] in
        match message_decrypt message code with
        | None => (calls, inl WrongRestoreCode)
        | Some message =>
            match getText message with
            | None => (calls, inl InternalError)
            | Some text =>
                let pwd := mjoin (parseMetaInfo text !! "Pwd") in
                let keyPackets := drop 1 message in
                match Key_fromPackets keyPackets with
                | None => (calls, inl InternalError)
                | Some privKey => (calls, inr (mkRestored privKey pwd))
                end
            end
        end
  end.

(** ** Notions used to state the properties *)

(** The keys [encryptSyncMessage] runs [convertChangeLog] on: the public
    keys, then the private keys in their public form. *)
Definition exportedKeys (keyStore : KeyStore) : list Key :=
  publicKeys keyStore ++ (toPublic <$> privateKeys keyStore).

(** The invariant of a payload: a fingerprint appears in at most one of the
    two maps. *)
Definition wellFormedPayload (syncData : SyncData) : Prop :=
  ∀ fpr, insertedKeys syncData !! fpr = None ∨ deletedKeys syncData !! fpr = None.

(** A signature that verifies under the signing key of [key]. *)
Definition validSignatureOf (key : Key) (sig : Signature) : Prop :=
  sig_valid sig = Some true ∧ signingKeyId key = Some (sig_keyid sig).

(** Sample keys *)
Definition alice : Key :=
  mkKey "a1" "0a" 100 None valid (Some "0a") (Some "1a") ["1a"] ["alice"].

Definition bob : Key :=
  mkKey "b2" "0b" 200 None valid (Some "0b") (Some "1b") ["1b"] ["bob"].

Definition carol : Key :=
  mkKey "c3" "0c" 300 (Some "secret of carol") valid (Some "0c") (Some "1c")
        ["1c"] ["carol"].

Definition dave : Key :=
  mkKey "d4" "0d" 400 (Some "secret of dave") valid (Some "0d") (Some "1d")
        ["1d"] ["dave"].

(** A key whose primary key id is the id of the subkey of [carol]. *)
Definition grace : Key :=
  mkKey "g7" "1c" 700 None valid (Some "1c") (Some "1g") ["1g"] ["grace"].

(** A private key without subkey, and the public key of the same primary
    key with a subkey for encryption. *)
Definition judy : Key :=
  mkKey "j9" "0j" 900 (Some "secret of judy") valid (Some "0j") None
        [] ["judy"].

Definition judyPublic : Key :=
  mkKey "j9" "0j" 900 None valid (Some "0j") (Some "1j") ["1j"] ["judy"].

(** Sample payloads and messages, encrypted for and signed by [carol] *)
Definition samplePayload : SyncData :=
  mkSyncData {[ "a1" := mkInserted (armor alice) 5 ]} {[ "b2" := mkDeleted 7 ]}.

Definition overlappingPayload : SyncData :=
  mkSyncData {[ "a1" := mkInserted (armor alice) 5 ]} {[ "a1" := mkDeleted 7 ]}.

Definition signedBy (signer : Key) (syncData : SyncData) : SyncMessage :=
  mkSyncMessage [default "" (encryptionKeyId signer)] (JSON syncData)
                [mkSig (keyId signer) (Some true)].

Definition badlySigned (syncData : SyncData) : SyncMessage :=
  mkSyncMessage ["1c"] (JSON syncData) [mkSig "0c" (Some false)].

(** A newest-created valid key of a collection. *)
Definition newestValidKey (keys : list Key) (k : Key) : Prop :=
  k ∈ keys ∧ validatePrimaryKey k = true
  ∧ ∀ k', k' ∈ keys → validatePrimaryKey k' = true → created k' ≤ created k.

(** The key returned by the call number [n] (from 0) of a sequence of calls
    to [getPrimaryKey]. *)
Fixpoint getPrimaryKey_nth (n : nat) (r : Keyring) : option Key :=
  match n with
  | O => (getPrimaryKey r).2
  | S n => getPrimaryKey_nth n (getPrimaryKey r).1
  end.

(** A keyring that holds the given keys and nothing else. *)
Definition keyringOf (publicKeys privateKeys : list Key) (primary : string)
  : Keyring :=
  mkKeyring (mkKeyStore publicKeys privateKeys) primary ∅ ∅
            (armor <$> publicKeys) (armor <$> privateKeys) 1000.

(** When a key holds all the source has, [update] leaves it as it is. *)
Definition absorbs (dest src : Key) : Prop :=
  subKeyIds src ⊆ subKeyIds dest ∧ certifications src ⊆ certifications dest.

(** The fingerprints a collection holds, in order. *)
Definition fingerprintsOf (keys : list Key) : list string := fingerprint <$> keys.

(** A key store holds a fingerprint when one of its collections does. *)
Definition holds (ks : KeyStore) (fpr : string) : Prop :=
  fpr ∈ fingerprintsOf (publicKeys ks) ∨ fpr ∈ fingerprintsOf (privateKeys ks).

(** What the import loop leaves alone: the keyring attribute, the change log
    durably recorded, the storage records and the clock. *)
Definition sameOutside (r r' : Keyring) : Prop :=
  primary_key r' = primary_key r ∧ committed r' = committed r
  ∧ storedPublic r' = storedPublic r ∧ storedPrivate r' = storedPrivate r
  ∧ clock r' = clock r.




(** The structure of a backup as the specification words it: exactly two
    packets, a symmetric-key-encrypted-session-key packet for the fixed
    cipher whose session key is not wrapped, followed by one
    integrity-protected encrypted-data packet. *)
Definition specBackupStructure (message : Message) : Prop :=
  ∃ p1, message = [SymEncryptedSessionKey "aes256" None; p1] ∧ tag p1 = 18.

(** A backup whose session-key packet carries an encrypted session key: the
    session key, which is for the cipher aes128, is wrapped with aes256. *)
Definition wrappedBackup : Message :=
  [SymEncryptedSessionKey "aes256" (Some "aes128");
   SymEncryptedIntegrityProtected "ABCDEFGHIJKLMNOPQRSTUVWXYZ"
     (Literal ("Version: 1" ++ String LF ("Pwd: pw" ++ String LF ""))%string
      :: toPacketlist carol)].

(** ** Notions used for an import that is repeated *)

(** The key on which [getKeysForId(fingerprint)[0]] falls: the first public
    key of the fingerprint, else the first private one. *)
Definition firstMatch (ks : KeyStore) (fpr : string) : option Key :=
  match getForId (publicKeys ks) fpr with
  | Some k => Some k
  | None => getForId (privateKeys ks) fpr
  end.

(** The key store that the callback of [importPublicKey] leaves when the
    key passes the key-id check. *)
Definition absorbPublic (k : Key) (ks : KeyStore) : KeyStore :=
  match getKeysForId ks (Fingerprint (fingerprint k)) false with
  | Some _ => updateInStore (fingerprint k) k ks
  | None => mkKeyStore (publicKeys ks ++ [k]) (privateKeys ks)
  end.

(** A key is settled in a key store when the key on which an import of it
    would fall already has all it brings. *)
Definition settled (ks : KeyStore) (k : Key) : Prop :=
  ∃ k', firstMatch ks (fingerprint k) = Some k' ∧ absorbs k' k.

(** The invariant of a key store as a mapping: no fingerprint twice. *)
Definition uniqueFingerprints (ks : KeyStore) : Prop :=
  NoDup (fingerprintsOf (publicKeys ks ++ privateKeys ks)).

(** An import result that reports a candidate rejected by an exception. *)
Definition rejected (m : ImportResult) : Prop :=
  ∃ e, r_message m = key_import_unable e.

(** All keys that the candidates of a batch hold, in order. *)
Definition candidateKeys (cs : list Candidate) : list Key :=
  cs ≫= λ c, keys (readArmored (c_armored c)).

(** Two keys in structural conflict: the primary key id of [erin] is a
    subkey id of [frank]. *)
Definition erin : Key :=
  mkKey "e5" "0e" 500 None valid (Some "0e") (Some "1e") ["1e"] ["erin"].

Definition frank : Key :=
  mkKey "f6" "0f" 600 None valid (Some "0f") (Some "0e") ["0e"] ["frank"].

(** A passphrase that the preamble of a backup carries intact: it has no
    line break and no colon followed by white space. *)
Fixpoint plainPassphrase (pwd : string) : bool :=
  match pwd with
  | EmptyString => true
  | String c rest =>
      negb (Ascii.eqb c CR) && negb (Ascii.eqb c LF)
      && negb (Ascii.eqb c ":"
               && match rest with
                  | String d _ => isWhitespace d
                  | EmptyString => false
                  end)
      && plainPassphrase rest
  end.

(** ** Notions used for further properties of the import *)

(** The key store that the callback of [importPrivateKey] leaves when the
    key passes the key-id check. *)
Definition absorbPrivate (privKey : Key) (ks : KeyStore) : KeyStore :=
  let fpr := fingerprint privKey in
  match firstMatch ks fpr with
  | Some key =>
      if isPublic key
      then mkKeyStore (removeForId (publicKeys ks) fpr)
                      (privateKeys ks ++ [update privKey key])
      else updateInStore fpr privKey ks
  | None => mkKeyStore (publicKeys ks) (privateKeys ks ++ [privKey])
  end.

(** The private collection holds private keys only. *)
Definition privateOnly (ks : KeyStore) : Prop :=
  ∀ k, k ∈ privateKeys ks → isPublic k = false.

(** The candidates labelled private carry private keys only. *)
Definition privateCandidates (cs : list Candidate) : Prop :=
  ∀ c k, c ∈ cs → c_type c = private →
         k ∈ keys (readArmored (c_armored c)) → isPublic k = false.

(** A candidate whose text the engine reads as exactly one key and no
    error, or as no key and exactly one error. *)
Definition readsOne (c : Candidate) : Prop :=
  (∃ k, readArmored (c_armored c) = mkRead [k] None)
  ∨ (∃ e, readArmored (c_armored c) = mkRead [] (Some [e])).

(** ** Notions used for the key-id check *)

(** A key answers to a key id when it is the id of its primary key or of one
    of its subkeys. *)
Definition answersTo (key : Key) (hex : string) : Prop :=
  keyId key = hex ∨ hex ∈ subKeyIds key.

(** A structural conflict between a key to import and a key of the store:
    the store key answers to the primary key id of the source under another
    primary key id, or it answers to a subkey id of the source which is its
    own primary key id or which it has under another primary key id. *)
Definition conflicts (sourceKey key : Key) : Prop :=
  (answersTo key (keyId sourceKey) ∧ keyId key ≠ keyId sourceKey)
  ∨ ∃ subKeyId, subKeyId ∈ subKeyIds sourceKey
                ∧ answersTo key subKeyId
                ∧ (keyId key = subKeyId ∨ keyId key ≠ keyId sourceKey).

(** ** More of KeyringLocal.js *)

(** [getPrimaryKeyFpr()] of [KeyringLocal]: the fingerprint of the primary
    key, or the empty string. *)
Definition KeyringLocal_getPrimaryKeyFpr (r : Keyring) : Keyring * string :=
  let '(r, primaryKey) := getPrimaryKey r in
  (r, match primaryKey with
      | Some primaryKey => fingerprint primaryKey
      | None => ""
      end).

(** ** More of key.js *)

(** The part of an [openpgp.key.Key] that [getUserId] reads: the user id of
    the user that [getPrimaryUser()] returns ([None] for [null]), and the
    users of the key, each with the text of its user id packet ([None] for
    a user that has none, such as a user attribute). *)
Record KeyUsers := mkKeyUsers {
  getPrimaryUser : option string;
  users : list (option string)
}.

(** [l10n('keygrid_invalid_userid')], by its identifier. *)
Definition keygrid_invalid_userid : string := "keygrid_invalid_userid".

(** The loop of [getUserId] over [key.users]. *)
Fixpoint firstUserId (users : list (option string)) : option string :=
  match users with
  | [] => None
  | Some userid :: _ => Some userid
  | None :: rest => firstUserId rest
  end.

(** [getUserId(key, validityCheck)]; the second argument is [None] when the
    caller leaves it out. *)
Definition getUserId (key : KeyUsers) (validityCheck : option bool) : string :=
  let validityCheck :=
    match validityCheck with
    | None => true            (* typeof validityCheck === 'undefined' *)
    | Some _ => false
    end in
  match getPrimaryUser key with
  | Some userid => userid
  | None =>
      if negb validityCheck
      then match firstUserId (users key) with
           | Some userid => userid
           | None => keygrid_invalid_userid
           end
      else keygrid_invalid_userid
  end.

(** [getLastModifiedDate(key)], on the [created] fields of the packets of
    [key.toPacketlist()] in order ([None] for a packet without the field);
    dates are milliseconds since the epoch, [new Date(0)] is [0]. *)
Definition getLastModifiedDate (packets : list (option Z)) : Z :=
  foldl (fun lastModified created =>
           match created with
           | Some created =>
               if created >? lastModified then created else lastModified
           | None => lastModified
           end)
        0 packets.

(** The comparison function of [sortKeysByCreationDate]; an empty
    [defaultKeyFpr] stands for a missing one. *)
Definition compareKeys (defaultKeyFpr : string) (a b : Key) : Z :=
  if negb (bool_decide (defaultKeyFpr = ""))
     && bool_decide (defaultKeyFpr = fingerprint a)
  then -1
  else if negb (bool_decide (defaultKeyFpr = ""))
          && bool_decide (defaultKeyFpr = fingerprint b)
  then 1
  else created b - created a.

(** [Array.prototype.sort(comparefn)]: a stable sort, here by insertion,
    which compares elements at different positions only; an element stays
    before the ones it does not compare greater than. *)
Fixpoint insertBy {A} (comparefn : A → A → Z) (x : A) (l : list A) : list A :=
  match l with
  | [] => [x]
  | y :: rest =>
      if comparefn x y <=? 0 then x :: y :: rest
      else y :: insertBy comparefn x rest
  end.

Definition Array_sort {A} (comparefn : A → A → Z) (l : list A) : list A :=
  foldr (insertBy comparefn) [] l.

(** [sortKeysByCreationDate(keys, defaultKeyFpr)]: the array as the call
    leaves it. *)
Definition sortKeysByCreationDate (keys : list Key) (defaultKeyFpr : string)
  : list Key :=
  Array_sort (compareKeys defaultKeyFpr) keys.

(** The order that [sortKeysByCreationDate] aims at: the default key comes
    before every key, and of two other keys the newer comes first. *)
Definition ranksBefore (defaultKeyFpr : string) (a b : Key) : Prop :=
  (defaultKeyFpr ≠ "" ∧ fingerprint a = defaultKeyFpr)
  ∨ ((defaultKeyFpr = "" ∨ fingerprint b ≠ defaultKeyFpr)
     ∧ created b ≤ created a).

(** ** pgpModel.js: cleartext messages and their signers *)

(** A cleartext signed message as the engine reads it: its text and the key
    ids of its signatures ([getSigningKeyIds()], in hexadecimal). *)
Record CleartextMessage := mkCleartext {
  ct_text : string;
  getSigningKeyIds : list string
}.

(** A signer as [readCleartextMessage] builds it: [{keyid, key, userid}];
    [key] is [null] ([None]) when the keyring has no key for the id, and
    [userid] is set only when there is a key. *)
Record Signer := mkSigner {
  signer_keyid : string;
  signer_key : option Key;
  signer_userid : option string
}.

(** A signer as [verifyMessage] returns it: [key] is deleted and [valid] is
    added, [null] ([None]) or a boolean. *)
Record VerifiedSigner := mkVerifiedSigner {
  v_keyid : string;
  v_userid : option string;
  v_valid : option bool
}.

(** What the two functions throw: [{message: ...}]. *)
Inductive CleartextError :=
| cleartext_read_error (e : string)   (* l10n('cleartext_read_error', [e]) *)
| NoSignaturesFound                   (* 'No signatures found' *)
| verify_error (e : string).          (* l10n('verify_error', [e]) *)

Section Cleartext.

(** The engine and the keys' users are given: [openpgp.cleartext.readArmored]
    and [openpgp.verify] return [inl e] when they throw or reject with [e]. *)
Context (cleartext_readArmored : string → string + CleartextMessage)
        (openpgp_verify : CleartextMessage → list Key → string + list Signature)
        (keyUsers : Key → KeyUsers).

(** The body of the loop of [readCleartextMessage] over the signing key
    ids. *)
Definition readSigner (keystore : KeyStore) (keyid : string) : Signer :=
  let key := getKeysForId keystore (KeyID keyid) true in
  let key := match key with
             | Some (first :: _) => Some first
             | _ => None
             end in
  mkSigner keyid key
           (match key with
            | Some key => Some (getUserId (keyUsers key) None)
            | None => None
            end).

(** [readCleartextMessage(armoredText, keyringId)]; the key store is the one
    of the keyring that [keyringId] selects. *)
Definition readCleartextMessage (armoredText : string) (keystore : KeyStore)
  : CleartextError + CleartextMessage * list Signer :=
  match cleartext_readArmored armoredText with
  | inl e => inl (cleartext_read_error e)
  | inr message =>
      let signingKeyIds := getSigningKeyIds message in
      if (length signingKeyIds =? 0)%nat then inl NoSignaturesFound
      else inr (message, map (readSigner keystore) signingKeyIds)
  end.

(** [verifyMessage(message, signers)] *)
Definition verifyMessage (message : CleartextMessage) (signers : list Signer)
  : CleartextError + list VerifiedSigner :=
  let keys := omap signer_key signers in
  match openpgp_verify message keys with
  | inl e => inl (verify_error e)
  | inr signatures =>
      inr (map (fun signer =>
                  mkVerifiedSigner
                    (signer_keyid signer) (signer_userid signer)
                    (match signer_key signer with
                     | None => None
                     | Some _ =>
                         Some (existsb
                                 (fun verifiedSig =>
                                    bool_decide (signer_keyid signer
                                                 = sig_keyid verifiedSig)
                                    && bool_decide (sig_valid verifiedSig
                                                    = Some true))
                                 signatures)
                     end))
               signers)
  end.

End Cleartext.

(** ** pgpModel.js: reading and decrypting messages and files *)

(** [String.prototype.toUpperCase] on code units below 128. *)
Definition upperAscii (c : ascii) : ascii :=
  let n := N_of_ascii c in
  if ((97 <=? n) && (n <=? 122))%N then ascii_of_N (n - 32) else c.

Fixpoint toUpperCase (s : string) : string :=
  match s with
  | EmptyString => EmptyString
  | String c rest => String (upperAscii c) (toUpperCase rest)
  end.

(** A [mvelo.Error]: message and code. *)
Record MveloError := mkMveloError { e_message : string; e_code : string }.

(** What [readMessage] throws. *)
Inductive ReadMessageError :=
| ARMOR_PARSE_ERROR (e : string)     (* l10n('message_read_error', [e]) *)
| BINARY_PARSE_ERROR (e : string)    (* l10n('file_read_error', [e]) *)
| NoMessageToRead.                   (* Error('No message to read') *)

(** What [decryptFile] hands to [mvelo.util.mapError]. *)
Inductive DecryptFileError :=
| ReadFailed (e : ReadMessageError)
| NoKeyFound (e : MveloError)
| NoKeyIdTypeError                   (* encryptionKeyIds[0] is undefined *)
| BackendFailed (e : string).

(** An encrypted file [{content, name}], the content already decoded by
    [mvelo.util.dataURL2str]. *)
Record EncryptedFile := mkEncryptedFile { ef_content : string; ef_name : string }.

(** What the backend's [decrypt] resolves to: [{filename, data}]. *)
Record DecryptedFile := mkDecryptedFile { df_filename : string; df_data : string }.

(** [name.slice(0, -4)] *)
Definition sliceOffLast4 (name : string) : string :=
  String.substring 0 (String.length name - 4) name.

Section Files.

(** The engine, the localisation and the keyrings are given:
    [openpgp.message.readArmored] and [openpgp.message.read] return [inl e]
    when they throw [e]; [getKeyringWithPrivKey] returns [None] for
    [undefined]. *)
Context {Msg Ring : Type}
        (openpgp_message_readArmored : string → string + Msg)
        (openpgp_message_read : string → string + Msg)
        (getEncryptionKeyIds : Msg → list string)
        (getKeyringWithPrivKey : list string → option Ring)
        (backend_decrypt : Ring → Msg → list string → string + DecryptedFile)
        (l10n : string → list string → string).

(** [noKeyFoundError(encryptionKeyIds)]: [None] when the evaluation throws a
    [TypeError] for want of a first key id. *)
Definition noKeyFoundError (encryptionKeyIds : list string) : option MveloError :=
  match encryptionKeyIds with
  | [] => None
  | keyid :: rest =>
      let errorMsg := l10n "message_no_keys" [toUpperCase keyid] in
      let errorMsg :=
        foldl (fun errorMsg id =>
                 (errorMsg ++ " " ++ l10n "word_or" [] ++ " " ++ toUpperCase id)%string)
              errorMsg rest in
      Some (mkMveloError errorMsg "NO_KEY_FOUND")
  end.

(** [readMessage({armoredText, binary})]; an argument left out is [None],
    and the binary is given as the string of its bytes. *)
Definition readMessage (armoredText binary : option string)
  : ReadMessageError + Msg :=
  match armoredText with
  | Some (String _ _ as armoredText) =>
      match openpgp_message_readArmored armoredText with
      | inr message => inr message
      | inl e => inl (ARMOR_PARSE_ERROR e)
      end
  | _ =>
      match binary with
      | Some binary =>
          match openpgp_message_read binary with
          | inr message => inr message
          | inl e => inl (BINARY_PARSE_ERROR e)
          end
      | None => inl NoMessageToRead
      end
  end.

(** [decryptFile(encryptedFile, unlockKey)] *)
Definition decryptFile (encryptedFile : EncryptedFile)
  : DecryptFileError + string * string :=
  let content := ef_content encryptedFile in
  let '(armoredText, binary) :=
    if String.prefix "-----BEGIN PGP MESSAGE-----" content
    then (Some content, None)
    else (None, Some content) in
  match readMessage armoredText binary with
  | inl e => inl (ReadFailed e)
  | inr message =>
      let encryptionKeyIds := getEncryptionKeyIds message in
      match getKeyringWithPrivKey encryptionKeyIds with
      | None =>
          match noKeyFoundError encryptionKeyIds with
          | Some e => inl (NoKeyFound e)
          | None => inl NoKeyIdTypeError
          end
      | Some keyring =>
          match backend_decrypt keyring message encryptionKeyIds with
          | inl e => inl (BackendFailed e)
          | inr result =>
              inr (match df_filename result with
                   | EmptyString => sliceOffLast4 (ef_name encryptedFile)
                   | filename => filename
                   end,
                   df_data result)
          end
      end
  end.

End Files.

(** ** pgpModel.js: encrypting a file *)

(** What [logEncryption] is handed as its [keyring]: a keyring object, or,
    by the call in [encryptFile], an array of keys. *)
Inductive KeyringArgument :=
| KeyringObject (keystore : KeyStore)
| KeyArray (keys : list Key).

(** The log of [uiLog]: pairs of source and message. *)
Definition UiLog := list (string * string).

(** A recipient [{keyringId, keyid}] of [encryptFile]. *)
Record Receipient := mkReceipient { rc_keyringId : string; rc_keyid : Id }.

(** A plain file [{content, name}], the content already decoded by
    [mvelo.util.dataURL2str]. *)
Record PlainFile := mkPlainFile { pf_content : string; pf_name : string }.

(** [recipients.join(', ')] *)
Fixpoint join (sep : string) (l : list string) : string :=
  match l with
  | [] => EmptyString
  | [x] => x
  | x :: rest => (x ++ sep ++ join sep rest)%string
  end.

Section EncryptFile.

(** The engine, the localisation, the keyrings and [getKeysByIds] of the
    keyring are given; [getKeyringById] returns [inl e] when it throws
    [Error(e)], [openpgp.encrypt] when it rejects with it.  What the engine
    resolves to has the armored text [msg.data] and the written packets. *)
Context {Encrypted : Type}
        (getKeyringById : string → string + KeyStore)
        (getKeysByIds : KeyStore → option (list string) → list Key)
        (keyUsers : Key → KeyUsers)
        (openpgp_encrypt_file : string → list Key → string → bool → string + Encrypted)
        (msg_data msg_packets : Encrypted → string)
        (l10n : string → list string → string).

(** [logEncryption(source, keyring, keyIds)]: [inl e] when it throws a
    [TypeError] of message [e], else the log it leaves. *)
Definition logEncryption (source : string) (keyring : KeyringArgument)
    (keyIds : option (list string)) (uiLog : UiLog) : string + UiLog :=
  match source with
  | EmptyString => inr uiLog
  | _ =>
      match keyring with
      | KeyArray _ => inl "keyring.getKeysByIds is not a function"
      | KeyringObject keystore =>
          let keys := getKeysByIds keystore keyIds in
          let recipients := map (fun key => getUserId (keyUsers key) (Some false)) keys in
          inr (uiLog ++ [(source,
                          l10n "security_log_encryption_operation"
                               [join ", " recipients])])
      end
  end.

(** The lookup of the recipients' keys in [encryptFile]: [inl e] when a
    keyring is not found. *)
Fixpoint receipientKeys (receipients : list Receipient) : string + list Key :=
  match receipients with
  | [] => inr []
  | receipient :: rest =>
      match getKeyringById (rc_keyringId receipient) with
      | inl e => inl e
      | inr keystore =>
          match receipientKeys rest with
          | inl e => inl e
          | inr keys =>
              match getKeysForId keystore (rc_keyid receipient) false with
              | Some (first :: _) => inr (first :: keys)
              | _ => inr keys
              end
          end
      end
  end.

(** [encryptFile({plainFile, receipients, armor})]: the log it leaves, and
    [inl m] when the promise is rejected with [{message: m}]. *)
Definition encryptFile (plainFile : PlainFile) (receipients : list Receipient)
    (armor : bool) (uiLog : UiLog) : UiLog * (string + string) :=
  let reject e := (uiLog, inl (l10n "encrypt_error" [e])) in
  match receipientKeys receipients with
  | inl e => reject e
  | inr keys =>
      if (length keys =? 0)%nat then reject "No key found for encryption"
      else
        match openpgp_encrypt_file (pf_content plainFile) keys
                                   (pf_name plainFile) armor with
        | inl e => reject e
        | inr msg =>
            match logEncryption "security_log_encrypt_dialog" (KeyArray keys)
                                None uiLog with
            | inl e => reject e
            | inr uiLog =>
                (uiLog, inr (if armor then msg_data msg else msg_packets msg))
            end
        end
  end.

End EncryptFile.

(** ** KeyringGPG: import into and removal from the GnuPG key store *)

Module KeyringGPG.

(** A key as the GnuPG key store reports it: its fingerprint and the [uid]
    of each of its [userids]. *)
Record GpgKey := mkGpgKey { gpg_fingerprint : string; gpg_userids : list string }.

(** An entry [{key, status}] of [Keys], and the outcome [{Keys, summary}] of
    [keystore.importKeys] with [summary.considered]. *)
Record Imported := mkImported { i_key : GpgKey; i_status : string }.

Record ImportOutcome := mkImportOutcome { Keys : list Imported; considered : Z }.

(** An armored key [{type, armored}] as text. *)
Record ArmoredKey := mkArmoredKey { a_type : KeyType; a_armored : string }.

(** The calls to the key store, in order. *)
Inductive KeystoreCall :=
| importKeys_call (armored : string)
| removeKeysForId_call (fingerprint : string)
| addPublicKeys_call (fingerprints : list string)
| removeKey_call (fingerprint : string)
| super_removeKey_call (fingerprint : string) (type : KeyType).

(** The localised messages, by their identifier and arguments. *)
Inductive Message :=
| key_import_public_success (fingerprint userId : string)
| key_import_public_update (fingerprint userId : string)
| key_import_number_of_failed (failed : Z).

Record Result := mkResult { r_type : ResultType; r_message : Message }.

(** What the two methods throw or reject with. *)
Inductive Error :=
| Rejected (e : string)           (* keystore.importKeys rejects *)
| TypeError                       (* key.get('userids')[0] is undefined *)
| GPG_NOT_SUPPORTED.

(** [String.prototype.toLowerCase] on code units below 128. *)
Definition lowerAscii (c : ascii) : ascii :=
  let n := N_of_ascii c in
  if ((65 <=? n) && (n <=? 90))%N then ascii_of_N (n + 32) else c.

Fixpoint toLowerCase (s : string) : string :=
  match s with
  | EmptyString => EmptyString
  | String c rest => String (lowerAscii c) (toLowerCase rest)
  end.

(** The object that the callback of [Keys.map] returns. *)
Definition successResult (imported : Imported) (userId : string) : Result :=
  let fingerprint := gpg_fingerprint (i_key imported) in
  mkResult success
    (if String.eqb (i_status imported) "newkey"
     then key_import_public_success fingerprint userId
     else key_import_public_update fingerprint userId).

(** The callback of [Keys.map] in [importKeys], on the calls made so far and
    [importedFprs]: [None] when it throws. *)
Definition importedKey (state : list KeystoreCall * list string) (imported : Imported)
  : list KeystoreCall * list string * option Result :=
  let '(calls, importedFprs) := state in
  let fingerprint := gpg_fingerprint (i_key imported) in
  let importedFprs := importedFprs ++ [fingerprint] in
  let calls := calls ++ [removeKeysForId_call (toLowerCase fingerprint)] in
  match gpg_userids (i_key imported) with
  | [] => (calls, importedFprs, None)
  | userId :: _ => (calls, importedFprs, Some (successResult imported userId))
  end.

(** [Keys.map(...)]: the first exception ends the loop. *)
Fixpoint mapKeys (state : list KeystoreCall * list string) (keys : list Imported)
    (result : list Result)
  : list KeystoreCall * list string * option (list Result) :=
  match keys with
  | [] => (state, Some result)
  | imported :: rest =>
      match importedKey state imported with
      | (calls, importedFprs, Some r) =>
          mapKeys (calls, importedFprs) rest (result ++ [r])
      | (calls, importedFprs, None) => (calls, importedFprs, None)
      end
  end.

Section Keystore.

(** [keystore.importKeys] of the GnuPG key store is given; [inl e] when it
    rejects with [e]. *)
Context (keystore_importKeys : string → string + ImportOutcome).

(** [importKeys(armoredKeys)]: the calls to the key store and the
    outcome. *)
Definition importKeys (armoredKeys : list ArmoredKey)
  : list KeystoreCall * (Error + list Result) :=
  let armoredKeys := join (String LF "") (map a_armored armoredKeys) in
  let calls := [importKeys_call armoredKeys] in
  match keystore_importKeys armoredKeys with
  | inl e => (calls, inl (Rejected e))
  | inr outcome =>
      match mapKeys (calls, []) (Keys outcome) [] with
      | (calls, _, None) => (calls, inl TypeError)
      | (calls, importedFprs, Some result) =>
          let failed := considered outcome - Z.of_nat (length (Keys outcome)) in
          let result :=
            if failed =? 0 then result
            else result ++ [mkResult error (key_import_number_of_failed failed)] in
          (calls ++ [addPublicKeys_call importedFprs], inr result)
      end
  end.

End Keystore.

(** The removals that an import asks the key store for, one per key. *)
Definition removals (keys : list Imported) : list KeystoreCall :=
  map (fun imported =>
         removeKeysForId_call (toLowerCase (gpg_fingerprint (i_key imported))))
      keys.

(** [removeKey(fingerprint, type)]: the calls to the key store and to the
    base class, and [Some e] when it throws before them. *)
Definition removeKey (fingerprint : string) (type : KeyType)
  : list KeystoreCall * option Error :=
  match type with
  | private => ([], Some GPG_NOT_SUPPORTED)
  | public =>
      ([removeKey_call fingerprint; super_removeKey_call fingerprint type], None)
  end.

End KeyringGPG.

(** ** Notions used for the change log of an import *)

(** The key that a result message of the import is about. *)
Definition messageKey (message : ImportMessage) : option Key :=
  match message with
  | key_import_public_update k | key_import_public_success k
  | key_import_private_exists k | key_import_private_update k
  | key_import_private_success k => Some k
  | key_import_unable _ | key_import_public_read _ | key_import_private_read _ => None
  end.

(** A change log records a fingerprint as inserted or updated at a time. *)
Definition recorded (t : Z) (log : ChangeLog) (fpr : string) : Prop :=
  ∃ ty, ty ≠ DELETE ∧ log !! fpr = Some (mkEntry ty t).

(** Every success among the results is recorded in the pending log. *)
Definition resultsRecorded (t : Z) (r : Keyring) (result : list ImportResult)
  : Prop :=
  ∀ m, m ∈ result → r_type m = success →
       ∃ k, messageKey (r_message m) = Some k ∧ recorded t (sync r) (fingerprint k).

(** What a callback of the import does to the pending log. *)
Definition recordsKey (body : Key → Keyring → string + Keyring * ImportResult)
  : Prop :=
  ∀ k r r' m, body k r = inr (r', m) →
    clock r' = clock r
    ∧ (∃ k', messageKey (r_message m) = Some k' ∧ fingerprint k' = fingerprint k)
    ∧ ∃ ty, ty ≠ DELETE
            ∧ sync r' = <[fingerprint k := mkEntry ty (clock r)]> (sync r).

(** A private key is settled in a key store when the key on which an import
    of it would fall is a private key that already has all it brings. *)
Definition settledPrivate (ks : KeyStore) (k : Key) : Prop :=
  ∃ k', firstMatch ks (fingerprint k) = Some k' ∧ absorbs k' k
        ∧ isPublic k' = false.

(** The keys that the candidates of a type hold, in order. *)
Definition keysOfType (ty : KeyType) (cs : list Candidate) : list Key :=
  candidateKeys (List.filter (fun c => bool_decide (c_type c = ty)) cs).

(** ** Notions used for the values of a preamble *)

(** A string without line break: no carriage return and no line feed. *)
Fixpoint noBreak (s : string) : bool :=
  match s with
  | EmptyString => true
  | String c rest => negb (Ascii.eqb c CR) && negb (Ascii.eqb c LF) && noBreak rest
  end.

(** ** Notions used for the primary key across an import *)

(** A key store has, as first private key of a fingerprint, a key with the
    secret material of [k] that has all the subkeys and certifications [k]
    has. *)
Definition keepsPrivate (k : Key) (ks : KeyStore) : Prop :=
  ∃ k', getForId (privateKeys ks) (fingerprint k) = Some k'
        ∧ secret k' = secret k
        ∧ absorbs k' k.

(** * Properties *)

(** ** Loops that upsert into a dictionary *)

Section fold_upsert.
Context {A B : Type}.

(** A loop over the entries of a dictionary that sets, for some of them, a
    value under the same key of another dictionary. *)
Lemma foldl_upsert_lookup (g : string → A → option B)
    (l : list (string * A)) (m : gmap string B) (k : string) :
  NoDup l.*1 →
  foldl (λ acc p, match g p.1 p.2 with
                  | Some b => <[p.1 := b]> acc
                  | None => acc
                  end) m l !! k
  = match (list_to_map l : gmap string A) !! k ≫= g k with
    | Some b => Some b
    | None => m !! k
    end.
Proof.
  revert m. induction l as [|[i x] l IH]; intros m Hnd; simpl.
  - by rewrite lookup_empty.
  - apply NoDup_cons in Hnd as [Hi Hnd]. rewrite IH by done.
    destruct (decide (i = k)) as [-> | Hne].
    + rewrite lookup_insert_eq, (not_elem_of_list_to_map_1 l k) by done. simpl.
      destruct (g k x); [by rewrite lookup_insert_eq | done].
    + rewrite lookup_insert_ne by done.
      destruct (list_to_map l !! k ≫= g k); [done|].
      destruct (g i x); [by rewrite lookup_insert_ne | done].
Qed.

Lemma map_upsert_lookup (g : string → A → option B)
    (src : gmap string A) (m : gmap string B) (k : string) :
  foldl (λ acc p, match g p.1 p.2 with
                  | Some b => <[p.1 := b]> acc
                  | None => acc
                  end) m (map_to_list src) !! k
  = match src !! k ≫= g k with
    | Some b => Some b
    | None => m !! k
    end.
Proof.
  rewrite foldl_upsert_lookup by apply NoDup_fst_map_to_list.
  by rewrite list_to_map_to_list.
Qed.
End fold_upsert.

(** ** The outgoing payload *)

Lemma convertChangeLog_deletedKeys key changeLog syncData :
  deletedKeys (convertChangeLog key changeLog syncData) = deletedKeys syncData.
Proof.
  unfold convertChangeLog. destruct (changeLog !! fingerprint key) as [[[] ?]|]; done.
Qed.

Lemma convertChangeLog_insertedKeys key changeLog syncData fpr :
  insertedKeys (convertChangeLog key changeLog syncData) !! fpr
  = match changeLog !! fpr with
    | Some (mkEntry INSERT t) =>
        if decide (fingerprint key = fpr)
        then Some (mkInserted (armor key) t)
        else insertedKeys syncData !! fpr
    | _ => insertedKeys syncData !! fpr
    end.
Proof.
  unfold convertChangeLog.
  destruct (decide (fingerprint key = fpr)) as [-> | Hne].
  - destruct (changeLog !! fpr) as [[[] ?]|]; simpl; try done.
    by rewrite lookup_insert_eq.
  - destruct (changeLog !! fingerprint key) as [[[] ?]|]; simpl;
      rewrite ?lookup_insert_ne by done;
      destruct (changeLog !! fpr) as [[[] ?]|]; done.
Qed.

(** The loop over the keys leaves [deletedKeys] alone. *)
Lemma convertAll_deletedKeys changeLog (l : list Key) syncData :
  deletedKeys (foldl (λ sd k, convertChangeLog k changeLog sd) syncData l)
  = deletedKeys syncData.
Proof.
  revert syncData. induction l as [|k l IH]; intros sd; simpl; [done|].
  by rewrite IH, convertChangeLog_deletedKeys.
Qed.

(** A key with an INSERT entry is exported, in the form of the last key of
    the loop that has its fingerprint. *)
Lemma convertAll_exports changeLog (l : list Key) syncData k t :
  k ∈ l →
  changeLog !! fingerprint k = Some (mkEntry INSERT t) →
  ∃ k', k' ∈ l ∧ fingerprint k' = fingerprint k
        ∧ insertedKeys (foldl (λ sd k, convertChangeLog k changeLog sd) syncData l)
            !! fingerprint k = Some (mkInserted (armor k') t).
Proof.
  intros Hin Hlog. induction l as [|k0 l IH] using rev_ind; [by apply elem_of_nil in Hin|].
  rewrite foldl_snoc, convertChangeLog_insertedKeys, Hlog.
  destruct (decide (fingerprint k0 = fingerprint k)) as [Heq|Hne].
  - exists k0. split; [set_solver | done].
  - apply elem_of_app in Hin as [Hin|Hin]; [|set_solver].
    destruct (IH Hin) as (k' & ? & ? & ?). exists k'. split; [set_solver | done].
Qed.

(** Whatever the loop over the keys adds to [insertedKeys] is the armored
    form of one of the keys, under an INSERT entry and with its time. *)
Lemma convertAll_only_inserts changeLog (l : list Key) syncData fpr e :
  insertedKeys (foldl (λ sd k, convertChangeLog k changeLog sd) syncData l) !! fpr
    = Some e →
  insertedKeys syncData !! fpr = Some e
  ∨ ∃ k, k ∈ l ∧ fingerprint k = fpr ∧ armored e = armor k
         ∧ changeLog !! fpr = Some (mkEntry INSERT (insertedAt e)).
Proof.
  induction l as [|k0 l IH] using rev_ind; [by left|].
  rewrite foldl_snoc, convertChangeLog_insertedKeys.
  destruct (changeLog !! fpr) as [[[] t]|] eqn:Hlog;
    try (intros H; destruct (IH H) as [?|(k & ? & ?)]; [by left|];
         right; exists k; split; [set_solver | done]).
  destruct (decide (fingerprint k0 = fpr)) as [Heq|Hne].
  - intros [= <-]. right. exists k0. split; [set_solver | done].
  - intros H; destruct (IH H) as [?|(k & ? & ?)]; [by left|].
    right; exists k; split; [set_solver | done].
Qed.

Lemma convertDelete_insertedKeys (l : list (string * LogEntry)) syncData :
  insertedKeys (foldl convertDelete syncData l) = insertedKeys syncData.
Proof.
  revert syncData. induction l as [|[fpr e] l IH]; intros sd; simpl; [done|].
  rewrite IH. by destruct (decide (type e = DELETE)).
Qed.

Lemma convertDelete_deletedKeys (l : list (string * LogEntry)) syncData :
  deletedKeys (foldl convertDelete syncData l)
  = foldl (λ acc p, match (if decide (type p.2 = DELETE)
                           then Some (mkDeleted (time p.2)) else None) with
                    | Some b => <[p.1 := b]> acc
                    | None => acc
                    end) (deletedKeys syncData) l.
Proof.
  revert syncData. induction l as [|[fpr e] l IH]; intros sd; simpl; [done|].
  rewrite IH. by destruct (decide (type e = DELETE)).
Qed.

(** The payload in terms of the two loops. *)
Lemma buildSyncData_loops changeLog keyStore :
  buildSyncData changeLog keyStore
  = foldl convertDelete
          (foldl (λ sd k, convertChangeLog k changeLog sd)
                 (mkSyncData ∅ ∅) (exportedKeys keyStore))
          (map_to_list changeLog).
Proof. unfold buildSyncData, exportedKeys. by rewrite foldl_app, foldl_fmap. Qed.

Lemma buildSyncData_insertedKeys changeLog keyStore :
  insertedKeys (buildSyncData changeLog keyStore)
  = insertedKeys (foldl (λ sd k, convertChangeLog k changeLog sd)
                        (mkSyncData ∅ ∅) (exportedKeys keyStore)).
Proof. by rewrite buildSyncData_loops, convertDelete_insertedKeys. Qed.

Lemma buildSyncData_deletedKeys changeLog keyStore fpr :
  deletedKeys (buildSyncData changeLog keyStore) !! fpr
  = match changeLog !! fpr with
    | Some (mkEntry DELETE t) => Some (mkDeleted t)
    | _ => None
    end.
Proof.
  rewrite buildSyncData_loops, convertDelete_deletedKeys.
  pose (g := λ (_ : string) (e : LogEntry),
               if decide (type e = DELETE)
               then Some (mkDeleted (time e)) else None).
  etrans; [apply (map_upsert_lookup g)|]. subst g.
  rewrite convertAll_deletedKeys. simpl. rewrite lookup_empty.
  destruct (changeLog !! fpr) as [[[] t]|]; done.
Qed.

(** Payloads built by [encryptSyncMessage] satisfy the payload invariant. *)
Lemma buildSyncData_wellFormed changeLog keyStore :
  wellFormedPayload (buildSyncData changeLog keyStore).
Proof.
  intros fpr. rewrite buildSyncData_deletedKeys.
  destruct (insertedKeys (buildSyncData changeLog keyStore) !! fpr) as [e|] eqn:He;
    [|by left].
  right. rewrite buildSyncData_insertedKeys in He.
  apply convertAll_only_inserts in He as [He|(k & _ & _ & _ & ->)]; [|done].
  simpl in He. by rewrite lookup_empty in He.
Qed.




(** ** The inbound payload *)

Lemma mergeInserted_fold (l : list (string * InsertedKey)) publicKeys changeLog :
  foldl mergeInserted (publicKeys, changeLog) l
  = (publicKeys ++ ((λ p, mkCandidate public (armored p.2)) <$> l),
     foldl (λ acc p, match Some (mkEntry INSERT (insertedAt p.2)) with
                     | Some b => <[p.1 := b]> acc
                     | None => acc
                     end) changeLog l).
Proof.
  revert publicKeys changeLog.
  induction l as [|[fpr e] l IH]; intros pk cl; simpl.
  - by rewrite app_nil_r.
  - rewrite IH. by rewrite <- app_assoc.
Qed.

Lemma mergeDeleted_fold (l : list (string * DeletedKey)) (changeLog : ChangeLog) :
  foldl mergeDeleted changeLog l
  = foldl (λ acc p, match Some (mkEntry DELETE (deletedAt p.2)) with
                    | Some b => <[p.1 := b]> acc
                    | None => acc
                    end) changeLog l.
Proof.
  revert changeLog. induction l as [|[fpr e] l IH]; intros cl; simpl; [done|].
  by rewrite IH.
Qed.

(** The merge change log: the DELETE pass overwrites the INSERT pass. *)
Lemma mergeSyncData_changeLog syncData fpr :
  sp_changeLog (mergeSyncData syncData) !! fpr
  = match deletedKeys syncData !! fpr with
    | Some d => Some (mkEntry DELETE (deletedAt d))
    | None =>
        match insertedKeys syncData !! fpr with
        | Some i => Some (mkEntry INSERT (insertedAt i))
        | None => None
        end
    end.
Proof.
  unfold mergeSyncData. rewrite mergeInserted_fold. simpl.
  rewrite mergeDeleted_fold.
  pose (g := λ (_ : string) (d : DeletedKey), Some (mkEntry DELETE (deletedAt d))).
  etrans; [apply (map_upsert_lookup g)|]. subst g.
  destruct (deletedKeys syncData !! fpr); simpl; [done|].
  pose (g := λ (_ : string) (i : InsertedKey), Some (mkEntry INSERT (insertedAt i))).
  etrans; [apply (map_upsert_lookup g)|]. subst g.
  rewrite lookup_empty.
  by destruct (insertedKeys syncData !! fpr).
Qed.

Lemma mergeSyncData_keys syncData :
  sp_keys (mergeSyncData syncData)
  = (λ p, mkCandidate public (armored p.2)) <$> map_to_list (insertedKeys syncData).
Proof. unfold mergeSyncData. by rewrite mergeInserted_fold. Qed.

Lemma mergeSyncData_keys_elem syncData c :
  c ∈ sp_keys (mergeSyncData syncData)
  ↔ ∃ fpr i, insertedKeys syncData !! fpr = Some i
             ∧ c = mkCandidate public (armored i).
Proof.
  rewrite mergeSyncData_keys, list_elem_of_fmap. split.
  - intros ([fpr i] & -> & Hin). apply elem_of_map_to_list in Hin. by exists fpr, i.
  - intros (fpr & i & Hin & ->). exists (fpr, i). split; [done|].
    by apply elem_of_map_to_list.
Qed.

(** What a successful decoding has gone through. *)
Lemma decryptSyncMessage_inr key message packet :
  decryptSyncMessage key message = inr packet →
  ∃ msg sig syncData,
    openpgp_decrypt message key key = Some msg
    ∧ head (signatures msg) = Some sig
    ∧ validSignatureOf key sig
    ∧ JSON_parse (data msg) = Some syncData
    ∧ packet = mergeSyncData syncData.
Proof.
  unfold decryptSyncMessage, checkSignature, validSignatureOf.
  destruct (openpgp_decrypt message key key) as [msg|]; [|done].
  destruct (signatures msg) as [|sig sigs] eqn:Hsigs; [done|].
  destruct (sig_valid sig) as [[]|] eqn:Hvalid; try done.
  destruct (signingKeyId key) as [kid|] eqn:Hkid; [|done].
  destruct (decide (sig_keyid sig = kid)) as [<- |]; [|done].
  destruct (JSON_parse (data msg)) as [syncData|] eqn:Hparse; [|done].
  intros [= <-]. exists msg, sig, syncData. by rewrite Hsigs.
Qed.

Lemma openpgp_decrypt_Some message privateKey publicKeys msg :
  openpgp_decrypt message privateKey publicKeys = Some msg →
  data msg = plaintext message ∧ signatures msg = signed message.
Proof.
  unfold openpgp_decrypt.
  destruct (secret privateKey), (encryptionKeyId privateKey); try done.
  case_decide; [|done]. by intros [= <-].
Qed.

(** C3 (as amended).  [decryptSyncMessage] verifies the signature of the
    payload against the keyring's own key.  When no signature of the message
    is valid with the key id of the signing key of that key, the message is
    rejected with an error, so that neither a change log nor a key list is
    produced.  A change log is returned only when the first signature
    verified, and it then holds a DELETE entry with its time for every
    fingerprint of [deletedKeys] and an INSERT entry with the original time
    for every fingerprint of [insertedKeys] that is not also in
    [deletedKeys]; the armored public key of every fingerprint of
    [insertedKeys] is among the returned keys; nothing else is returned. *)
Theorem decryptSyncMessage_verifies (key : Key) (message : SyncMessage) :
  ((∀ msg, openpgp_decrypt message key key = Some msg →
           ¬ ∃ sig, sig ∈ signatures msg ∧ validSignatureOf key sig) →
   ∃ e, decryptSyncMessage key message = inl e)
  ∧ (∀ msg sig syncData,
       openpgp_decrypt message key key = Some msg →
       head (signatures msg) = Some sig →
       validSignatureOf key sig →
       JSON_parse (data msg) = Some syncData →
       decryptSyncMessage key message = inr (mergeSyncData syncData))
  ∧ (∀ packet, decryptSyncMessage key message = inr packet →
       ∃ msg sig syncData,
         openpgp_decrypt message key key = Some msg
         ∧ head (signatures msg) = Some sig
         ∧ validSignatureOf key sig
         ∧ JSON_parse (data msg) = Some syncData
         ∧ (∀ fpr d, deletedKeys syncData !! fpr = Some d →
              sp_changeLog packet !! fpr = Some (mkEntry DELETE (deletedAt d)))
         ∧ (∀ fpr i, insertedKeys syncData !! fpr = Some i →
              deletedKeys syncData !! fpr = None →
              sp_changeLog packet !! fpr = Some (mkEntry INSERT (insertedAt i)))
         ∧ (∀ fpr i, insertedKeys syncData !! fpr = Some i →
              mkCandidate public (armored i) ∈ sp_keys packet)
         ∧ (∀ fpr, is_Some (sp_changeLog packet !! fpr) →
              is_Some (insertedKeys syncData !! fpr)
              ∨ is_Some (deletedKeys syncData !! fpr))
         ∧ (∀ c, c ∈ sp_keys packet →
              ∃ fpr i, insertedKeys syncData !! fpr = Some i
                       ∧ c = mkCandidate public (armored i))).
Proof.
  split; [|split].
  - intros Hnone.
    destruct (decryptSyncMessage key message) as [e|packet] eqn:Hdec; [by exists e|].
    apply decryptSyncMessage_inr in Hdec as (msg & sig & _ & Hmsg & Hhead & Hsig & _).
    destruct (Hnone msg Hmsg). exists sig. split; [|done].
    destruct (signatures msg); simplify_eq/=. by left.
  - intros msg sig syncData Hmsg Hhead [Hvalid Hkid] Hparse.
    unfold decryptSyncMessage, checkSignature. rewrite Hmsg.
    destruct (signatures msg) as [|sig' sigs]; simplify_eq/=.
    rewrite Hvalid, Hkid, decide_True by done. by rewrite Hparse.
  - intros packet Hdec.
    apply decryptSyncMessage_inr in Hdec
      as (msg & sig & syncData & Hmsg & Hhead & Hsig & Hparse & ->).
    exists msg, sig, syncData. repeat (split; [done|]).
    split; [|split; [|split; [|split]]].
    + intros fpr d Hd. by rewrite mergeSyncData_changeLog, Hd.
    + intros fpr i Hi Hd. by rewrite mergeSyncData_changeLog, Hi, Hd.
    + intros fpr i Hi. apply mergeSyncData_keys_elem. by exists fpr, i.
    + intros fpr. rewrite mergeSyncData_changeLog.
      destruct (deletedKeys syncData !! fpr); [by right|].
      destruct (insertedKeys syncData !! fpr); [by left|]. by intros [? ?].
    + intros c. by rewrite mergeSyncData_keys_elem.
Qed.

Lemma decryptSyncMessage_verifies_witness :
  (∃ e, decryptSyncMessage carol (badlySigned samplePayload) = inl e)
  ∧ decryptSyncMessage carol (signedBy carol samplePayload)
    = inr (mergeSyncData samplePayload)
  ∧ sp_changeLog (mergeSyncData samplePayload) !! "a1" = Some (mkEntry INSERT 5)
  ∧ sp_changeLog (mergeSyncData samplePayload) !! "b2" = Some (mkEntry DELETE 7).
Proof.
  pose proof (decryptSyncMessage_verifies carol (badlySigned samplePayload))
    as (Hreject & _ & _).
  pose proof (decryptSyncMessage_verifies carol (signedBy carol samplePayload))
    as (_ & Haccept & Hresult).
  split; [|split].
  - apply Hreject. intros msg Hmsg (sig & Hin & Hvalid & _).
    apply openpgp_decrypt_Some in Hmsg as [_ Hsigs].
    rewrite Hsigs in Hin. apply list_elem_of_In in Hin. simpl in Hin.
    destruct Hin as [<-|[]]. discriminate Hvalid.
  - by apply (Haccept (mkDecrypted (JSON samplePayload) [mkSig "0c" (Some true)])
                      (mkSig "0c" (Some true)) samplePayload).
  - destruct (Hresult (mergeSyncData samplePayload))
      as (msg & sig & syncData & Hmsg & _ & _ & Hparse & Hdel & Hins & _).
    { by apply (Haccept (mkDecrypted (JSON samplePayload) [mkSig "0c" (Some true)])
                        (mkSig "0c" (Some true)) samplePayload). }
    assert (syncData = samplePayload) as ->.
    { apply openpgp_decrypt_Some in Hmsg as [Hdata _].
      rewrite Hdata in Hparse. simpl in Hparse. congruence. }
    split.
    + by apply (Hins "a1" (mkInserted (armor alice) 5)).
    + apply (Hdel "b2" (mkDeleted 7)). reflexivity.
Defined.

(** C3, as stated, fails: a message that verifies and whose payload has the
    fingerprint of an inserted key also among its deleted keys is decoded to
    a change log that has no INSERT entry for that fingerprint. *)
Lemma decryptSyncMessage_insert_entry_missing :
  ∃ packet,
    decryptSyncMessage carol (signedBy carol overlappingPayload) = inr packet
    ∧ insertedKeys overlappingPayload !! "a1" = Some (mkInserted (armor alice) 5)
    ∧ sp_changeLog packet !! "a1" = Some (mkEntry DELETE 7)
    ∧ ¬ ∃ t, sp_changeLog packet !! "a1" = Some (mkEntry INSERT t).
Proof.
  exists (mergeSyncData overlappingPayload).
  assert (sp_changeLog (mergeSyncData overlappingPayload) !! "a1"
          = Some (mkEntry DELETE 7)) as Hlog.
  { by rewrite mergeSyncData_changeLog. }
  repeat split; try done.
  intros [t Ht]. rewrite Hlog in Ht. discriminate Ht.
Qed.

(** C10.  When the same fingerprint is in both [insertedKeys] and
    [deletedKeys] of an inbound payload, the merge change log that
    [decryptSyncMessage] returns has, for that fingerprint, the single entry
    DELETE with the time of the deletion (the pass over [deletedKeys]
    overwrites the INSERT entry), and the armored public key of the
    fingerprint is nevertheless among the returned keys. *)
Theorem decryptSyncMessage_insert_and_delete (key : Key) (message : SyncMessage)
    (packet : SyncPacket) (syncData : SyncData) (fpr : string)
    (i : InsertedKey) (d : DeletedKey) :
  decryptSyncMessage key message = inr packet →
  JSON_parse (plaintext message) = Some syncData →
  insertedKeys syncData !! fpr = Some i →
  deletedKeys syncData !! fpr = Some d →
  sp_changeLog packet !! fpr = Some (mkEntry DELETE (deletedAt d))
  ∧ sp_changeLog packet !! fpr ≠ Some (mkEntry INSERT (insertedAt i))
  ∧ mkCandidate public (armored i) ∈ sp_keys packet.
Proof.
  intros Hdec Hparse Hi Hd.
  apply decryptSyncMessage_inr in Hdec
    as (msg & sig & syncData' & Hmsg & _ & _ & Hparse' & ->).
  apply openpgp_decrypt_Some in Hmsg as [Hdata _].
  rewrite Hdata in Hparse'. simplify_eq.
  rewrite mergeSyncData_changeLog, Hd. repeat split; [done|].
  apply mergeSyncData_keys_elem. by exists fpr, i.
Qed.

Lemma decryptSyncMessage_insert_and_delete_witness :
  sp_changeLog (mergeSyncData overlappingPayload) !! "a1" = Some (mkEntry DELETE 7)
  ∧ sp_changeLog (mergeSyncData overlappingPayload) !! "a1" ≠ Some (mkEntry INSERT 5)
  ∧ mkCandidate public (armor alice) ∈ sp_keys (mergeSyncData overlappingPayload).
Proof.
  apply (decryptSyncMessage_insert_and_delete
           carol (signedBy carol overlappingPayload)
           (mergeSyncData overlappingPayload) overlappingPayload "a1"
           (mkInserted (armor alice) 5) (mkDeleted 7));
    reflexivity.
Defined.

(** ** The primary key *)

Lemma getForId_Some keys fpr k :
  getForId keys fpr = Some k → k ∈ keys ∧ fingerprint k = fpr.
Proof.
  induction keys as [|k0 keys IH]; simpl; [done|].
  case_decide.
  - intros [= <-]. split; [by left | done].
  - intros H'. destruct (IH H') as [? ?]. split; [by right | done].
Qed.

Lemma getForId_None keys fpr :
  getForId keys fpr = None → ∀ k, k ∈ keys → fingerprint k ≠ fpr.
Proof.
  induction keys as [|k0 keys IH]; simpl; intros H k Hin.
  - by apply elem_of_nil in Hin.
  - case_decide; [done|]. apply elem_of_cons in Hin as [-> | Hin]; [done|].
    by apply IH.
Qed.

Lemma getForId_elem keys k :
  k ∈ keys → ∃ k', getForId keys (fingerprint k) = Some k'.
Proof.
  intros Hin. destruct (getForId keys (fingerprint k)) as [k'|] eqn:H; [by exists k'|].
  by destruct (getForId_None _ _ H k Hin).
Qed.

(** The scan returns a newest valid key, if there is a valid key at all. *)
Lemma newestValid_spec keys :
  match newestValid keys None with
  | Some k => newestValidKey keys k
  | None => ∀ k, k ∈ keys → validatePrimaryKey k = false
  end.
Proof.
  unfold newestValid, newestValidKey.
  induction keys as [|x keys IH] using rev_ind; simpl.
  - intros k Hin. by apply elem_of_nil in Hin.
  - rewrite foldl_snoc.
    destruct (foldl _ None keys) as [chosen|]; simpl.
    + destruct IH as (Hin & Hvalid & Hmax).
      destruct (created chosen <? created x) eqn:Hlt; simpl.
      * apply Z.ltb_lt in Hlt.
        destruct (validatePrimaryKey x) eqn:Hx.
        -- split; [set_solver|]. split; [done|].
           intros k' [Hk'|Hk']%elem_of_app Hv.
           ++ specialize (Hmax k' Hk' Hv). lia.
           ++ apply list_elem_of_singleton in Hk' as ->. lia.
        -- split; [set_solver|]. split; [done|].
           intros k' [Hk'|Hk']%elem_of_app Hv; [by apply Hmax|].
           apply list_elem_of_singleton in Hk' as ->. congruence.
      * apply Z.ltb_ge in Hlt. split; [set_solver|]. split; [done|].
        intros k' [Hk'|Hk']%elem_of_app Hv; [by apply Hmax|].
        by apply list_elem_of_singleton in Hk' as ->.
    + destruct (validatePrimaryKey x) eqn:Hx.
      * split; [set_solver|]. split; [done|].
        intros k' [Hk'|Hk']%elem_of_app Hv.
        -- rewrite (IH k' Hk') in Hv. done.
        -- apply list_elem_of_singleton in Hk' as ->. lia.
      * intros k [Hk|Hk]%elem_of_app; [by apply IH|].
        by apply list_elem_of_singleton in Hk as ->.
Qed.

(** [getPrimaryKey] only ever writes the attribute [primary_key]. *)
Lemma getPrimaryKey_frame r :
  (getPrimaryKey r).1 = setPrimaryKey (primary_key (getPrimaryKey r).1) r.
Proof.
  unfold getPrimaryKey, getPrimaryKeyFpr. destruct r as [ks pk sy co sp ss cl]; simpl.
  case_bool_decide; simpl.
  - by destruct (newestValid _ None).
  - destruct (getForId _ pk) as [k|]; simpl;
      [destruct (validatePrimaryKey k); simpl|];
      try destruct (newestValid _ None); done.
Qed.

(** The fallback: from a keyring without usable stored attribute. *)
Lemma getPrimaryKey_fallback r :
  primary_key r = ""
  ∨ getForId (privateKeys (keystore r)) (primary_key r) = None
  ∨ (∃ k, getForId (privateKeys (keystore r)) (primary_key r) = Some k
          ∧ validatePrimaryKey k = false) →
  getPrimaryKey r
  = match newestValid (privateKeys (keystore r)) None with
    | Some k => (setPrimaryKey (fingerprint k) r, Some k)
    | None => (setPrimaryKey "" r, None)
    end.
Proof.
  unfold getPrimaryKey, getPrimaryKeyFpr. destruct r as [ks pk sy co sp ss cl]; simpl.
  intros [->|Hcase].
  - rewrite bool_decide_eq_true_2 by done. simpl.
    by destruct (newestValid _ None).
  - case_bool_decide as Hpk; simpl.
    + subst pk. by destruct (newestValid _ None).
    + destruct Hcase as [->|(k & -> & ->)]; simpl; by destruct (newestValid _ None).
Qed.

Lemma setPrimaryKey_same r : setPrimaryKey (primary_key r) r = r.
Proof. by destruct r. Qed.

(** Once a call leaves the keyring as it found it, so does every later call,
    with the same answer. *)
Lemma getPrimaryKey_nth_fixed r result n :
  getPrimaryKey r = (r, result) → getPrimaryKey_nth n r = result.
Proof. intros H. induction n as [|n IH]; simpl; by rewrite H. Qed.

(** A call on a keyring whose attribute names the newest valid key. *)
Lemma getPrimaryKey_again r k :
  newestValid (privateKeys (keystore r)) None = Some k →
  primary_key r = fingerprint k →
  ∃ k', getPrimaryKey r = (r, Some k') ∧ fingerprint k' = fingerprint k.
Proof.
  intros Hnewest Hattr.
  pose proof (newestValid_spec (privateKeys (keystore r))) as Hspec.
  rewrite Hnewest in Hspec. destruct Hspec as (Hin & Hvalid & _).
  destruct (decide (primary_key r = "")) as [Hempty|Hset].
  { exists k. rewrite getPrimaryKey_fallback, Hnewest by by left.
    by rewrite <- Hattr, setPrimaryKey_same. }
  destruct (getForId_elem _ _ Hin) as [k' Hk']. rewrite <- Hattr in Hk'.
  destruct (validatePrimaryKey k') eqn:Hv.
  - exists k'. split.
    + unfold getPrimaryKey, getPrimaryKeyFpr.
      by rewrite bool_decide_eq_false_2, Hk', Hv by done.
    + apply getForId_Some in Hk' as [_ ->]. done.
  - exists k. rewrite getPrimaryKey_fallback, Hnewest.
    + by rewrite <- Hattr, setPrimaryKey_same.
    + right; right. by exists k'.
Qed.

(** C4.  [getPrimaryKey] returns the key that the stored primary-key
    fingerprint refers to when that private key still exists and passes
    validation, and then changes nothing.  Otherwise the stored attribute is
    cleared and the call falls back to a newest-created valid private key,
    whose fingerprint becomes the stored attribute; when no private key is
    valid it returns null.  From a keyring without stored attribute, every
    call of a sequence of calls returns a key of the same fingerprint. *)
Theorem getPrimaryKey_spec (r : Keyring) :
  let privs := privateKeys (keystore r) in
  (∀ k, primary_key r ≠ "" →
        getForId privs (primary_key r) = Some k →
        validatePrimaryKey k = true →
        getPrimaryKey r = (r, Some k)
        ∧ k ∈ privs ∧ fingerprint k = primary_key r)
  ∧ (primary_key r = ""
     ∨ getForId privs (primary_key r) = None
     ∨ (∃ k, getForId privs (primary_key r) = Some k
             ∧ validatePrimaryKey k = false) →
     (∀ k, (getPrimaryKey r).2 = Some k →
           newestValidKey privs k
           ∧ (getPrimaryKey r).1 = setPrimaryKey (fingerprint k) r)
     ∧ ((∃ k, k ∈ privs ∧ validatePrimaryKey k = true) →
        is_Some (getPrimaryKey r).2)
     ∧ ((getPrimaryKey r).2 = None →
        (getPrimaryKey r).1 = setPrimaryKey "" r))
  ∧ ((∀ k, k ∈ privs → validatePrimaryKey k = false) →
     (getPrimaryKey r).2 = None)
  ∧ (primary_key r = "" →
     ∀ n, fingerprint <$> getPrimaryKey_nth n r
          = fingerprint <$> (getPrimaryKey r).2).
Proof.
  intros privs. subst privs.
  pose proof (newestValid_spec (privateKeys (keystore r))) as Hspec.
  split; [|split; [|split]].
  - intros k Hset Hk Hv. split; [|by apply getForId_Some].
    unfold getPrimaryKey, getPrimaryKeyFpr.
    by rewrite bool_decide_eq_false_2, Hk, Hv by done.
  - intros Hcase. rewrite (getPrimaryKey_fallback r Hcase).
    destruct (newestValid _ None) as [chosen|]; simpl.
    + split; [|split]; [by intros k [= <-] | by eauto | done].
    + split; [|split]; [done | | done].
      intros (k & Hin & Hv). by rewrite (Hspec k Hin) in Hv.
  - intros Hnone.
    assert (newestValid (privateKeys (keystore r)) None = None) as Hnewest.
    { destruct (newestValid _ None) as [k|]; [|done].
      destruct Hspec as (Hin & Hv & _). by rewrite (Hnone k Hin) in Hv. }
    unfold getPrimaryKey, getPrimaryKeyFpr. case_bool_decide; simpl.
    + by rewrite Hnewest.
    + destruct (getForId _ _) as [k|] eqn:Hk; simpl.
      * apply getForId_Some in Hk as [Hin _]. rewrite (Hnone k Hin). simpl.
        by rewrite Hnewest.
      * by rewrite Hnewest.
  - intros Hempty [|n]; simpl; [done|].
    rewrite (getPrimaryKey_fallback r (or_introl Hempty)).
    destruct (newestValid _ None) as [k|] eqn:Hnewest; simpl.
    + destruct (getPrimaryKey_again (setPrimaryKey (fingerprint k) r) k)
        as (k' & Hcall & Hfpr); [by destruct r | by destruct r|].
      rewrite (getPrimaryKey_nth_fixed _ _ n Hcall). simpl. by rewrite Hfpr.
    + rewrite (getPrimaryKey_nth_fixed _ None n); [done|].
      rewrite getPrimaryKey_fallback by (left; by destruct r).
      replace (privateKeys (keystore (setPrimaryKey "" r)))
        with (privateKeys (keystore r)) by by destruct r.
      rewrite Hnewest. by destruct r.
Qed.

Lemma getPrimaryKey_spec_witness :
  getPrimaryKey (keyringOf [] [carol; dave] "c3")
  = (keyringOf [] [carol; dave] "c3", Some carol)
  ∧ newestValidKey [carol; dave] dave
  ∧ (getPrimaryKey (keyringOf [alice] [] "a1")).2 = None
  ∧ fingerprint <$> getPrimaryKey_nth 3 (keyringOf [] [carol; dave] "")
    = Some "d4".
Proof.
  destruct (getPrimaryKey_spec (keyringOf [] [carol; dave] "c3"))
    as (Hstored & _).
  destruct (getPrimaryKey_spec (keyringOf [] [carol; dave] ""))
    as (_ & Hfallback & _ & Hrepeat).
  destruct (getPrimaryKey_spec (keyringOf [alice] [] "a1"))
    as (_ & _ & Hnone & _).
  split; [|split; [|split]].
  - by apply (Hstored carol).
  - destruct (Hfallback (or_introl eq_refl)) as (Hnewest & _).
    by apply (Hnewest dave).
  - apply Hnone. intros k Hin. by apply elem_of_nil in Hin.
  - by rewrite (Hrepeat eq_refl 3%nat).
Defined.

(** ** Keys and collections *)

Lemma mergeNew_incl_l dest src x : x ∈ dest → x ∈ mergeNew dest src.
Proof.
  unfold mergeNew. revert dest. induction src as [|y src IH]; intros dest Hin; simpl; [done|].
  apply IH. case_decide; [done|]. apply elem_of_app. by left.
Qed.

Lemma mergeNew_incl_r dest src x : x ∈ src → x ∈ mergeNew dest src.
Proof.
  unfold mergeNew. revert dest. induction src as [|y src IH]; intros dest Hin; simpl.
  - by apply elem_of_nil in Hin.
  - apply elem_of_cons in Hin as [-> | Hin]; [|by apply IH].
    apply mergeNew_incl_l. case_decide; [done|].
    apply elem_of_app. right. by left.
Qed.

(** Merging what is already there changes nothing. *)
Lemma mergeNew_absorb dest src : src ⊆ dest → mergeNew dest src = dest.
Proof.
  unfold mergeNew. induction src as [|y src IH]; intros Hsub; simpl; [done|].
  rewrite decide_True by (apply Hsub; by left).
  apply IH. intros x Hx. apply Hsub. by right.
Qed.

Lemma update_fingerprint dest src : fingerprint (update dest src) = fingerprint dest.
Proof. done. Qed.

Lemma update_secret dest src : secret (update dest src) = secret dest.
Proof. done. Qed.

Lemma update_absorbs dest src : absorbs dest src → update dest src = dest.
Proof.
  intros [Hsub Hcert]. unfold update.
  rewrite !mergeNew_absorb by done. by destruct dest.
Qed.

Lemma absorbs_update dest src : absorbs (update dest src) src.
Proof. split; intros x Hx; simpl; by apply mergeNew_incl_r. Qed.

Lemma absorbs_refl k : absorbs k k.
Proof. by split. Qed.

Lemma absorbs_update_mono dest src other :
  absorbs dest src → absorbs (update dest other) src.
Proof.
  intros [Hsub Hcert]. split; intros x Hx; simpl; apply mergeNew_incl_l; auto.
Qed.

Lemma matchesId_fingerprint fpr deep k :
  matchesId (Fingerprint fpr) deep k = bool_decide (fingerprint k = fpr).
Proof. done. Qed.

Lemma filter_fingerprint_head keys fpr deep :
  head (List.filter (matchesId (Fingerprint fpr) deep) keys) = getForId keys fpr.
Proof.
  induction keys as [|k keys IH]; simpl; [done|].
  case_bool_decide; by rewrite ?decide_True, ?decide_False by done.
Qed.

Lemma getForId_is_Some keys fpr :
  is_Some (getForId keys fpr) ↔ fpr ∈ fingerprintsOf keys.
Proof.
  unfold fingerprintsOf. induction keys as [|k keys IH]; simpl.
  - split; [by intros [? ?] | by intros ?%elem_of_nil].
  - case_decide as Hk.
    + rewrite elem_of_cons. split; [by left | by eauto].
    + rewrite IH, elem_of_cons. naive_solver.
Qed.

Lemma getForId_None_iff keys fpr :
  getForId keys fpr = None ↔ fpr ∉ fingerprintsOf keys.
Proof. rewrite <- getForId_is_Some, eq_None_not_Some. done. Qed.

Lemma existsb_fingerprint keys fpr :
  existsb (matchesId (Fingerprint fpr) false) keys = true
  ↔ fpr ∈ fingerprintsOf keys.
Proof.
  unfold fingerprintsOf. induction keys as [|k keys IH]; simpl.
  - split; [done | by intros ?%elem_of_nil].
  - rewrite orb_true_iff, IH, bool_decide_eq_true, elem_of_cons. naive_solver.
Qed.

(** [getKeysForId] by fingerprint: the first public key of that
    fingerprint comes first, else the first private one. *)
Lemma getKeysForId_fingerprint ks fpr deep :
  getKeysForId ks (Fingerprint fpr) deep
  = match getForId (publicKeys ks) fpr, getForId (privateKeys ks) fpr with
    | Some k, _ =>
        Some (k :: tail (List.filter (matchesId (Fingerprint fpr) deep) (publicKeys ks))
                ++ List.filter (matchesId (Fingerprint fpr) deep) (privateKeys ks))
    | None, Some k =>
        Some (k :: tail (List.filter (matchesId (Fingerprint fpr) deep) (privateKeys ks)))
    | None, None => None
    end.
Proof.
  unfold getKeysForId.
  rewrite <- !(filter_fingerprint_head _ fpr deep).
  destruct (List.filter _ (publicKeys ks)) as [|k l]; simpl; [|done].
  by destruct (List.filter _ (privateKeys ks)).
Qed.

Lemma getKeysForId_None ks fpr deep :
  getKeysForId ks (Fingerprint fpr) deep = None ↔ ¬ holds ks fpr.
Proof.
  rewrite getKeysForId_fingerprint. unfold holds.
  rewrite <- !getForId_is_Some.
  destruct (getForId (publicKeys ks) fpr), (getForId (privateKeys ks) fpr);
    split; try done; try (intros Hn; destruct Hn; by eauto).
  by intros _ [[? ?]|[? ?]].
Qed.

Lemma updateFirst_fingerprints fpr src keys :
  fingerprintsOf (updateFirst fpr src keys) = fingerprintsOf keys.
Proof.
  unfold fingerprintsOf. induction keys as [|k keys IH]; csimpl; [done|].
  case_decide; csimpl; [done | by rewrite IH].
Qed.

Lemma removeForId_subseteq keys fpr x :
  x ∈ fingerprintsOf (removeForId keys fpr) → x ∈ fingerprintsOf keys.
Proof.
  unfold fingerprintsOf. induction keys as [|k keys IH]; csimpl; [done|].
  case_decide; csimpl.
  - intros ?. by right.
  - intros [-> | ?]%elem_of_cons; [by left | right; auto].
Qed.

Lemma removeForId_other keys fpr x :
  x ≠ fpr → x ∈ fingerprintsOf keys → x ∈ fingerprintsOf (removeForId keys fpr).
Proof.
  unfold fingerprintsOf. intros Hne. induction keys as [|k keys IH]; csimpl; [done|].
  case_decide; csimpl.
  - intros [-> | ?]%elem_of_cons; [congruence | done].
  - intros [-> | ?]%elem_of_cons; [by left | right; auto].
Qed.

Lemma removeForId_gone keys fpr :
  NoDup (fingerprintsOf keys) → fpr ∉ fingerprintsOf (removeForId keys fpr).
Proof.
  unfold fingerprintsOf. induction keys as [|k keys IH]; csimpl; intros Hnd.
  - by intros ?%elem_of_nil.
  - apply NoDup_cons in Hnd as [Hk Hnd]. case_decide as Heq; csimpl.
    + by rewrite <- Heq.
    + intros [? | ?]%elem_of_cons; [congruence | by apply IH].
Qed.

Lemma removeForId_absent keys fpr :
  fpr ∉ fingerprintsOf keys → removeForId keys fpr = keys.
Proof.
  unfold fingerprintsOf. induction keys as [|k keys IH]; csimpl; intros Hnot; [done|].
  apply not_elem_of_cons in Hnot as [Hne Hnot].
  rewrite decide_False by done. f_equal. by apply IH.
Qed.

(** ** Import *)

(** The exception of the update leaves [importPrivateKey] before the key
    store is touched: nothing is promoted. *)
Lemma importPrivateKey_body_update_throws privKey pubKey r e :
  checkKeyId privKey (keystore r) = None →
  getForId (publicKeys (keystore r)) (fingerprint privKey) = Some pubKey →
  isPublic pubKey = true →
  updateThrows privKey pubKey = Some e →
  importPrivateKey_body privKey r = inl e.
Proof.
  intros Hcheck Hpub Hpublic Hthrows. unfold importPrivateKey_body.
  rewrite Hcheck, getKeysForId_fingerprint, Hpub. by rewrite Hpublic, Hthrows.
Qed.

(** C7 (as amended).  When the callback of [importPrivateKey] gets a
    private key whose fingerprint is held by a public key of the public
    collection, and the candidate passes the key-id check and the engine
    merges the stored key into it (the engine does not find the stored key
    invalid, and the candidate has a subkey or the stored key has none),
    then it promotes the entry: the first key of the fingerprint is removed
    from the public collection, the private key, with the certifications of
    the public key merged in, is appended to the private collection, and an
    UPDATE entry is recorded in the change log.  Afterwards the fingerprint
    is present in the private collection, and absent from the public one
    when the public collection held it once.  A candidate that the key-id
    check rejects is not promoted: the callback throws and leaves the
    keyring as it was. *)
Theorem importPrivateKey_promotes (privKey pubKey : Key) (r : Keyring) :
  let ks := keystore r in
  let fpr := fingerprint privKey in
  let merged := update privKey pubKey in
  getForId (publicKeys ks) fpr = Some pubKey →
  isPublic pubKey = true →
  (checkKeyId privKey ks = None →
   status pubKey ≠ invalid →
   updateThrows privKey pubKey = None →
   ∃ r',
     importPrivateKey_body privKey r
     = inr (r', mkResult success (key_import_private_exists merged))
     ∧ (∀ armored, readArmored armored = mkRead [privKey] None →
          importPrivateKey armored r
          = (r', inr [mkResult success (key_import_private_exists merged)]))
     ∧ (publicKeys (keystore r') = removeForId (publicKeys ks) fpr)
     ∧ privateKeys (keystore r') = privateKeys ks ++ [merged]
     ∧ sync r' = <[fpr := mkEntry UPDATE (clock r)]> (sync r)
     ∧ fingerprint merged = fpr
     ∧ secret merged = secret privKey
     ∧ certifications pubKey ⊆ certifications merged
     ∧ certifications privKey ⊆ certifications merged
     ∧ fpr ∈ fingerprintsOf (privateKeys (keystore r'))
     ∧ (NoDup (fingerprintsOf (publicKeys ks)) →
        fpr ∉ fingerprintsOf (publicKeys (keystore r'))))
  ∧ (∀ e, checkKeyId privKey ks = Some e →
       importPrivateKey_body privKey r = inl e
       ∧ ∀ armored, readArmored armored = mkRead [privKey] None →
           importPrivateKey armored r = (r, inl e)).
Proof.
  intros ks fpr merged Hpub Hpublic. split.
  - intros Hcheck _ Hmerges.
    assert (importPrivateKey_body privKey r
            = inr (sync_add fpr UPDATE
                     (setKeystore r (mkKeyStore (removeForId (publicKeys ks) fpr)
                                                (privateKeys ks ++ [merged]))),
                   mkResult success (key_import_private_exists merged))) as Hbody.
    { unfold importPrivateKey_body. fold ks fpr. rewrite Hcheck.
      rewrite getKeysForId_fingerprint, Hpub. by rewrite Hpublic, Hmerges. }
    eexists. split; [apply Hbody|].
    split; [|do 5 (split; [done|]); split; [|split; [|split]]].
    + intros armored Hread. unfold importPrivateKey. rewrite Hread. simpl.
      by rewrite Hbody.
    + intros x Hx. by apply mergeNew_incl_r.
    + intros x Hx. by apply mergeNew_incl_l.
    + simpl. unfold fingerprintsOf. rewrite fmap_app. apply elem_of_app. right.
      by left.
    + intros Hnd. simpl. by apply removeForId_gone.
  - intros e Hcheck.
    assert (importPrivateKey_body privKey r = inl e) as Hbody.
    { unfold importPrivateKey_body. fold ks. by rewrite Hcheck. }
    split; [done|]. intros armored Hread.
    unfold importPrivateKey. rewrite Hread. simpl. by rewrite Hbody.
Qed.

Lemma importPrivateKey_promotes_witness :
  let r := keyringOf [toPublic carol; alice] [dave] "d4" in
  ∃ r', importPrivateKey (armor carol) r
        = (r', inr [mkResult success (key_import_private_exists carol)])
        ∧ publicKeys (keystore r') = [alice]
        ∧ privateKeys (keystore r') = [dave; carol]
        ∧ sync r' !! "c3" = Some (mkEntry UPDATE 1000).
Proof.
  intros r.
  destruct (importPrivateKey_promotes carol (toPublic carol) r)
    as [Hpromotes _]; [reflexivity|reflexivity|].
  destruct Hpromotes as (r' & _ & Himport & Hpub & Hpriv & Hsync & _);
    [reflexivity|discriminate|reflexivity|].
  exists r'. split; [by apply Himport|].
  rewrite Hpub, Hpriv, Hsync. by repeat split.
Defined.

(** C7, as stated, fails.  The candidate [carol] is a private key whose
    fingerprint the key store holds as a public key only, but the key store
    also holds a key whose primary key id is the id of a subkey of [carol]:
    the key-id check rejects the candidate, the import reports an error,
    and [carol] stays in the public collection and out of the private one.
    The candidate [judy] passes the key-id check, but it has no subkey
    while the public key that the key store holds for its fingerprint has
    one: the update throws, the import reports an error, and the key stays
    public. *)
Lemma importPrivateKey_rejected_not_promoted :
  (let r := keyringOf [grace; toPublic carol] [] "" in
   getForId (publicKeys (keystore r)) (fingerprint carol) = Some (toPublic carol)
   ∧ (fingerprint carol ∉ fingerprintsOf (privateKeys (keystore r)))
   ∧ isPrivate carol = true
   ∧ importPrivateKey (armor carol) r
     = (r, inl "Sub keyId equals existing primary keyId.")
   ∧ importKeys [mkCandidate private (armor carol)] r
     = (r, [mkResult error
              (key_import_unable "Sub keyId equals existing primary keyId.")]))
  ∧ (let r := keyringOf [judyPublic] [] "" in
     getForId (publicKeys (keystore r)) (fingerprint judy) = Some judyPublic
     ∧ (fingerprint judy ∉ fingerprintsOf (privateKeys (keystore r)))
     ∧ isPrivate judy = true
     ∧ checkKeyId judy (keystore r) = None
     ∧ importKeys [mkCandidate private (armor judy)] r
       = (r, [mkResult error
                (key_import_unable
                   "TypeError: Cannot read property 'length' of null")])).
Proof.
  split.
  - intros r. split; [done|]. split; [by intros ?%elem_of_nil|].
    split; [done|]. split; by vm_compute.
  - intros r. split; [done|]. split; [by intros ?%elem_of_nil|].
    split; [done|]. split; by vm_compute.
Qed.

Lemma sameOutside_refl r : sameOutside r r.
Proof. by repeat split. Qed.

Lemma sameOutside_trans r1 r2 r3 :
  sameOutside r1 r2 → sameOutside r2 r3 → sameOutside r1 r3.
Proof. unfold sameOutside. intros (?&?&?&?&?) (?&?&?&?&?). repeat split; congruence. Qed.

Lemma importPublicKey_body_frame k r r' m :
  importPublicKey_body k r = inr (r', m) → sameOutside r r'.
Proof.
  unfold importPublicKey_body. destruct (checkKeyId _ _); [done|].
  destruct (getKeysForId _ _ _); intros [= <- <-]; by repeat split.
Qed.

Lemma importPrivateKey_body_frame k r r' m :
  importPrivateKey_body k r = inr (r', m) → sameOutside r r'.
Proof.
  unfold importPrivateKey_body. destruct (checkKeyId _ _); [done|].
  destruct (getKeysForId _ _ _) as [[|key ?]|];
    [| destruct (isPublic key); [destruct (updateThrows k key); [done|]|] |];
    intros [= <- <-]; by repeat split.
Qed.

Lemma forEachKey_frame body keys r result :
  (∀ k r r' m, body k r = inr (r', m) → sameOutside r r') →
  sameOutside r (forEachKey body keys r result).1.
Proof.
  intros Hbody. revert r result.
  induction keys as [|k keys IH]; intros r result; simpl.
  - apply sameOutside_refl.
  - destruct (body k r) as [e|[r' m]] eqn:Hk; simpl; [apply sameOutside_refl|].
    eapply sameOutside_trans; [by eapply Hbody | apply IH].
Qed.

Lemma importOne_frame acc c : sameOutside acc.1 (importOne acc c).1.
Proof.
  destruct acc as [r result]. unfold importOne. simpl.
  destruct (c_type c).
  - pose proof (forEachKey_frame importPublicKey_body
                  (keys (readArmored (c_armored c))) r
                  (match err (readArmored (c_armored c)) with
                   | Some errors => map (λ e, mkResult error (key_import_public_read e)) errors
                   | None => []
                   end) importPublicKey_body_frame) as Hframe.
    unfold importPublicKey.
    destruct (forEachKey _ _ _ _) as [r' [e|res]]; done.
  - pose proof (forEachKey_frame importPrivateKey_body
                  (keys (readArmored (c_armored c))) r
                  (match err (readArmored (c_armored c)) with
                   | Some errors => map (λ e, mkResult error (key_import_private_read e)) errors
                   | None => []
                   end) importPrivateKey_body_frame) as Hframe.
    unfold importPrivateKey.
    destruct (forEachKey _ _ _ _) as [r' [e|res]]; done.
Qed.

Lemma importLoop_frame cs acc : sameOutside acc.1 (foldl importOne acc cs).1.
Proof.
  revert acc. induction cs as [|c cs IH]; intros acc; simpl.
  - apply sameOutside_refl.
  - eapply sameOutside_trans; [apply importOne_frame | apply IH].
Qed.

(** The results of a candidate are appended to those of the earlier ones. *)
Lemma forEachKey_results body keys r result :
  match (forEachKey body keys r result).2 with
  | inr result' => ∃ new, result' = result ++ new
  | inl _ => True
  end.
Proof.
  revert r result. induction keys as [|k keys IH]; intros r result; simpl.
  - exists []. by rewrite app_nil_r.
  - destruct (body k r) as [e|[r' m]]; simpl; [done|].
    specialize (IH r' (result ++ [m])).
    destruct (forEachKey body keys r' (result ++ [m])).2; [done|].
    destruct IH as [new ->]. exists (m :: new). by rewrite <- app_assoc.
Qed.

Lemma importOne_appends acc c :
  ∃ new, (importOne acc c).2 = acc.2 ++ new.
Proof.
  destruct acc as [r result]. unfold importOne. simpl.
  destruct (c_type c).
  - destruct (importPublicKey (c_armored c) r) as [r' [e|res]]; simpl; by eauto.
  - destruct (importPrivateKey (c_armored c) r) as [r' [e|res]]; simpl; by eauto.
Qed.


Lemma holds_updateInStore fpr src ks f :
  holds (updateInStore fpr src ks) f ↔ holds ks f.
Proof.
  unfold holds, updateInStore.
  destruct (existsb _ _); simpl; by rewrite updateFirst_fingerprints.
Qed.


Lemma importPublicKey_single a k r :
  readArmored a = mkRead [k] None →
  importPublicKey a r
  = match importPublicKey_body k r with
    | inl e => (r, inl e)
    | inr (r', m) => (r', inr [m])
    end.
Proof.
  intros Hread. unfold importPublicKey. rewrite Hread. simpl.
  by destruct (importPublicKey_body k r) as [e|[r' m]].
Qed.

Lemma importKeys_result armoredKeys r :
  (importKeys armoredKeys r).2 = (importAll armoredKeys r).2
  ∧ keystore (importKeys armoredKeys r).1 = keystore (importAll armoredKeys r).1.
Proof.
  unfold importKeys. destruct (importAll armoredKeys r) as [r' result]. simpl.
  destruct (existsb isSuccess result); simpl; [|done].
  destruct (privateKeys (keystore r')); simpl; [done|].
  by destruct (hasPrimaryKey _).
Qed.



(** C6 (as amended).  After [importKeys] has processed all candidates: if no
    result is a success, the result list is returned and neither the storage
    records of the key store nor the change log durably recorded nor the
    primary-key attribute change; if some result is a success, both
    collections are written to storage, the pending change log is committed,
    and, when the keyring has no primary key while it owns a private key, the
    first key of its private collection becomes the primary key. *)
Theorem importKeys_persists (armoredKeys : list Candidate) (r : Keyring) :
  let r1 := (importAll armoredKeys r).1 in
  let result := (importAll armoredKeys r).2 in
  let r' := (importKeys armoredKeys r).1 in
  (importKeys armoredKeys r).2 = result
  ∧ (existsb isSuccess result = false →
     r' = r1
     ∧ storedPublic r' = storedPublic r ∧ storedPrivate r' = storedPrivate r
     ∧ committed r' = committed r ∧ primary_key r' = primary_key r)
  ∧ (existsb isSuccess result = true →
     keystore r' = keystore r1
     ∧ storedPublic r' = map armor (publicKeys (keystore r1))
     ∧ storedPrivate r' = map armor (privateKeys (keystore r1))
     ∧ sync r' = ∅
     ∧ committed r' = sync r1 ∪ committed r
     ∧ primary_key r'
       = if hasPrimaryKey r then primary_key r
         else match privateKeys (keystore r1) with
              | first :: _ => fingerprint first
              | [] => primary_key r
              end).
Proof.
  intros r1 result r'. subst r1 result r'.
  pose proof (importLoop_frame (sortPublicFirst armoredKeys) (r, []))
    as (Hprimary & Hcommitted & Hpub & Hpriv & _).
  fold (importAll armoredKeys r) in *. simpl in *.
  unfold importKeys. destruct (importAll armoredKeys r) as [r1 result]. simpl in *.
  split; [|split].
  - destruct (existsb isSuccess result); simpl; [|done].
    destruct (privateKeys (keystore r1)); [done|].
    unfold hasPrimaryKey. by simpl.
  - intros ->. by simpl.
  - intros ->. simpl. unfold hasPrimaryKey. simpl. rewrite Hprimary.
    destruct (privateKeys (keystore r1)) as [|first rest] eqn:Hprivs; simpl.
    + rewrite Hprimary, Hcommitted, ?Hprivs. repeat split; try done.
      by destruct (bool_decide (primary_key r = "")).
    + destruct (bool_decide (primary_key r = "")); simpl;
        rewrite ?Hprimary, Hcommitted, ?Hprivs; by repeat split.
Qed.

Lemma importKeys_persists_witness :
  let r := keyringOf [] [] "" in
  storedPrivate (importKeys [mkCandidate private (armor carol)] r).1 = [armor carol]
  ∧ primary_key (importKeys [mkCandidate private (armor carol)] r).1 = "c3"
  ∧ storedPublic (importKeys [mkCandidate public [Malformed "x"]] r).1 = [].
Proof.
  intros r.
  destruct (importKeys_persists [mkCandidate private (armor carol)] r)
    as (_ & _ & Hsome).
  destruct (importKeys_persists [mkCandidate public [Malformed "x"]] r)
    as (_ & Hnone & _).
  destruct (Hsome eq_refl) as (_ & _ & -> & _ & _ & ->).
  destruct (Hnone eq_refl) as (_ & -> & _).
  by repeat split.
Defined.

(** C6, as stated, fails: the primary key selected is the first key of the
    private collection, here a key that the keyring owned before the import,
    and not the private key that the import brought. *)
Lemma importKeys_primary_not_newly_imported :
  let r := keyringOf [] [carol] "" in
  let r' := (importKeys [mkCandidate private (armor dave)] r).1 in
  hasPrimaryKey r = false
  ∧ (importKeys [mkCandidate private (armor dave)] r).2
    = [mkResult success (key_import_private_success dave)]
  ∧ privateKeys (keystore r) = [carol]
  ∧ privateKeys (keystore r') = [carol; dave]
  ∧ primary_key r' = fingerprint carol
  ∧ primary_key r' ≠ fingerprint dave.
Proof. by repeat split. Qed.

(** ** Backup and restore *)

Lemma backupStructure_true message :
  backupStructure message = true
  ↔ ∃ encrypted p1,
      message = [SymEncryptedSessionKey "aes256" encrypted; p1] ∧ tag p1 = 18.
Proof.
  split.
  - destruct message as [|p0 [|p1 [|? ?]]]; try done. simpl.
    destruct p0 as [alg [enc|]| | | | | |]; simpl;
      rewrite ?andb_false_r; try done.
    + rewrite andb_true_iff, bool_decide_eq_true, Z.eqb_eq.
      intros [Halg Htag]. simplify_eq. by exists (Some enc), p1.
    + rewrite !andb_true_iff, bool_decide_eq_true, Z.eqb_eq.
      intros [[Halg _] Htag]. simplify_eq. by exists None, p1.
  - intros (enc & p1 & -> & Htag). unfold backupStructure.
    rewrite Htag. by destruct enc.
Qed.

Lemma specBackupStructure_accepted message :
  specBackupStructure message → backupStructure message = true.
Proof.
  intros (p1 & -> & Htag). apply backupStructure_true.
  exists None, p1. by eauto.
Qed.

Lemma backupStructure_toPacketlist k rest :
  backupStructure (toPacketlist k ++ rest) = false.
Proof.
  unfold toPacketlist. rewrite <- app_comm_cons.
  destruct ((map UserIdPacket _ ++ map SubkeyPacket _) ++ rest) as [|p1 [|? ?]];
    try done.
  simpl. by destruct (isPublic _).
Qed.

(** C8 (as amended).  [restorePrivateKeyBackup] validates the structure of
    the message before any decryption: a message that the engine reads must
    have exactly two packets, a symmetric-key-encrypted-session-key packet
    whose algorithm octet names aes256, followed by a packet with the tag of
    integrity-protected encrypted data.  The octet names the cipher of the
    session key when the packet carries no encrypted session key, and the
    cipher that wraps the session key when it carries one; the cipher of a
    wrapped session key is not examined.  Every other message, a key block
    included, is rejected as malformed without a call to the decryption; a
    text that the engine cannot read fails with the error of the engine,
    also without a call to the decryption.  A message of that structure
    which the code does not open is rejected with the error of a wrong
    restore code, which differs from the error of a malformed backup. *)
Theorem restorePrivateKeyBackup_structure (armoredBlock : Armored)
    (code : string) :
  (∀ message,
     message_readArmored armoredBlock = Some message →
     (backupStructure message = true
      ↔ ∃ encrypted p1,
          message = [SymEncryptedSessionKey "aes256" encrypted; p1]
          ∧ tag p1 = 18)
     ∧ (backupStructure message = false →
        restorePrivateKeyBackup armoredBlock code
        = ([CallReadArmored], inl MalformedBackup))
     ∧ (backupStructure message = true →
        (restorePrivateKeyBackup armoredBlock code).1
        = [CallReadArmored; CallDecrypt code])
     ∧ (backupStructure message = true →
        message_decrypt message code = None →
        (restorePrivateKeyBackup armoredBlock code).2 = inl WrongRestoreCode))
  ∧ (message_readArmored armoredBlock = None →
     restorePrivateKeyBackup armoredBlock code
     = ([CallReadArmored], inl ArmorParseError))
  ∧ (∀ k, armoredBlock = armor k →
       restorePrivateKeyBackup armoredBlock code
       = ([CallReadArmored], inl MalformedBackup))
  ∧ (∀ key pwd backupCode,
       armoredBlock = (createPrivateKeyBackup key pwd backupCode).2 →
       code ≠ backupCode →
       (restorePrivateKeyBackup armoredBlock code).2 = inl WrongRestoreCode)
  ∧ WrongRestoreCode ≠ MalformedBackup.
Proof.
  split; [|split; [|split; [|split; [|done]]]].
  - intros message Hread. split; [apply backupStructure_true|].
    unfold restorePrivateKeyBackup. rewrite Hread.
    split; [by intros ->|]. split.
    + intros ->. simpl.
      destruct (message_decrypt message code) as [m|]; [|done].
      destruct (getText m); [|done]. by destruct (Key_fromPackets _).
    + by intros -> ->.
  - intros Hread. unfold restorePrivateKeyBackup. by rewrite Hread.
  - intros k ->. unfold restorePrivateKeyBackup, armor, message_readArmored.
    cbn [packetsOf fmap option_fmap option_map].
    by rewrite backupStructure_toPacketlist.
  - intros key pwd backupCode -> Hcode.
    unfold restorePrivateKeyBackup, createPrivateKeyBackup. simpl.
    by rewrite decide_False by done.
Qed.

Lemma restorePrivateKeyBackup_structure_witness :
  restorePrivateKeyBackup (armor carol) "ABCDEFGHIJKLMNOPQRSTUVWXYZ"
  = ([CallReadArmored], inl MalformedBackup)
  ∧ restorePrivateKeyBackup
      (message_armor [Literal "Version: 1"; KeyPacket carol]) "ABCDEFGHIJKLMNOPQRSTUVWXYZ"
    = ([CallReadArmored], inl MalformedBackup)
  ∧ (restorePrivateKeyBackup
       (createPrivateKeyBackup carol "pw" "ABCDEFGHIJKLMNOPQRSTUVWXYZ").2
       "ZYXWVUTSRQPONMLKJIHGFEDCBA").2
    = inl WrongRestoreCode.
Proof.
  split; [|split].
  - destruct (restorePrivateKeyBackup_structure
                (armor carol) "ABCDEFGHIJKLMNOPQRSTUVWXYZ")
      as (_ & _ & Hkey & _).
    by apply (Hkey carol).
  - destruct (restorePrivateKeyBackup_structure
                (message_armor [Literal "Version: 1"; KeyPacket carol])
                "ABCDEFGHIJKLMNOPQRSTUVWXYZ")
      as (Hread & _).
    destruct (Hread [Literal "Version: 1"; KeyPacket carol])
      as (_ & Hmalformed & _); [reflexivity|].
    by apply Hmalformed.
  - destruct (restorePrivateKeyBackup_structure
                (createPrivateKeyBackup carol "pw" "ABCDEFGHIJKLMNOPQRSTUVWXYZ").2
                "ZYXWVUTSRQPONMLKJIHGFEDCBA")
      as (_ & _ & _ & Hwrong & _).
    by apply (Hwrong carol "pw" "ABCDEFGHIJKLMNOPQRSTUVWXYZ").
Defined.

(** C8, as stated, fails: a message whose session-key packet wraps a
    session key for another cipher deviates from the structure that the
    claim describes, and yet it is not rejected as malformed: the decryption
    is called and the backup is restored. *)
Lemma restorePrivateKeyBackup_accepts_wrapped_session_key :
  ¬ specBackupStructure wrappedBackup
  ∧ restorePrivateKeyBackup (message_armor wrappedBackup) "ABCDEFGHIJKLMNOPQRSTUVWXYZ"
    = ([CallReadArmored; CallDecrypt "ABCDEFGHIJKLMNOPQRSTUVWXYZ"],
       inr (mkRestored carol (Some "pw"))).
Proof.
  split; [|by vm_compute].
  intros (p1 & Heq & _). discriminate Heq.
Qed.

Lemma omap_subkeys certs subs :
  omap (λ q, match q with SubkeyPacket i => Some i | _ => None end)
       (map UserIdPacket certs ++ map SubkeyPacket subs) = subs.
Proof.
  induction certs as [|c certs IH]; csimpl; [|done].
  induction subs as [|i subs IH]; csimpl; [done | by f_equal].
Qed.

Lemma omap_userIds certs subs :
  omap (λ q, match q with UserIdPacket c => Some c | _ => None end)
       (map UserIdPacket certs ++ map SubkeyPacket subs) = certs.
Proof.
  induction certs as [|c certs IH]; csimpl; [|by f_equal].
  induction subs as [|i subs IH]; csimpl; done.
Qed.

Lemma Key_fromPackets_toPacketlist k : Key_fromPackets (toPacketlist k) = Some k.
Proof.
  unfold Key_fromPackets, toPacketlist. simpl.
  rewrite omap_subkeys, omap_userIds. by destruct k.
Qed.

Lemma removeCR_plain pwd tail :
  plainPassphrase pwd = true →
  removeCR (pwd ++ tail)%string = (pwd ++ removeCR tail)%string.
Proof.
  induction pwd as [|c pwd IH]; simpl; [done|].
  rewrite !andb_true_iff, !negb_true_iff. intros [[[Hcr _] _] Hplain].
  by rewrite Hcr, IH.
Qed.

Lemma splitLines_plain pwd tail :
  plainPassphrase pwd = true →
  splitLines (pwd ++ String LF tail)%string = pwd :: splitLines tail.
Proof.
  induction pwd as [|c pwd IH]; simpl; [done|].
  rewrite !andb_true_iff, !negb_true_iff. intros [[[_ Hlf] _] Hplain].
  by rewrite Hlf, IH.
Qed.

Lemma splitColonSpace_plain pwd :
  plainPassphrase pwd = true → splitColonSpace pwd = [pwd].
Proof.
  induction pwd as [|c pwd IH]; [done|].
  cbn [plainPassphrase splitColonSpace].
  rewrite !andb_true_iff, !negb_true_iff. intros [[_ Hsep] Hplain].
  destruct pwd as [|d pwd]; [done|]. by rewrite Hsep, IH.
Qed.

(** The preamble of a backup gives back a plain passphrase. *)
Lemma parseMetaInfo_plain pwd :
  plainPassphrase pwd = true →
  parseMetaInfo (("Version: 1" ++ String LF "") ++ "Pwd: " ++ pwd ++ String LF "")%string
    !! "Pwd" = Some (Some pwd).
Proof.
  intros Hplain. unfold parseMetaInfo.
  change (removeCR (("Version: 1" ++ String LF "") ++ "Pwd: " ++ pwd ++ String LF "")%string)
    with ("Version: 1" ++ String LF ("Pwd: " ++ removeCR (pwd ++ String LF "")))%string.
  rewrite removeCR_plain by done.
  change (splitLines ("Version: 1" ++ String LF ("Pwd: " ++ pwd ++ removeCR (String LF "")))%string)
    with ("Version: 1"
          :: consHead "P" (consHead "w" (consHead "d" (consHead ":" (consHead " "
               (splitLines (pwd ++ String LF "")%string)))))).
  rewrite splitLines_plain by done.
  change (consHead "P" (consHead "w" (consHead "d" (consHead ":" (consHead " "
            (pwd :: splitLines ""))))))
    with [("Pwd: " ++ pwd)%string; ""].
  match goal with |- foldl ?f _ _ !! _ = _ => set (step := f) end.
  assert (∀ m, step m "" = m) as Hempty by done.
  assert (∀ m, step m ("Pwd: " ++ pwd)%string = <["Pwd" := Some pwd]> m) as Hpwd.
  { intros m. unfold step.
    change (splitColonSpace ("Pwd: " ++ pwd)%string)
      with (consHead "P" (consHead "w" (consHead "d" (EmptyString :: splitColonSpace pwd)))).
    by rewrite splitColonSpace_plain. }
  change (foldl step ∅ ["Version: 1"; ("Pwd: " ++ pwd)%string; ""])
    with (step (step (step ∅ "Version: 1") ("Pwd: " ++ pwd)%string) "").
  by rewrite Hempty, Hpwd, lookup_insert_eq.
Qed.

Lemma restore_create key pwd backupCode :
  restorePrivateKeyBackup (createPrivateKeyBackup key pwd backupCode).2
                          (createPrivateKeyBackup key pwd backupCode).1
  = ([CallReadArmored; CallDecrypt backupCode],
     inr (mkRestored key
            (mjoin (parseMetaInfo
                      (("Version: 1" ++ String LF "") ++ "Pwd: " ++ pwd ++ String LF "")%string
                    !! "Pwd")))).
Proof.
  pose proof (Key_fromPackets_toPacketlist key) as Hkey.
  unfold restorePrivateKeyBackup, createPrivateKeyBackup.
  remember (toPacketlist key) as keyPackets. simpl.
  rewrite decide_True by done. simpl.
  change (drop 0 keyPackets) with keyPackets. by rewrite Hkey.
Qed.

(** C9, on the code.  Restoring a backup with the code of its creation
    always recovers the key, and with it its fingerprint.  The passphrase it
    returns is the value that [parseMetaInfo] reads for [Pwd]: it is the
    original passphrase when that has no line break and no colon followed by
    white space, but for the passphrase "a: b" it is "a". *)
Theorem restorePrivateKeyBackup_password_truncated :
  (∀ key pwd backupCode,
     ∃ pwd', restorePrivateKeyBackup
               (createPrivateKeyBackup key pwd backupCode).2
               (createPrivateKeyBackup key pwd backupCode).1
             = ([CallReadArmored; CallDecrypt backupCode],
                inr (mkRestored key pwd')))
  ∧ (∀ key pwd backupCode,
       plainPassphrase pwd = true →
       restorePrivateKeyBackup
         (createPrivateKeyBackup key pwd backupCode).2
         (createPrivateKeyBackup key pwd backupCode).1
       = ([CallReadArmored; CallDecrypt backupCode],
          inr (mkRestored key (Some pwd))))
  ∧ plainPassphrase "a: b" = false
  ∧ restorePrivateKeyBackup
      (createPrivateKeyBackup carol "a: b" "ABCDEFGHIJKLMNOPQRSTUVWXYZ").2
      (createPrivateKeyBackup carol "a: b" "ABCDEFGHIJKLMNOPQRSTUVWXYZ").1
    = ([CallReadArmored; CallDecrypt "ABCDEFGHIJKLMNOPQRSTUVWXYZ"],
       inr (mkRestored carol (Some "a"))).
Proof.
  split; [|split; [|split; by vm_compute]].
  - intros key pwd backupCode. eexists. apply restore_create.
  - intros key pwd backupCode Hplain.
    by rewrite restore_create, parseMetaInfo_plain.
Qed.

Lemma restorePrivateKeyBackup_password_truncated_witness :
  restorePrivateKeyBackup
    (createPrivateKeyBackup carol "hunter2: x" "ABCDEFGHIJKLMNOPQRSTUVWXYZ").2
    (createPrivateKeyBackup carol "hunter2: x" "ABCDEFGHIJKLMNOPQRSTUVWXYZ").1
  = ([CallReadArmored; CallDecrypt "ABCDEFGHIJKLMNOPQRSTUVWXYZ"],
     inr (mkRestored carol (Some "hunter2")))
  ∧ restorePrivateKeyBackup
      (createPrivateKeyBackup carol "hunter2" "ABCDEFGHIJKLMNOPQRSTUVWXYZ").2
      (createPrivateKeyBackup carol "hunter2" "ABCDEFGHIJKLMNOPQRSTUVWXYZ").1
    = ([CallReadArmored; CallDecrypt "ABCDEFGHIJKLMNOPQRSTUVWXYZ"],
       inr (mkRestored carol (Some "hunter2"))).
Proof.
  split; [by vm_compute|].
  destruct restorePrivateKeyBackup_password_truncated as (_ & Hplain & _).
  by apply (Hplain carol "hunter2" "ABCDEFGHIJKLMNOPQRSTUVWXYZ").
Defined.

(** ** An import that is repeated *)

Lemma getForId_app l1 l2 fpr :
  getForId (l1 ++ l2) fpr
  = match getForId l1 fpr with Some k => Some k | None => getForId l2 fpr end.
Proof. induction l1 as [|k l1 IH]; simpl; [done|]. by case_decide. Qed.

Lemma getForId_updateFirst_eq fpr src l :
  getForId (updateFirst fpr src l) fpr = (λ k, update k src) <$> getForId l fpr.
Proof.
  induction l as [|k l IH]; simpl; [done|].
  case_decide; simpl; by rewrite ?decide_True, ?decide_False by done.
Qed.

Lemma getForId_updateFirst_ne fpr src l f :
  f ≠ fpr → getForId (updateFirst fpr src l) f = getForId l f.
Proof.
  intros Hne. induction l as [|k l IH]; simpl; [done|].
  case_decide as Hk; simpl.
  - by rewrite !decide_False by congruence.
  - case_decide; [done | apply IH].
Qed.

Lemma updateFirst_absorbs fpr src l k' :
  getForId l fpr = Some k' → absorbs k' src → updateFirst fpr src l = l.
Proof.
  intros Hget Habs. induction l as [|k l IH]; simpl in *; [done|].
  case_decide.
  - simplify_eq. by rewrite update_absorbs.
  - f_equal. by apply IH.
Qed.

Lemma updateFirst_absent fpr src l :
  getForId l fpr = None → updateFirst fpr src l = l.
Proof.
  intros Hget. induction l as [|k l IH]; simpl in *; [done|].
  case_decide; [done|]. f_equal. by apply IH.
Qed.

Lemma firstMatch_holds ks fpr : is_Some (firstMatch ks fpr) ↔ holds ks fpr.
Proof.
  unfold firstMatch, holds. rewrite <- !getForId_is_Some.
  destruct (getForId (publicKeys ks) fpr); [|naive_solver].
  split; [by left | by eauto].
Qed.

Lemma existsb_getForId keys fpr :
  existsb (matchesId (Fingerprint fpr) false) keys
  = bool_decide (is_Some (getForId keys fpr)).
Proof.
  apply eq_true_iff_eq. by rewrite existsb_fingerprint, bool_decide_eq_true, getForId_is_Some.
Qed.

(** [absorbPublic] by cases on the first match. *)
Lemma absorbPublic_cases k ks :
  absorbPublic k ks
  = match getForId (publicKeys ks) (fingerprint k),
          getForId (privateKeys ks) (fingerprint k) with
    | Some _, _ =>
        mkKeyStore (updateFirst (fingerprint k) k (publicKeys ks)) (privateKeys ks)
    | None, Some _ =>
        mkKeyStore (publicKeys ks) (updateFirst (fingerprint k) k (privateKeys ks))
    | None, None => mkKeyStore (publicKeys ks ++ [k]) (privateKeys ks)
    end.
Proof.
  unfold absorbPublic, updateInStore.
  rewrite getKeysForId_fingerprint, existsb_getForId.
  destruct (getForId (publicKeys ks) _) eqn:Hpub; simpl; [done|].
  by destruct (getForId (privateKeys ks) _).
Qed.

Lemma settled_absorbPublic k ks : settled ks k → absorbPublic k ks = ks.
Proof.
  intros (k' & Hfirst & Habs). rewrite absorbPublic_cases.
  unfold firstMatch in Hfirst.
  destruct (getForId (publicKeys ks) _) eqn:Hpub.
  - simplify_eq. rewrite (updateFirst_absorbs _ _ _ k') by done. by destruct ks.
  - rewrite Hfirst, (updateFirst_absorbs _ _ _ k') by done. by destruct ks.
Qed.

Lemma absorbPublic_settles k ks : settled (absorbPublic k ks) k.
Proof.
  rewrite absorbPublic_cases. unfold settled, firstMatch.
  destruct (getForId (publicKeys ks) _) as [k0|] eqn:Hpub; simpl.
  - rewrite getForId_updateFirst_eq, Hpub. simpl. eexists. split; [done|].
    apply absorbs_update.
  - destruct (getForId (privateKeys ks) _) as [k0|] eqn:Hpriv; simpl.
    + rewrite Hpub, getForId_updateFirst_eq, Hpriv. simpl. eexists. split; [done|].
      apply absorbs_update.
    + rewrite getForId_app, Hpub. simpl. rewrite decide_True by done.
      eexists. split; [done|]. apply absorbs_refl.
Qed.

Lemma firstMatch_absorbPublic_ne k ks f :
  f ≠ fingerprint k → is_Some (firstMatch ks f) →
  firstMatch (absorbPublic k ks) f = firstMatch ks f.
Proof.
  intros Hne Hsome. rewrite absorbPublic_cases. unfold firstMatch in *.
  destruct (getForId (publicKeys ks) (fingerprint k)) eqn:Hpub; simpl.
  - by rewrite getForId_updateFirst_ne.
  - destruct (getForId (privateKeys ks) (fingerprint k)) eqn:Hpriv; simpl.
    + by rewrite getForId_updateFirst_ne.
    + rewrite getForId_app. destruct (getForId (publicKeys ks) f); [done|].
      simpl. by rewrite decide_False by done.
Qed.

Lemma settled_mono k2 ks k : settled ks k → settled (absorbPublic k2 ks) k.
Proof.
  intros (k' & Hfirst & Habs).
  destruct (decide (fingerprint k = fingerprint k2)) as [Heq|Hne].
  - rewrite absorbPublic_cases. unfold settled, firstMatch in *. rewrite Heq in *.
    destruct (getForId (publicKeys ks) (fingerprint k2)) as [k0|] eqn:Hpub; simpl.
    + simplify_eq. rewrite getForId_updateFirst_eq, Hpub. simpl.
      eexists. split; [done|]. by apply absorbs_update_mono.
    + rewrite Hfirst. simpl. rewrite Hpub, getForId_updateFirst_eq, Hfirst. simpl.
      eexists. split; [done|]. by apply absorbs_update_mono.
  - exists k'. split; [|done].
    rewrite firstMatch_absorbPublic_ne; by rewrite ?Hfirst.
Qed.

Lemma absorbPublic_unique k ks :
  uniqueFingerprints ks → uniqueFingerprints (absorbPublic k ks).
Proof.
  unfold uniqueFingerprints, fingerprintsOf. intros Hnd. rewrite absorbPublic_cases.
  destruct (getForId (publicKeys ks) _) eqn:Hpub; simpl.
  - rewrite fmap_app in *. by rewrite (updateFirst_fingerprints _ _ (publicKeys ks)).
  - destruct (getForId (privateKeys ks) _) eqn:Hpriv; simpl.
    + rewrite fmap_app in *. by rewrite (updateFirst_fingerprints _ _ (privateKeys ks)).
    + apply getForId_None_iff in Hpub, Hpriv. unfold fingerprintsOf in *.
      rewrite !fmap_app in *. simpl.
      rewrite <- app_assoc. simpl.
      apply NoDup_app in Hnd as (Hnd1 & Hdisj & Hnd2).
      apply NoDup_app. split; [done|]. split.
      * intros x Hx [-> | Hx2]%elem_of_cons; [done | by apply (Hdisj x)].
      * by apply NoDup_cons.
Qed.

(** The callback of [importPublicKey]: it throws, or it leaves the key
    store that [absorbPublic] describes and reports a success. *)
Lemma importPublicKey_body_cases k r :
  (∃ e, importPublicKey_body k r = inl e)
  ∨ (∃ r' m, importPublicKey_body k r = inr (r', m)
             ∧ keystore r' = absorbPublic k (keystore r)
             ∧ ¬ rejected m).
Proof.
  unfold importPublicKey_body, absorbPublic.
  destruct (checkKeyId k (keystore r)) as [e|]; [left; by exists e|]. right.
  destruct (getKeysForId _ _ _); eexists _, _; (split; [done|]); simpl;
    (split; [done|]); by intros [e ?].
Qed.

Lemma forEachKey_public_ok keys r result r' result' :
  forEachKey importPublicKey_body keys r result = (r', inr result') →
  keystore r' = foldl (λ ks k, absorbPublic k ks) (keystore r) keys.
Proof.
  revert r result. induction keys as [|k keys IH]; intros r result; simpl.
  - by intros [= <- <-].
  - destruct (importPublicKey_body_cases k r) as [[e ->]|(r1 & m & -> & <- & _)];
      [done|]. apply IH.
Qed.

(** A property of the key store that every import of a key of the list
    keeps is kept by the loop, whether or not a callback throws. *)
Lemma forEachKey_public_inv (P : KeyStore → Prop) keys r result :
  P (keystore r) →
  (∀ k ks, k ∈ keys → P ks → P (absorbPublic k ks)) →
  P (keystore (forEachKey importPublicKey_body keys r result).1).
Proof.
  revert r result. induction keys as [|k keys IH]; intros r result HP Hstep; simpl.
  - done.
  - destruct (importPublicKey_body_cases k r) as [[e ->]|(r1 & m & -> & Hks & _)];
      [done|].
    apply IH.
    + rewrite Hks. apply Hstep; [by left | done].
    + intros k' ks Hk'. apply Hstep. by right.
Qed.

Lemma importOne_public_inv (P : KeyStore → Prop) c acc :
  c_type c = public →
  P (keystore acc.1) →
  (∀ k ks, k ∈ keys (readArmored (c_armored c)) → P ks → P (absorbPublic k ks)) →
  P (keystore (importOne acc c).1).
Proof.
  destruct acc as [r result]. intros Hpublic HP Hstep.
  unfold importOne, importPublicKey. rewrite Hpublic.
  pose proof (forEachKey_public_inv P (keys (readArmored (c_armored c))) r
                (match err (readArmored (c_armored c)) with
                 | Some errors => map (λ e, mkResult error (key_import_public_read e)) errors
                 | None => []
                 end) HP Hstep) as Hinv.
  by destruct (forEachKey _ _ _ _) as [r' [e|res]].
Qed.

Lemma candidateKeys_cons c cs :
  candidateKeys (c :: cs) = keys (readArmored (c_armored c)) ++ candidateKeys cs.
Proof. done. Qed.

Lemma importLoop_public_inv (P : KeyStore → Prop) cs acc :
  Forall (λ c, c_type c = public) cs →
  P (keystore acc.1) →
  (∀ k ks, k ∈ candidateKeys cs → P ks → P (absorbPublic k ks)) →
  P (keystore (foldl importOne acc cs).1).
Proof.
  revert acc. induction cs as [|c cs IH]; intros acc Hpublic HP Hstep; simpl; [done|].
  apply Forall_cons in Hpublic as [Hc Hpublic].
  apply IH; [done| |].
  - apply importOne_public_inv; [done..|].
    intros k ks Hk. apply Hstep. rewrite candidateKeys_cons. apply elem_of_app. by left.
  - intros k ks Hk. apply Hstep. rewrite candidateKeys_cons. apply elem_of_app. by right.
Qed.

Lemma importLoop_appends cs acc :
  ∃ new, (foldl importOne acc cs).2 = acc.2 ++ new.
Proof.
  revert acc. induction cs as [|c cs IH]; intros acc; simpl.
  - exists []. by rewrite app_nil_r.
  - destruct (IH (importOne acc c)) as [new2 ->].
    destruct (importOne_appends acc c) as [new1 ->].
    exists (new1 ++ new2). by rewrite app_assoc.
Qed.

(** A public candidate none of whose results is a rejection has had all
    its keys imported. *)
Lemma importOne_public_ok c r result :
  c_type c = public →
  (∀ m, m ∈ (importOne (r, result) c).2 → ¬ rejected m) →
  keystore (importOne (r, result) c).1
  = foldl (λ ks k, absorbPublic k ks) (keystore r) (keys (readArmored (c_armored c))).
Proof.
  intros Hpublic Hnone. unfold importOne, importPublicKey in *. rewrite Hpublic in *.
  destruct (forEachKey _ _ _ _) as [r' [e|res]] eqn:Hloop; simpl in *.
  - destruct (Hnone (mkResult error (key_import_unable e))).
    + apply elem_of_app. right. by left.
    + by exists e.
  - by eapply forEachKey_public_ok.
Qed.

Lemma importLoop_public_ok cs acc :
  Forall (λ c, c_type c = public) cs →
  (∀ m, m ∈ (foldl importOne acc cs).2 → ¬ rejected m) →
  keystore (foldl importOne acc cs).1
  = foldl (λ ks k, absorbPublic k ks) (keystore acc.1) (candidateKeys cs).
Proof.
  revert acc. induction cs as [|c cs IH]; intros [r result] Hpublic Hnone; [done|].
  apply Forall_cons in Hpublic as [Hc Hpublic].
  rewrite candidateKeys_cons, foldl_app.
  change (foldl importOne (r, result) (c :: cs))
    with (foldl importOne (importOne (r, result) c) cs) in *.
  rewrite IH by done. f_equal.
  apply importOne_public_ok; [done|].
  intros m Hm. apply Hnone.
  destruct (importLoop_appends cs (importOne (r, result) c)) as [new ->].
  apply elem_of_app. by left.
Qed.

Lemma sortPublicFirst_public cs :
  Forall (λ c, c_type c = public) cs → sortPublicFirst cs = cs.
Proof.
  intros Hpublic. unfold sortPublicFirst.
  assert (List.filter (λ c, bool_decide (c_type c = private)) cs = []) as ->.
  { induction Hpublic as [|c cs Hc _ IH]; simpl; [done|]. by rewrite Hc. }
  rewrite app_nil_r.
  induction Hpublic as [|c cs Hc _ IH]; simpl; [done|]. rewrite Hc. simpl. by f_equal.
Qed.

(** Importing all keys of a list: every one of them is then settled, what
    was settled stays so, and no fingerprint comes twice. *)
Lemma absorbAll_unique keys ks :
  uniqueFingerprints ks →
  uniqueFingerprints (foldl (λ ks k, absorbPublic k ks) ks keys).
Proof.
  revert ks. induction keys as [|k keys IH]; intros ks Hu; simpl; [done|].
  apply IH. by apply absorbPublic_unique.
Qed.

Lemma absorbAll_mono keys ks k :
  settled ks k → settled (foldl (λ ks k, absorbPublic k ks) ks keys) k.
Proof.
  revert ks. induction keys as [|k' keys IH]; intros ks Hs; simpl; [done|].
  apply IH. by apply settled_mono.
Qed.

Lemma absorbAll_settled keys ks k :
  k ∈ keys → settled (foldl (λ ks k, absorbPublic k ks) ks keys) k.
Proof.
  revert ks. induction keys as [|k' keys IH]; intros ks Hin; simpl.
  - by apply elem_of_nil in Hin.
  - apply elem_of_cons in Hin as [-> | Hin]; [|by apply IH].
    apply absorbAll_mono, absorbPublic_settles.
Qed.

(** *** Collections without repeated fingerprint *)

Lemma filter_fingerprints_elem (P : Key → Prop) `{!∀ k, Decision (P k)} l f :
  f ∈ fingerprintsOf (filter P l) → f ∈ fingerprintsOf l.
Proof.
  unfold fingerprintsOf. intros (k & -> & Hk)%list_elem_of_fmap.
  apply list_elem_of_filter in Hk as [_ Hk]. apply list_elem_of_fmap. by exists k.
Qed.

Lemma filter_fingerprints_NoDup (P : Key → Prop) `{!∀ k, Decision (P k)} l :
  NoDup (fingerprintsOf l) → NoDup (fingerprintsOf (filter P l)).
Proof.
  unfold fingerprintsOf. induction l as [|k l IH]; csimpl; [done|].
  intros [Hk Hnd]%NoDup_cons. rewrite filter_cons. case_decide; csimpl; [|by apply IH].
  apply NoDup_cons. split; [|by apply IH].
  intros Hin. apply Hk. by apply (filter_fingerprints_elem P) in Hin.
Qed.

Lemma filter_all {A} (P : A → Prop) `{!∀ x, Decision (P x)} (l : list A) :
  (∀ x, x ∈ l → P x) → filter P l = l.
Proof.
  induction l as [|x l IH]; intros Hall; [done|].
  rewrite filter_cons_True by (apply Hall; by left).
  f_equal. apply IH. intros y Hy. apply Hall. by right.
Qed.

(** In a collection without repeated fingerprint, a removal filters. *)
Lemma removeForId_filter l f :
  NoDup (fingerprintsOf l) →
  removeForId l f = filter (λ k, fingerprint k ≠ f) l.
Proof.
  unfold fingerprintsOf. induction l as [|k l IH]; csimpl; [done|].
  intros [Hk Hnd]%NoDup_cons. rewrite filter_cons. case_decide as Heq.
  - rewrite decide_False by (intros Hne; by apply Hne).
    symmetry. apply filter_all. intros x Hx Hfx. apply Hk.
    apply list_elem_of_fmap. exists x. split; [congruence | done].
  - rewrite decide_True by done. f_equal. by apply IH.
Qed.

Lemma unique_public_private ks f :
  uniqueFingerprints ks →
  f ∈ fingerprintsOf (publicKeys ks) → f ∉ fingerprintsOf (privateKeys ks).
Proof.
  unfold uniqueFingerprints, fingerprintsOf. rewrite fmap_app.
  intros (_ & Hdisj & _)%NoDup_app. apply Hdisj.
Qed.

Lemma unique_public ks :
  uniqueFingerprints ks → NoDup (fingerprintsOf (publicKeys ks)).
Proof.
  unfold uniqueFingerprints, fingerprintsOf. rewrite fmap_app.
  by intros (? & _ & _)%NoDup_app.
Qed.

(** * Further properties *)

(** ** What an import keeps *)

Lemma getKeysForId_firstMatch ks fpr deep :
  getKeysForId ks (Fingerprint fpr) deep
  = match firstMatch ks fpr with
    | Some k =>
        Some (k :: tail (List.filter (matchesId (Fingerprint fpr) deep)
                                     (publicKeys ks ++ privateKeys ks)))
    | None => None
    end.
Proof.
  rewrite getKeysForId_fingerprint. unfold firstMatch.
  rewrite List.filter_app, <- !(filter_fingerprint_head _ fpr deep).
  destruct (List.filter _ (publicKeys ks)) as [|k l]; simpl; [|done].
  by destruct (List.filter _ (privateKeys ks)).
Qed.

(** The callback of [importPrivateKey]: it throws, or it leaves the key
    store that [absorbPrivate] describes. *)
Lemma importPrivateKey_body_cases k r :
  (∃ e, importPrivateKey_body k r = inl e)
  ∨ (∃ r' m, importPrivateKey_body k r = inr (r', m)
             ∧ keystore r' = absorbPrivate k (keystore r)
             ∧ r_type m = success).
Proof.
  unfold importPrivateKey_body, absorbPrivate.
  destruct (checkKeyId k (keystore r)) as [e|]; [left; by exists e|].
  rewrite getKeysForId_firstMatch.
  destruct (firstMatch (keystore r) (fingerprint k)) as [key|]; simpl.
  - destruct (isPublic key).
    + destruct (updateThrows k key) as [e|]; [left; by exists e|].
      right. eexists _, _; by repeat split.
    + right. eexists _, _; by repeat split.
  - right. eexists _, _; by repeat split.
Qed.

(** A property of the key store that every import of a key keeps is kept by
    a loop over keys, whether or not a callback throws. *)
Lemma forEachKey_keystore_inv (P : KeyStore → Prop)
    (body : Key → Keyring → string + Keyring * ImportResult)
    (step : Key → KeyStore → KeyStore) keys r result :
  (∀ k r, (∃ e, body k r = inl e)
          ∨ ∃ r' m, body k r = inr (r', m) ∧ keystore r' = step k (keystore r)) →
  P (keystore r) →
  (∀ k ks, k ∈ keys → P ks → P (step k ks)) →
  P (keystore (forEachKey body keys r result).1).
Proof.
  intros Hbody. revert r result.
  induction keys as [|k keys IH]; intros r result HP Hstep; simpl; [done|].
  destruct (Hbody k r) as [[e ->]|(r1 & m & -> & Hks)]; [done|].
  apply IH.
  - rewrite Hks. apply Hstep; [by left | done].
  - intros k' ks Hk'. apply Hstep. by right.
Qed.

Lemma importOne_keystore_inv (P : KeyStore → Prop) c acc :
  P (keystore acc.1) →
  (c_type c = public →
   ∀ k ks, k ∈ keys (readArmored (c_armored c)) → P ks → P (absorbPublic k ks)) →
  (c_type c = private →
   ∀ k ks, k ∈ keys (readArmored (c_armored c)) → P ks → P (absorbPrivate k ks)) →
  P (keystore (importOne acc c).1).
Proof.
  destruct acc as [r result]. intros HP Hpub Hpriv.
  unfold importOne, importPublicKey, importPrivateKey.
  destruct (c_type c).
  - pose proof (forEachKey_keystore_inv P importPublicKey_body absorbPublic
                  (keys (readArmored (c_armored c))) r
                  (match err (readArmored (c_armored c)) with
                   | Some errors => map (λ e, mkResult error (key_import_public_read e)) errors
                   | None => []
                   end)) as Hinv.
    destruct (forEachKey _ _ _ _) as [r' [e|res]]; apply Hinv; auto;
      intros k r0; destruct (importPublicKey_body_cases k r0)
        as [?|(r1 & m & ? & ? & _)]; eauto.
  - pose proof (forEachKey_keystore_inv P importPrivateKey_body absorbPrivate
                  (keys (readArmored (c_armored c))) r
                  (match err (readArmored (c_armored c)) with
                   | Some errors => map (λ e, mkResult error (key_import_private_read e)) errors
                   | None => []
                   end)) as Hinv.
    destruct (forEachKey _ _ _ _) as [r' [e|res]]; apply Hinv; auto;
      intros k r0; destruct (importPrivateKey_body_cases k r0)
        as [?|(r1 & m & ? & ? & _)]; eauto.
Qed.

Lemma importLoop_keystore_inv (P : KeyStore → Prop) cs acc :
  P (keystore acc.1) →
  (∀ c k ks, c ∈ cs → c_type c = public →
             k ∈ keys (readArmored (c_armored c)) → P ks → P (absorbPublic k ks)) →
  (∀ c k ks, c ∈ cs → c_type c = private →
             k ∈ keys (readArmored (c_armored c)) → P ks → P (absorbPrivate k ks)) →
  P (keystore (foldl importOne acc cs).1).
Proof.
  revert acc. induction cs as [|c cs IH]; intros acc HP Hpub Hpriv; simpl; [done|].
  apply IH.
  - apply importOne_keystore_inv; [done| |].
    + intros Hc k ks. apply Hpub; [by left | done].
    + intros Hc k ks. apply Hpriv; [by left | done].
  - intros c' k ks Hc'. apply Hpub. by right.
  - intros c' k ks Hc'. apply Hpriv. by right.
Qed.

Lemma sortPublicFirst_elem cs c : c ∈ sortPublicFirst cs → c ∈ cs.
Proof.
  unfold sortPublicFirst. rewrite elem_of_app, !list_elem_of_In, !filter_In.
  tauto.
Qed.

(** A property of the key store that the import of every key of the batch
    keeps is kept by [importKeys]. *)
Lemma importKeys_keystore_inv (P : KeyStore → Prop) cs r :
  P (keystore r) →
  (∀ c k ks, c ∈ cs → c_type c = public →
             k ∈ keys (readArmored (c_armored c)) → P ks → P (absorbPublic k ks)) →
  (∀ c k ks, c ∈ cs → c_type c = private →
             k ∈ keys (readArmored (c_armored c)) → P ks → P (absorbPrivate k ks)) →
  P (keystore (importKeys cs r).1).
Proof.
  intros HP Hpub Hpriv. destruct (importKeys_result cs r) as [_ ->].
  unfold importAll. apply importLoop_keystore_inv; [done| |].
  - intros c k ks Hc. apply Hpub. by apply sortPublicFirst_elem.
  - intros c k ks Hc. apply Hpriv. by apply sortPublicFirst_elem.
Qed.

Lemma updateFirst_elem fpr src l k :
  k ∈ updateFirst fpr src l →
  ∃ k0, k0 ∈ l ∧ fingerprint k = fingerprint k0 ∧ secret k = secret k0.
Proof.
  induction l as [|k1 l IH]; simpl; [by intros ?%elem_of_nil|].
  case_decide.
  - intros [-> | Hin]%elem_of_cons.
    + exists k1. split; [by left | done].
    + exists k. split; [by right | done].
  - intros [-> | Hin]%elem_of_cons.
    + exists k1. split; [by left | done].
    + destruct (IH Hin) as (k0 & ? & ?). exists k0. split; [by right | done].
Qed.

Lemma updateFirst_keeps fpr src l k :
  k ∈ l →
  ∃ k', k' ∈ updateFirst fpr src l
        ∧ fingerprint k' = fingerprint k ∧ secret k' = secret k.
Proof.
  induction l as [|k1 l IH]; simpl; [by intros ?%elem_of_nil|].
  case_decide.
  - intros [-> | Hin]%elem_of_cons.
    + exists (update k1 src). split; [by left | done].
    + exists k. split; [by right | done].
  - intros [-> | Hin]%elem_of_cons.
    + exists k1. split; [by left | done].
    + destruct (IH Hin) as (k' & ? & ?). exists k'. split; [by right | done].
Qed.

Lemma firstMatch_None ks fpr : firstMatch ks fpr = None ↔ ¬ holds ks fpr.
Proof. rewrite <- firstMatch_holds, eq_None_not_Some. done. Qed.

Lemma firstMatch_Some ks fpr k :
  firstMatch ks fpr = Some k →
  fingerprint k = fpr
  ∧ (getForId (publicKeys ks) fpr = Some k
     ∨ getForId (publicKeys ks) fpr = None ∧ getForId (privateKeys ks) fpr = Some k).
Proof.
  unfold firstMatch. destruct (getForId (publicKeys ks) fpr) as [k0|] eqn:Hpub.
  - intros [= ->]. pose proof (getForId_Some _ _ _ Hpub) as [_ ?].
    split; [done | by left].
  - intros Hpriv. pose proof (getForId_Some _ _ _ Hpriv) as [_ ?].
    split; [done | by right].
Qed.

Lemma removeForId_unique l1 l2 f :
  NoDup (fingerprintsOf (l1 ++ l2)) →
  NoDup (fingerprintsOf (removeForId l1 f ++ l2)).
Proof.
  unfold fingerprintsOf. rewrite !fmap_app.
  intros (Hnd1 & Hdisj & Hnd2)%NoDup_app.
  rewrite removeForId_filter by done.
  apply NoDup_app. split; [by apply filter_fingerprints_NoDup|]. split; [|done].
  intros x Hx. apply Hdisj. by eapply filter_fingerprints_elem.
Qed.

Lemma updateInStore_unique fpr src ks :
  uniqueFingerprints ks → uniqueFingerprints (updateInStore fpr src ks).
Proof.
  unfold uniqueFingerprints, updateInStore, fingerprintsOf.
  destruct (existsb _ _); simpl; rewrite !fmap_app;
    by rewrite (updateFirst_fingerprints fpr src).
Qed.

Lemma updateInStore_privateOnly fpr src ks :
  privateOnly ks → privateOnly (updateInStore fpr src ks).
Proof.
  unfold privateOnly, updateInStore. intros Hpriv k.
  destruct (existsb _ _); simpl; [by apply Hpriv|].
  intros (k0 & Hk0 & _ & Hsecret)%updateFirst_elem.
  specialize (Hpriv k0 Hk0). unfold isPublic in *. by rewrite Hsecret.
Qed.

Lemma push_public_unique k ks :
  uniqueFingerprints ks → ¬ holds ks (fingerprint k) →
  uniqueFingerprints (mkKeyStore (publicKeys ks ++ [k]) (privateKeys ks)).
Proof.
  unfold uniqueFingerprints, fingerprintsOf, holds. simpl.
  rewrite !fmap_app. simpl. rewrite <- app_assoc. simpl.
  intros (Hnd1 & Hdisj & Hnd2)%NoDup_app Hno.
  apply NoDup_app. split; [done|]. split.
  - intros x Hx [-> | Hx2]%elem_of_cons; [apply Hno; by left | by apply (Hdisj x)].
  - apply NoDup_cons. split; [|done]. intros ?. apply Hno. by right.
Qed.

Lemma push_private_unique k ks :
  uniqueFingerprints ks → ¬ holds ks (fingerprint k) →
  uniqueFingerprints (mkKeyStore (publicKeys ks) (privateKeys ks ++ [k])).
Proof.
  unfold uniqueFingerprints, fingerprintsOf, holds. simpl.
  rewrite app_assoc, (fmap_app _ (_ ++ _)). simpl.
  intros Hnd Hno. apply NoDup_app. split; [done|]. split.
  - intros x Hx ->%list_elem_of_singleton. apply Hno.
    rewrite fmap_app in Hx. by apply elem_of_app in Hx.
  - apply NoDup_singleton.
Qed.

Lemma absorbPublic_privateOnly k ks :
  privateOnly ks → privateOnly (absorbPublic k ks).
Proof.
  intros Hpriv. unfold absorbPublic.
  destruct (getKeysForId _ _ _); [by apply updateInStore_privateOnly | done].
Qed.

(** The import of a private key keeps the key store a mapping whose private
    collection holds private keys. *)
Lemma absorbPrivate_mapping k ks :
  isPublic k = false →
  uniqueFingerprints ks ∧ privateOnly ks →
  uniqueFingerprints (absorbPrivate k ks) ∧ privateOnly (absorbPrivate k ks).
Proof.
  intros Hk [Hu Hpriv]. unfold absorbPrivate.
  destruct (firstMatch ks (fingerprint k)) as [key|] eqn:Hfirst.
  - apply firstMatch_Some in Hfirst as [Hfpr Hwhere].
    destruct (isPublic key) eqn:Hkey.
    + destruct Hwhere as [Hpub|[_ Hin]].
      2:{ apply getForId_Some in Hin as [Hin _]. by rewrite (Hpriv key Hin) in Hkey. }
      assert (fingerprint k ∈ fingerprintsOf (publicKeys ks)) as Hheld.
      { apply getForId_is_Some. by eauto. }
      split.
      * unfold uniqueFingerprints in *. simpl.
        rewrite app_assoc. unfold fingerprintsOf. rewrite (fmap_app _ (_ ++ _)).
        apply NoDup_app. split; [by apply removeForId_unique|]. split; [|apply NoDup_singleton].
        intros x Hx ->%list_elem_of_singleton. simpl in Hx.
        rewrite fmap_app in Hx. apply elem_of_app in Hx as [Hx|Hx].
        -- by apply (removeForId_gone (publicKeys ks) (fingerprint k) (unique_public ks Hu)).
        -- by apply (unique_public_private ks (fingerprint k) Hu).
      * intros x. simpl. intros [Hx | ->%list_elem_of_singleton]%elem_of_app;
          [by apply Hpriv | done].
    + split; [by apply updateInStore_unique | by apply updateInStore_privateOnly].
  - apply firstMatch_None in Hfirst. split; [by apply push_private_unique|].
    intros x. simpl. intros [Hx | ->%list_elem_of_singleton]%elem_of_app;
      [by apply Hpriv | done].
Qed.

(** X1.  [importKeys] keeps the key store a mapping from fingerprints to
    keys: when no fingerprint occurs twice in the key store, its private
    collection holds private keys only and the candidates labelled private
    carry private keys only, the same holds after the import, whatever the
    batch and whichever candidates fail. *)
Theorem importKeys_keeps_mapping (cs : list Candidate) (r : Keyring) :
  uniqueFingerprints (keystore r) →
  privateOnly (keystore r) →
  privateCandidates cs →
  uniqueFingerprints (keystore (importKeys cs r).1)
  ∧ privateOnly (keystore (importKeys cs r).1).
Proof.
  intros Hu Hpriv Hcs.
  apply (importKeys_keystore_inv (λ ks, uniqueFingerprints ks ∧ privateOnly ks));
    [done| |].
  - intros c k ks _ _ _ [? ?].
    split; [by apply absorbPublic_unique | by apply absorbPublic_privateOnly].
  - intros c k ks Hc Hty Hk. apply absorbPrivate_mapping. by eapply Hcs.
Qed.

Lemma importKeys_keeps_mapping_witness :
  let cs := [mkCandidate private (armor carol); mkCandidate public (armor alice);
             mkCandidate public (armor (toPublic carol))] in
  uniqueFingerprints (keystore (importKeys cs (keyringOf [toPublic carol] [dave] "d4")).1)
  ∧ privateOnly (keystore (importKeys cs (keyringOf [toPublic carol] [dave] "d4")).1).
Proof.
  intros cs. apply importKeys_keeps_mapping.
  - apply (bool_decide_unpack _). by vm_compute.
  - intros k Hk. apply list_elem_of_In in Hk. simpl in Hk.
    by destruct Hk as [<- | []].
  - intros c k Hc Hty Hk. apply list_elem_of_In in Hc. simpl in Hc.
    destruct Hc as [<- | [<- | [<- | []]]]; try discriminate Hty.
    apply list_elem_of_In in Hk. simpl in Hk. by destruct Hk as [<- | []].
Defined.

Lemma absorbPublic_holds k ks f : holds ks f → holds (absorbPublic k ks) f.
Proof.
  unfold absorbPublic. destruct (getKeysForId _ _ _).
  - by rewrite holds_updateInStore.
  - unfold holds, fingerprintsOf. simpl. rewrite fmap_app, elem_of_app. tauto.
Qed.

Lemma absorbPrivate_holds k ks f : holds ks f → holds (absorbPrivate k ks) f.
Proof.
  unfold absorbPrivate.
  destruct (firstMatch ks (fingerprint k)) as [key|] eqn:Hfirst.
  - destruct (isPublic key); [|by rewrite holds_updateInStore].
    unfold holds, fingerprintsOf. simpl. rewrite fmap_app, elem_of_app. simpl.
    destruct (decide (f = fingerprint k)) as [-> | Hne].
    + intros _. right. right. by left.
    + intros [Hf|Hf]; [left | by right; left]. by apply removeForId_other.
  - unfold holds, fingerprintsOf. simpl. rewrite fmap_app, elem_of_app. tauto.
Qed.

(** X2.  [importKeys] never loses a fingerprint: whatever the batch, a
    fingerprint that the key store holds before the import is held after
    it (a promotion moves it from the public to the private collection). *)
Theorem importKeys_keeps_fingerprints (cs : list Candidate) (r : Keyring)
    (f : string) :
  holds (keystore r) f → holds (keystore (importKeys cs r).1) f.
Proof.
  intros Hf. apply (importKeys_keystore_inv (λ ks, holds ks f)); [done| |].
  - intros c k ks _ _ _. apply absorbPublic_holds.
  - intros c k ks _ _ _. apply absorbPrivate_holds.
Qed.

Lemma importKeys_keeps_fingerprints_witness :
  holds (keystore (importKeys [mkCandidate private (armor carol)]
                              (keyringOf [toPublic carol; alice] [] "")).1) "c3".
Proof.
  apply importKeys_keeps_fingerprints. left.
  apply list_elem_of_In. simpl. by left.
Defined.

Lemma updateInStore_keeps_private fpr src ks k :
  k ∈ privateKeys ks →
  ∃ k', k' ∈ privateKeys (updateInStore fpr src ks)
        ∧ fingerprint k' = fingerprint k ∧ secret k' = secret k.
Proof.
  unfold updateInStore. destruct (existsb _ _); simpl.
  - intros Hk. by exists k.
  - apply updateFirst_keeps.
Qed.

(** X3.  [importKeys] never drops or alters secret key material: for every
    key of the private collection before the import, the private collection
    after the import has a key of the same fingerprint with the same secret
    material. *)
Theorem importKeys_keeps_secrets (cs : list Candidate) (r : Keyring) (k : Key) :
  k ∈ privateKeys (keystore r) →
  ∃ k', k' ∈ privateKeys (keystore (importKeys cs r).1)
        ∧ fingerprint k' = fingerprint k ∧ secret k' = secret k.
Proof.
  intros Hk.
  apply (importKeys_keystore_inv
           (λ ks, ∃ k', k' ∈ privateKeys ks
                        ∧ fingerprint k' = fingerprint k ∧ secret k' = secret k)).
  - by exists k.
  - intros c k0 ks _ _ _ (k1 & Hk1 & Hf1 & Hs1). unfold absorbPublic.
    destruct (getKeysForId _ _ _); [|by exists k1].
    destruct (updateInStore_keeps_private (fingerprint k0) k0 ks k1 Hk1)
      as (k2 & ? & ? & ?).
    exists k2. repeat split; [done | congruence | congruence].
  - intros c k0 ks _ _ _ (k1 & Hk1 & Hf1 & Hs1). unfold absorbPrivate.
    destruct (firstMatch ks (fingerprint k0)) as [key|].
    + destruct (isPublic key).
      * exists k1. simpl. split; [|done]. apply elem_of_app. by left.
      * destruct (updateInStore_keeps_private (fingerprint k0) k0 ks k1 Hk1)
          as (k2 & ? & ? & ?).
        exists k2. repeat split; [done | congruence | congruence].
    + exists k1. simpl. split; [|done]. apply elem_of_app. by left.
Qed.

Lemma importKeys_keeps_secrets_witness :
  ∃ k', k' ∈ privateKeys (keystore (importKeys [mkCandidate public (armor (toPublic carol))]
                                               (keyringOf [] [carol] "c3")).1)
        ∧ fingerprint k' = "c3" ∧ secret k' = Some "secret of carol".
Proof.
  apply (importKeys_keeps_secrets _ (keyringOf [] [carol] "c3") carol).
  apply list_elem_of_In. simpl. by left.
Defined.

Lemma importOne_readsOne acc c :
  readsOne c → ∃ m, importOne acc c = ((importOne acc c).1, acc.2 ++ [m]).
Proof.
  intros Hread. destruct acc as [r result].
  unfold importOne, importPublicKey, importPrivateKey.
  destruct Hread as [[k ->]|[e ->]]; simpl.
  - destruct (c_type c).
    + destruct (importPublicKey_body k r) as [e|[r' m]]; simpl; eauto.
    + destruct (importPrivateKey_body k r) as [e|[r' m]]; simpl; eauto.
  - destruct (c_type c); simpl; eauto.
Qed.

Lemma importLoop_readsOne cs acc :
  Forall readsOne cs →
  length (foldl importOne acc cs).2 = (length acc.2 + length cs)%nat.
Proof.
  intros Hcs. revert acc. induction Hcs as [|c cs Hc _ IH]; intros acc; simpl; [lia|].
  rewrite IH. destruct (importOne_readsOne acc c Hc) as [m ->]. simpl.
  rewrite length_app. simpl. lia.
Qed.

Lemma sortPublicFirst_length cs : length (sortPublicFirst cs) = length cs.
Proof.
  unfold sortPublicFirst. rewrite length_app.
  induction cs as [|c cs IH]; simpl; [done|].
  destruct (c_type c); simpl; lia.
Qed.

(** X4.  When the engine reads every candidate of the batch either as
    exactly one key and no error or as no key and exactly one error,
    [importKeys] returns exactly one result per candidate, whether the
    candidate is imported, fails to parse or is rejected by an exception:
    the list of results has the length of the batch. *)
Theorem importKeys_one_result_each (cs : list Candidate) (r : Keyring) :
  Forall readsOne cs →
  length (importKeys cs r).2 = length cs.
Proof.
  intros Hcs. destruct (importKeys_result cs r) as [-> _]. unfold importAll.
  rewrite importLoop_readsOne, sortPublicFirst_length; [done|].
  apply Forall_forall. intros c Hc%sortPublicFirst_elem.
  by eapply Forall_forall in Hcs.
Qed.

Lemma importKeys_one_result_each_witness :
  length (importKeys [mkCandidate private (armor carol);
                      mkCandidate public [Malformed "broken"];
                      mkCandidate public (armor frank)]
                     (keyringOf [erin] [] "")).2 = 3%nat.
Proof.
  apply importKeys_one_result_each.
  repeat first [apply List.Forall_nil
               | apply List.Forall_cons; [by (left + right); eexists|]].
Defined.

(** ** The key-id check *)

Lemma firstThrow_None {A} (f : A → option string) (l : list A) :
  firstThrow f l = None ↔ ∀ x, x ∈ l → f x = None.
Proof.
  induction l as [|x l IH]; simpl.
  - split; [by intros _ ? ?%elem_of_nil | done].
  - destruct (f x) eqn:Hx.
    + split; [done|]. intros H. specialize (H x (list_elem_of_here _ _)). congruence.
    + rewrite IH. split.
      * intros H y [-> | Hy]%elem_of_cons; auto.
      * intros H y Hy. apply H. by right.
Qed.

Lemma getKeysForId_firstThrow ks id deep (f : Key → option string) :
  match getKeysForId ks id deep with
  | Some keys => firstThrow f keys
  | None => None
  end = None
  ↔ ∀ key, key ∈ publicKeys ks ++ privateKeys ks →
           matchesId id deep key = true → f key = None.
Proof.
  unfold getKeysForId.
  rewrite <- List.filter_app.
  destruct (List.filter _ _) as [|k l] eqn:Hfilter.
  - split; [|done]. intros _ key Hin Hm.
    assert (In key []) as []. rewrite <- Hfilter. apply filter_In.
    split; [by apply list_elem_of_In | done].
  - rewrite firstThrow_None, <- Hfilter. split.
    + intros H key Hin Hm. apply H, list_elem_of_In, filter_In.
      split; [by apply list_elem_of_In | done].
    + intros H key [Hin Hm]%list_elem_of_In%filter_In.
      apply H; [by apply list_elem_of_In | done].
Qed.

Lemma matchesId_keyID hex key :
  matchesId (KeyID hex) true key = true ↔ answersTo key hex.
Proof.
  unfold answersTo. simpl.
  by rewrite orb_true_iff, !bool_decide_eq_true.
Qed.

(** In a key store whose lookup returns every key that answers to an id,
    a key passes the check exactly when no key of the store conflicts with
    it. *)
Lemma checkKeyId_None_iff sourceKey keyring :
  checkKeyId sourceKey keyring = None
  ↔ ∀ key, key ∈ publicKeys keyring ++ privateKeys keyring →
           ¬ conflicts sourceKey key.
Proof.
  unfold checkKeyId.
  pose proof (getKeysForId_firstThrow keyring (KeyID (keyId sourceKey)) true
                (λ key, if negb (bool_decide (keyId key = keyId sourceKey))
                        then Some "Primary keyId equals existing sub keyId."
                        else None)) as Hprimary.
  destruct (match getKeysForId keyring (KeyID (keyId sourceKey)) true with
            | Some keys => firstThrow _ keys
            | None => None
            end) as [e|] eqn:Hclash.
  - split; [done|]. intros Hno. exfalso.
    assert (Some e = None) as Habs; [|done].
    apply Hprimary. intros key Hin Hm%matchesId_keyID.
    case_bool_decide as Hk; simpl; [done|].
    destruct (Hno key Hin). left. by split.
  - rewrite firstThrow_None. split.
    + intros Hsub key Hin [[Hm Hne]|(s & Hs & Hm & Hbad)].
      * assert ((if negb (bool_decide (keyId key = keyId sourceKey))
                 then Some "Primary keyId equals existing sub keyId."
                 else None) = None) as Hnone.
        { apply Hprimary; [done | done | by apply matchesId_keyID]. }
        by rewrite bool_decide_eq_false_2 in Hnone.
      * specialize (Hsub s Hs).
        pose proof (proj1 (getKeysForId_firstThrow keyring (KeyID s) true _) Hsub
                      key Hin (proj2 (matchesId_keyID s key) Hm)) as Hkey.
        simpl in Hkey.
        repeat case_bool_decide; simpl in *; try done. by destruct Hbad.
    + intros Hno s Hs.
      apply (proj2 (getKeysForId_firstThrow keyring (KeyID s) true _)).
      intros key Hin Hm%matchesId_keyID.
      repeat case_bool_decide; simpl; try done.
      * destruct (Hno key Hin). right. exists s. by eauto.
      * destruct (Hno key Hin). right. exists s. by eauto.
Qed.

Lemma conflicts_dec sourceKey key : Decision (conflicts sourceKey key).
Proof.
  unfold conflicts, answersTo.
  apply or_dec; [apply _|].
  destruct (decide (Exists (λ subKeyId,
                              (keyId key = subKeyId ∨ subKeyId ∈ subKeyIds key)
                              ∧ (keyId key = subKeyId
                                 ∨ keyId key ≠ keyId sourceKey))
                           (subKeyIds sourceKey))) as [Hex|Hno].
  - left. apply Exists_exists in Hex. naive_solver.
  - right. intros Hex. apply Hno, Exists_exists. naive_solver.
Qed.

(** X5.  [checkKeyId] throws only when a key of the key store is in
    structural conflict with the source key; when the key store holds a
    single key, it throws exactly when that key conflicts; it never throws
    on an empty key store. *)
Theorem checkKeyId_rejects_conflicts_only (sourceKey : Key) (keyring : KeyStore) :
  (∀ e, checkKeyId sourceKey keyring = Some e →
        ∃ key, key ∈ publicKeys keyring ++ privateKeys keyring
               ∧ conflicts sourceKey key)
  ∧ (∀ key, publicKeys keyring ++ privateKeys keyring = [key] →
            (checkKeyId sourceKey keyring = None ↔ ¬ conflicts sourceKey key))
  ∧ (publicKeys keyring = [] → privateKeys keyring = [] →
     checkKeyId sourceKey keyring = None).
Proof.
  pose proof (checkKeyId_None_iff sourceKey keyring) as Hiff.
  split; [|split].
  - intros e He.
    destruct (@Exists_dec _ (conflicts sourceKey) (conflicts_dec sourceKey)
                          (publicKeys keyring ++ privateKeys keyring))
      as [Hex|Hno].
    + apply Exists_exists in Hex as (key & ? & ?). by exists key.
    + assert (checkKeyId sourceKey keyring = None) as Hnone; [|congruence].
      apply Hiff. intros key Hin Hc. apply Hno, Exists_exists. by exists key.
  - intros key Hone. rewrite Hiff, Hone. split.
    + intros H. apply H. by left.
    + by intros H k ->%list_elem_of_singleton.
  - intros Hpub Hpriv. apply Hiff. rewrite Hpub, Hpriv. by intros key ?%elem_of_nil.
Qed.

Lemma checkKeyId_rejects_conflicts_only_witness :
  checkKeyId frank (mkKeyStore [] []) = None
  ∧ (checkKeyId frank (mkKeyStore [erin] []) = None ↔ ¬ conflicts frank erin)
  ∧ conflicts frank erin.
Proof.
  destruct (checkKeyId_rejects_conflicts_only frank (mkKeyStore [] []))
    as (_ & _ & Hempty).
  destruct (checkKeyId_rejects_conflicts_only frank (mkKeyStore [erin] []))
    as (_ & Hone & _).
  split; [by apply Hempty|]. split; [by apply Hone|].
  right. exists "0e". split; [by left|]. split; by left.
Defined.

(** ** The primary key, again *)

Lemma getPrimaryKey_returns (r : Keyring) :
  match (getPrimaryKey r).2 with
  | Some k =>
      k ∈ privateKeys (keystore r) ∧ validatePrimaryKey k = true
      ∧ primary_key (getPrimaryKey r).1 = fingerprint k
  | None =>
      primary_key (getPrimaryKey r).1 = ""
      ∧ ∀ k, k ∈ privateKeys (keystore r) → validatePrimaryKey k = false
  end.
Proof.
  pose proof (newestValid_spec (privateKeys (keystore r))) as Hspec.
  destruct (decide (primary_key r = "")) as [Hempty|Hset].
  { rewrite (getPrimaryKey_fallback r (or_introl Hempty)).
    destruct (newestValid _ None) as [k|]; simpl; [|done].
    by destruct Hspec as (? & ? & _). }
  destruct (getForId (privateKeys (keystore r)) (primary_key r)) as [k|] eqn:Hget.
  - destruct (validatePrimaryKey k) eqn:Hv.
    + unfold getPrimaryKey, getPrimaryKeyFpr.
      rewrite bool_decide_eq_false_2, Hget, Hv by done. simpl.
      apply getForId_Some in Hget as [? ?]. done.
    + rewrite (getPrimaryKey_fallback r) by (right; right; by exists k).
      destruct (newestValid _ None) as [k1|]; simpl; [|done].
      by destruct Hspec as (? & ? & _).
  - rewrite (getPrimaryKey_fallback r) by (right; by left).
    destruct (newestValid _ None) as [k1|]; simpl; [|done].
    by destruct Hspec as (? & ? & _).
Qed.

(** X6.  After any call of [getPrimaryKey] the stored attribute and the
    answer agree: a key that is returned is a private key of the keyring
    that passes validation and whose fingerprint is the stored attribute;
    when null is returned, no private key passes validation and the stored
    attribute is empty.  The call changes nothing but the attribute, and
    [getPrimaryKeyFpr] returns the attribute as the call leaves it. *)
Theorem getPrimaryKey_agrees (r : Keyring) :
  let r' := (getPrimaryKey r).1 in
  r' = setPrimaryKey (primary_key r') r
  ∧ match (getPrimaryKey r).2 with
    | Some k =>
        k ∈ privateKeys (keystore r) ∧ validatePrimaryKey k = true
        ∧ primary_key r' = fingerprint k
    | None =>
        primary_key r' = ""
        ∧ ∀ k, k ∈ privateKeys (keystore r) → validatePrimaryKey k = false
    end
  ∧ (KeyringLocal_getPrimaryKeyFpr r).2 = primary_key r'.
Proof.
  intros r'. subst r'. split; [apply getPrimaryKey_frame|].
  pose proof (getPrimaryKey_returns r) as Hpost.
  split; [done|].
  unfold KeyringLocal_getPrimaryKeyFpr.
  destruct (getPrimaryKey r) as [r1 [k|]]; simpl in *.
  - by destruct Hpost as (_ & _ & ->).
  - by destruct Hpost as [-> _].
Qed.

Lemma getPrimaryKey_agrees_witness :
  (getPrimaryKey (keyringOf [alice] [carol; dave] "")).2 = Some dave
  ∧ primary_key (getPrimaryKey (keyringOf [alice] [carol; dave] "")).1 = "d4".
Proof.
  destruct (getPrimaryKey_agrees (keyringOf [alice] [carol; dave] ""))
    as (_ & Hpost & _).
  split; [reflexivity|].
  change ((getPrimaryKey (keyringOf [alice] [carol; dave] "")).2)
    with (Some dave) in Hpost.
  by destruct Hpost as (_ & _ & ->).
Defined.

(** ** Removal *)

Lemma removeForId_app_absent l k :
  fingerprint k ∉ fingerprintsOf l → removeForId (l ++ [k]) (fingerprint k) = l.
Proof.
  unfold fingerprintsOf. induction l as [|k0 l IH]; csimpl; intros Hno.
  - by rewrite decide_True.
  - apply not_elem_of_cons in Hno as [Hne Hno].
    rewrite decide_False by done. f_equal. by apply IH.
Qed.

Lemma removeForId_elem l fpr k :
  k ∈ removeForId l fpr → k ∈ l.
Proof.
  induction l as [|k0 l IH]; simpl; [done|].
  case_decide; [by right|]. intros [-> | ?]%elem_of_cons; [by left | right; auto].
Qed.

(** X7.  [removeKey] of [KeyringLocal]: a removal fails exactly when the
    collection of the kind does not hold the fingerprint.  A removal that
    succeeds takes the first key of the fingerprint out of its collection,
    writes both collections to storage and leaves no pending change; the
    removal of a private key whose fingerprint is the primary-key
    attribute clears the attribute, every other removal leaves the
    attribute as it is.  After the primary key was removed from a private
    collection without repeated fingerprint, [getPrimaryKey] returns null
    or a valid private key of another fingerprint. *)
Theorem removeKey_primary (fpr : string) (ty : KeyType) (r : Keyring) :
  let collection := match ty with
                    | public => publicKeys (keystore r)
                    | private => privateKeys (keystore r)
                    end in
  (removeKey fpr ty r = None ↔ fpr ∉ fingerprintsOf collection)
  ∧ ∀ r', removeKey fpr ty r = Some r' →
      keystore r'
      = match ty with
        | public => mkKeyStore (removeForId (publicKeys (keystore r)) fpr)
                               (privateKeys (keystore r))
        | private => mkKeyStore (publicKeys (keystore r))
                                (removeForId (privateKeys (keystore r)) fpr)
        end
      ∧ storedPublic r' = map armor (publicKeys (keystore r'))
      ∧ storedPrivate r' = map armor (privateKeys (keystore r'))
      ∧ sync r' = ∅
      ∧ primary_key r'
        = (if bool_decide (ty = private ∧ primary_key r = fpr)
           then "" else primary_key r)
      ∧ (ty = private → primary_key r = fpr →
         NoDup (fingerprintsOf (privateKeys (keystore r))) →
         match (getPrimaryKey r').2 with
         | Some k => k ∈ privateKeys (keystore r) ∧ validatePrimaryKey k = true
                     ∧ fingerprint k ≠ fpr
         | None => True
         end).
Proof.
  intros collection. subst collection. split.
  - rewrite <- getForId_None_iff. unfold removeKey, base_removeKey.
    destruct ty; destruct (getForId _ fpr); simpl; split; done.
  - intros r' Hremove. unfold removeKey, base_removeKey in Hremove.
    destruct ty; simpl in Hremove.
    + destruct (getForId (publicKeys (keystore r)) fpr) as [k|] eqn:Hget;
        simplify_eq/=.
      repeat split; done.
    + destruct (getForId (privateKeys (keystore r)) fpr) as [k|] eqn:Hget;
        simplify_eq/=.
      apply getForId_Some in Hget as [Hin Hfpr].
      unfold getPrimaryKeyFpr. simpl. rewrite Hfpr.
      destruct (decide (primary_key r = fpr)) as [Hprimary|Hprimary].
      * rewrite !bool_decide_eq_true_2 by (try split; done). simpl.
        repeat split; try done.
        intros _ _ Hnd.
        match goal with |- match (getPrimaryKey ?s).2 with _ => _ end =>
          pose proof (getPrimaryKey_returns s) as Hpost end.
        destruct (getPrimaryKey _).2 as [k1|]; [|done]. simpl in Hpost.
        destruct Hpost as (Hk1 & Hv & _).
        split; [by eapply removeForId_elem|]. split; [done|].
        intros Heq. apply (removeForId_gone _ fpr Hnd).
        unfold fingerprintsOf. apply list_elem_of_fmap. by exists k1.
      * rewrite !bool_decide_eq_false_2 by (try intros [_ ?]; done). simpl.
        repeat split; done.
Qed.

Lemma removeKey_primary_witness :
  ∃ r', removeKey "d4" private (keyringOf [alice] [carol; dave] "d4") = Some r'
        ∧ primary_key r' = ""
        ∧ privateKeys (keystore r') = [carol]
        ∧ match (getPrimaryKey r').2 with
          | Some k => k ∈ [carol; dave] ∧ validatePrimaryKey k = true
                      ∧ fingerprint k ≠ "d4"
          | None => True
          end.
Proof.
  destruct (removeKey_primary "d4" private (keyringOf [alice] [carol; dave] "d4"))
    as [_ Hsome].
  eexists. split; [reflexivity|].
  edestruct Hsome as (Hks & _ & _ & _ & Hprimary & Hnext); [reflexivity|].
  split; [by rewrite Hprimary|]. split; [by rewrite Hks|].
  apply Hnext; [done | done |]. apply (bool_decide_unpack _). by vm_compute.
Defined.

(** ** Import and removal together *)

Lemma removeKey_public_found fpr k r :
  getForId (publicKeys (keystore r)) fpr = Some k →
  ∃ r', removeKey fpr public r = Some r'
        ∧ keystore r' = mkKeyStore (removeForId (publicKeys (keystore r)) fpr)
                                   (privateKeys (keystore r))
        ∧ storedPublic r' = map armor (removeForId (publicKeys (keystore r)) fpr)
        ∧ storedPrivate r' = map armor (privateKeys (keystore r))
        ∧ primary_key r' = primary_key r.
Proof.
  intros Hget. unfold removeKey, base_removeKey. rewrite Hget. simpl.
  eexists. split; [done|]. done.
Qed.

Lemma importKeys_fresh_public k r :
  checkKeyId k (keystore r) = None →
  ¬ holds (keystore r) (fingerprint k) →
  keystore (importKeys [mkCandidate public (armor k)] r).1
  = mkKeyStore (publicKeys (keystore r) ++ [k]) (privateKeys (keystore r))
  ∧ (importKeys [mkCandidate public (armor k)] r).2
    = [mkResult success (key_import_public_success k)]
  ∧ primary_key (importKeys [mkCandidate public (armor k)] r).1
    = match privateKeys (keystore r) with
      | first :: _ => if hasPrimaryKey r then primary_key r else fingerprint first
      | [] => primary_key r
      end.
Proof.
  intros Hcheck Hno. apply getKeysForId_None with (deep := false) in Hno.
  unfold importKeys.
  change (importAll [mkCandidate public (armor k)] r)
    with (importOne (r, []) (mkCandidate public (armor k))).
  unfold importOne. cbn [c_type c_armored].
  rewrite (importPublicKey_single _ k) by done.
  unfold importPublicKey_body. rewrite Hcheck, Hno. simpl.
  destruct (privateKeys (keystore r)); [done|].
  unfold hasPrimaryKey. simpl. by destruct (bool_decide (primary_key r = "")).
Qed.

(** X8.  Importing a public key whose fingerprint the key store does not
    hold and that passes the key-id check, then removing that fingerprint
    as a public key, gives back the key store as it was before the import:
    the import appends the key to the public collection and reports one
    success, the removal succeeds, and the storage records then hold the
    armored keys of the original collections. *)
Theorem importKeys_then_removeKey (k : Key) (r : Keyring) :
  checkKeyId k (keystore r) = None →
  ¬ holds (keystore r) (fingerprint k) →
  let imported := importKeys [mkCandidate public (armor k)] r in
  imported.2 = [mkResult success (key_import_public_success k)]
  ∧ publicKeys (keystore imported.1) = publicKeys (keystore r) ++ [k]
  ∧ ∃ r', removeKey (fingerprint k) public imported.1 = Some r'
          ∧ keystore r' = keystore r
          ∧ storedPublic r' = map armor (publicKeys (keystore r))
          ∧ storedPrivate r' = map armor (privateKeys (keystore r)).
Proof.
  intros Hcheck Hno imported. subst imported.
  destruct (importKeys_fresh_public k r Hcheck Hno) as (Hks & Hres & _).
  split; [done|]. split; [by rewrite Hks|].
  assert (fingerprint k ∉ fingerprintsOf (publicKeys (keystore r))) as Hpub.
  { intros ?. apply Hno. by left. }
  destruct (removeKey_public_found (fingerprint k) k
              (importKeys [mkCandidate public (armor k)] r).1)
    as (r' & Hremove & Hks' & Hsp & Hss & _).
  { rewrite Hks. simpl. rewrite getForId_app.
    rewrite (proj2 (getForId_None_iff _ _) Hpub). simpl. by rewrite decide_True. }
  exists r'. split; [done|].
  rewrite Hks', Hsp, Hss, Hks. simpl. rewrite removeForId_app_absent by done.
  split; [by destruct (keystore r)|done].
Qed.

Lemma importKeys_then_removeKey_witness :
  ∃ r', removeKey "b2" public
          (importKeys [mkCandidate public (armor bob)]
                      (keyringOf [alice] [carol] "c3")).1 = Some r'
        ∧ keystore r' = mkKeyStore [alice] [carol].
Proof.
  destruct (importKeys_then_removeKey bob (keyringOf [alice] [carol] "c3"))
    as (_ & _ & r' & Hremove & Hks & _).
  - reflexivity.
  - intros [H|H]; apply list_elem_of_In in H; vm_compute in H;
      by destruct H as [?|[]].
  - exists r'. by split.
Defined.

(** ** Importing a batch again *)

(** X9.  Importing a batch of public candidates a second time changes no
    key: when the first import rejects no candidate, the key store after
    the second import is the one the first import left. *)
Theorem importKeys_public_again (cs : list Candidate) (r : Keyring) :
  Forall (λ c, c_type c = public) cs →
  (∀ m, m ∈ (importKeys cs r).2 → ¬ rejected m) →
  keystore (importKeys cs (importKeys cs r).1).1 = keystore (importKeys cs r).1.
Proof.
  intros Hpublic Hnone.
  destruct (importKeys_result cs r) as [Hres Hks]. rewrite Hres in Hnone.
  set (imported := foldl (λ ks k, absorbPublic k ks) (keystore r) (candidateKeys cs)).
  assert (keystore (importKeys cs r).1 = imported) as Himported.
  { rewrite Hks. unfold importAll in *. rewrite sortPublicFirst_public in * by done.
    by rewrite importLoop_public_ok. }
  destruct (importKeys_result cs (importKeys cs r).1) as [_ ->].
  rewrite Himported. unfold importAll. rewrite sortPublicFirst_public by done.
  apply (importLoop_public_inv (λ ks, ks = imported)); [done|done|].
  intros k ks Hk ->. apply settled_absorbPublic. by apply absorbAll_settled.
Qed.

Lemma importKeys_public_again_witness :
  let cs := [mkCandidate public (armor bob); mkCandidate public (armor alice)] in
  let r := keyringOf [alice] [carol] "c3" in
  keystore (importKeys cs (importKeys cs r).1).1 = keystore (importKeys cs r).1.
Proof.
  intros cs r. apply importKeys_public_again.
  - subst cs. repeat first [apply List.Forall_nil | apply List.Forall_cons; [done|]].
  - intros m Hm. apply list_elem_of_In in Hm. vm_compute in Hm.
    intros [e He]. by destruct Hm as [<-|[<-|[]]].
Defined.

(** ** The payload, encoded and decoded *)

Lemma buildSyncData_inserted_lookup changeLog keyStore fpr :
  insertedAt <$> insertedKeys (buildSyncData changeLog keyStore) !! fpr
  = match changeLog !! fpr with
    | Some (mkEntry INSERT t) =>
        if decide (fpr ∈ fingerprintsOf (exportedKeys keyStore)) then Some t else None
    | _ => None
    end.
Proof.
  rewrite buildSyncData_insertedKeys.
  destruct (insertedKeys _ !! fpr) as [i|] eqn:Hi; simpl.
  - apply convertAll_only_inserts in Hi as [Hi|(k & Hk & <- & _ & Hlog)]; [done|].
    rewrite Hlog. rewrite decide_True; [done|].
    unfold fingerprintsOf. apply list_elem_of_fmap. by exists k.
  - destruct (changeLog !! fpr) as [[[] t]|] eqn:Hlog; try done.
    case_decide as Hin; [|done]. exfalso.
    unfold fingerprintsOf in Hin. apply list_elem_of_fmap in Hin as (k & -> & Hk).
    destruct (convertAll_exports changeLog _ (mkSyncData ∅ ∅) k t Hk Hlog)
      as (k' & _ & _ & Hsome).
    by rewrite Hsome in Hi.
Qed.

(** X11.  A message that [encryptSyncMessage] builds with a key is decoded
    by [decryptSyncMessage] with the same key, and the change log that
    comes back is the pending one restricted to what a payload carries:
    every DELETE entry comes back with its time, an INSERT entry comes back
    with its time when the key store holds a key of the fingerprint and is
    dropped otherwise, and UPDATE entries are dropped.  Every candidate
    that comes back is labelled public and is the armored form of a key
    whose entry is an INSERT: a key of the public collection as the
    collection holds it, or the public form of a key of the private
    collection. *)
Theorem encryptSyncMessage_decryptSyncMessage (key : Key) (changeLog : ChangeLog)
    (keyStore : KeyStore) (message : SyncMessage) :
  encryptSyncMessage key changeLog keyStore = Some message →
  ∃ packet,
    decryptSyncMessage key message = inr packet
    ∧ (∀ fpr,
         sp_changeLog packet !! fpr
         = match changeLog !! fpr with
           | Some (mkEntry DELETE t) => Some (mkEntry DELETE t)
           | Some (mkEntry INSERT t) =>
               if decide (fpr ∈ fingerprintsOf (exportedKeys keyStore))
               then Some (mkEntry INSERT t) else None
           | _ => None
           end)
    ∧ (∀ c, c ∈ sp_keys packet →
         ∃ k t, changeLog !! fingerprint k = Some (mkEntry INSERT t)
                ∧ c = mkCandidate public (armor k)
                ∧ (k ∈ publicKeys keyStore
                   ∨ ∃ privKey, privKey ∈ privateKeys keyStore
                                ∧ k = toPublic privKey)).
Proof.
  unfold encryptSyncMessage, openpgp_encrypt. intros Henc.
  destruct (encryptionKeyId key) as [kid|] eqn:Hkid; [|done].
  destruct (secret key) as [sec|] eqn:Hsec; [|done].
  destruct (signingKeyId key) as [sid|] eqn:Hsid; [|done].
  injection Henc as <-.
  exists (mergeSyncData (buildSyncData changeLog keyStore)).
  split; [|split].
  - unfold decryptSyncMessage, openpgp_decrypt. rewrite Hsec, Hkid. simpl.
    rewrite decide_True by apply list_elem_of_here. simpl.
    rewrite Hsid. by rewrite decide_True.
  - intros fpr. rewrite mergeSyncData_changeLog, buildSyncData_deletedKeys.
    pose proof (buildSyncData_inserted_lookup changeLog keyStore fpr) as Hins.
    destruct (changeLog !! fpr) as [[[] t]|] eqn:Hlog; simpl in *.
    + destruct (insertedKeys _ !! fpr) as [i|]; simpl in *;
        case_decide; by simplify_eq.
    + done.
    + by destruct (insertedKeys _ !! fpr).
    + by destruct (insertedKeys _ !! fpr).
  - intros c (fpr & i & Hi & ->)%mergeSyncData_keys_elem.
    rewrite buildSyncData_insertedKeys in Hi.
    apply convertAll_only_inserts in Hi as [Hi|(k & Hk & <- & Harm & Hlog)]; [done|].
    exists k, (insertedAt i). rewrite Harm. do 2 (split; [done|]).
    apply elem_of_app in Hk as [?|Hk]; [by left|].
    apply list_elem_of_fmap in Hk as (privKey & -> & ?). right. by exists privKey.
Qed.

Lemma encryptSyncMessage_decryptSyncMessage_witness :
  ∃ message packet,
    encryptSyncMessage carol {[ "a1" := mkEntry INSERT 5; "b2" := mkEntry DELETE 7 ]}
                       (mkKeyStore [alice] [carol]) = Some message
    ∧ decryptSyncMessage carol message = inr packet
    ∧ sp_changeLog packet !! "b2" = Some (mkEntry DELETE 7).
Proof.
  eexists.
  edestruct (encryptSyncMessage_decryptSyncMessage carol
               {[ "a1" := mkEntry INSERT 5; "b2" := mkEntry DELETE 7 ]}
               (mkKeyStore [alice] [carol])) as (packet & Hdec & Hlog & _);
    [reflexivity|].
  exists packet. split; [reflexivity|]. split; [done|].
  by rewrite Hlog.
Defined.

(** X12.  A payload that [encryptSyncMessage] builds keeps the invariant of
    a payload, whatever the pending change log and the key store: the text
    of the message is the serialised payload, and no fingerprint is in both
    of its maps. *)
Theorem encryptSyncMessage_disjoint (key : Key) (changeLog : ChangeLog)
    (keyStore : KeyStore) (message : SyncMessage) :
  encryptSyncMessage key changeLog keyStore = Some message →
  ∃ syncData,
    JSON_parse (plaintext message) = Some syncData
    ∧ ∀ fpr, ¬ (is_Some (insertedKeys syncData !! fpr)
                ∧ is_Some (deletedKeys syncData !! fpr)).
Proof.
  unfold encryptSyncMessage, openpgp_encrypt. intros Henc.
  destruct (encryptionKeyId key), (secret key), (signingKeyId key); try done.
  injection Henc as <-. exists (buildSyncData changeLog keyStore).
  split; [done|]. intros fpr [[i Hi] [d Hd]].
  destruct (buildSyncData_wellFormed changeLog keyStore fpr); congruence.
Qed.

Lemma encryptSyncMessage_disjoint_witness :
  ∃ message syncData,
    encryptSyncMessage carol {[ "a1" := mkEntry DELETE 5 ]}
                       (mkKeyStore [alice] [carol]) = Some message
    ∧ JSON_parse (plaintext message) = Some syncData
    ∧ ¬ (is_Some (insertedKeys syncData !! "a1")
         ∧ is_Some (deletedKeys syncData !! "a1")).
Proof.
  eexists.
  edestruct (encryptSyncMessage_disjoint carol {[ "a1" := mkEntry DELETE 5 ]}
               (mkKeyStore [alice] [carol])) as (syncData & Hparse & Hdis);
    [reflexivity|].
  exists syncData. split; [reflexivity|]. split; [done|]. apply Hdis.
Defined.

(** ** key.js: user ids, dates and the order of keys *)

Lemma firstUserId_head users : firstUserId users = head (omap id users).
Proof. induction users as [|[u|] users IH]; simpl; done. Qed.

(** X13.  [getUserId] returns the user id of the primary user when the key
    has one.  Otherwise the outcome depends only on whether the second
    argument is given, not on its value: with any second argument (also
    [true]) it is the first user id that the key carries, or the
    placeholder when it carries none; without a second argument it is the
    placeholder even when the key carries user ids. *)
Theorem getUserId_cases (key : KeyUsers) (validityCheck : option bool) :
  getUserId key validityCheck
  = match getPrimaryUser key, validityCheck with
    | Some userid, _ => userid
    | None, Some _ => default keygrid_invalid_userid (head (omap id (users key)))
    | None, None => keygrid_invalid_userid
    end
  ∧ getUserId key (Some true) = getUserId key (Some false)
  ∧ (∀ b, getPrimaryUser key = None → omap id (users key) ≠ [] →
          getUserId key (Some b) ∈ omap id (users key)).
Proof.
  assert (getUserId key validityCheck
          = match getPrimaryUser key, validityCheck with
            | Some userid, _ => userid
            | None, Some _ =>
                default keygrid_invalid_userid (head (omap id (users key)))
            | None, None => keygrid_invalid_userid
            end) as Hcases.
  { unfold getUserId. rewrite firstUserId_head.
    destruct (getPrimaryUser key), validityCheck; simpl; try done;
      by destruct (head (omap id (users key))). }
  split; [done|]. split; [done|].
  intros b Hprimary Hsome. unfold getUserId. rewrite firstUserId_head, Hprimary.
  simpl. destruct (omap id (users key)) as [|u rest]; [done|]. by left.
Qed.

Lemma getUserId_cases_witness :
  getUserId (mkKeyUsers None [None; Some "Ann <ann@example.org>"]) (Some true)
  ∈ omap id [None; Some "Ann <ann@example.org>"]
  ∧ getUserId (mkKeyUsers None [None; Some "Ann <ann@example.org>"]) None
    = keygrid_invalid_userid.
Proof.
  destruct (getUserId_cases (mkKeyUsers None [None; Some "Ann <ann@example.org>"])
                            None) as (Hcases & _ & Hin).
  split; [by apply Hin|]. by rewrite Hcases.
Defined.

Lemma getLastModifiedDate_from (start : Z) (packets : list (option Z)) :
  let result :=
    foldl (fun lastModified created =>
             match created with
             | Some created =>
                 if created >? lastModified then created else lastModified
             | None => lastModified
             end) start packets in
  start ≤ result
  ∧ (∀ created, Some created ∈ packets → created ≤ result)
  ∧ (result = start ∨ Some result ∈ packets).
Proof.
  revert start. induction packets as [|[c|] packets IH]; intros start; simpl.
  - split; [lia|]. split; [|by left]. by intros ? ?%elem_of_nil.
  - destruct (Z.gtb_spec c start) as [Hgt|Hle].
    + destruct (IH c) as (Hge & Hall & Hsome). split; [lia|]. split.
      * intros created [Heq|Hin]%elem_of_cons; [by simplify_eq|by apply Hall].
      * right. destruct Hsome as [->|Hin]; [by left|by right].
    + destruct (IH start) as (Hge & Hall & Hsome). split; [done|]. split.
      * intros created [Heq|Hin]%elem_of_cons; [simplify_eq; lia|by apply Hall].
      * destruct Hsome as [?|Hin]; [by left|right; by right].
  - destruct (IH start) as (Hge & Hall & Hsome). split; [done|]. split.
    + intros created [Heq|Hin]%elem_of_cons; [done|by apply Hall].
    + destruct Hsome as [?|Hin]; [by left|right; by right].
Qed.

(** X14.  [getLastModifiedDate] returns the latest of the epoch and the
    creation dates of the packets: the result is not before the epoch nor
    before any packet's creation date, and it is the epoch itself or the
    creation date of one of the packets.  A key none of whose packets has a
    date after the epoch gets the epoch. *)
Theorem getLastModifiedDate_latest (packets : list (option Z)) :
  0 ≤ getLastModifiedDate packets
  ∧ (∀ created, Some created ∈ packets → created ≤ getLastModifiedDate packets)
  ∧ (getLastModifiedDate packets = 0
     ∨ Some (getLastModifiedDate packets) ∈ packets)
  ∧ ((∀ created, Some created ∈ packets → created ≤ 0) →
     getLastModifiedDate packets = 0).
Proof.
  destruct (getLastModifiedDate_from 0 packets) as (Hge & Hall & Hsome).
  split; [done|]. split; [done|]. split; [done|].
  intros Hold. destruct Hsome as [?|Hin]; [done|].
  apply Hold in Hin. unfold getLastModifiedDate in *. lia.
Qed.

Lemma getLastModifiedDate_latest_witness :
  getLastModifiedDate [Some (-5); None; Some (-3)] = 0.
Proof.
  apply getLastModifiedDate_latest.
  intros created Hin. apply list_elem_of_In in Hin. simpl in Hin.
  destruct Hin as [?|[?|[?|[]]]]; simplify_eq; lia.
Defined.

Lemma compareKeys_ranksBefore d a b :
  compareKeys d a b ≤ 0 ↔ ranksBefore d a b.
Proof.
  unfold compareKeys, ranksBefore.
  destruct (decide (d = "")) as [->|Hd].
  { rewrite !bool_decide_eq_true_2 by done. simpl. split.
    - intros ?. right. split; [by left|lia].
    - intros [[? _]|[_ ?]]; [done|lia]. }
  rewrite !(bool_decide_eq_false_2 (d = "")) by done. simpl.
  destruct (decide (d = fingerprint a)) as [Ha|Ha].
  { rewrite (bool_decide_eq_true_2 _ Ha). split; [|lia]. intros _. by left. }
  rewrite (bool_decide_eq_false_2 _ Ha).
  destruct (decide (d = fingerprint b)) as [Hb|Hb].
  { rewrite (bool_decide_eq_true_2 _ Hb). split; [lia|].
    intros [[_ ?]|[[?|?] _]]; congruence. }
  rewrite (bool_decide_eq_false_2 _ Hb). split.
  - intros ?. right. split; [right; congruence|lia].
  - intros [[_ ?]|[_ ?]]; [congruence|lia].
Qed.

Lemma ranksBefore_total d a b : ¬ ranksBefore d a b → ranksBefore d b a.
Proof.
  unfold ranksBefore. intros Hnot.
  destruct (decide (d = "")) as [->|Hd].
  - right. split; [by left|].
    destruct (decide (created b ≤ created a)); [|lia].
    exfalso. apply Hnot. right. by split; [left|].
  - destruct (decide (fingerprint b = d)) as [Hb|Hb]; [by left|].
    destruct (decide (fingerprint a = d)) as [Ha|Ha]; [exfalso; apply Hnot; by left|].
    right. split; [by right|].
    destruct (decide (created b ≤ created a)); [|lia].
    exfalso. apply Hnot. right. by split; [right|].
Qed.

Lemma ranksBefore_trans d a b c :
  ranksBefore d a b → ranksBefore d b c → ranksBefore d a c.
Proof.
  unfold ranksBefore. intros [Ha|[Hb Hab]] [Hb'|[Hc Hbc]].
  - by left.
  - by left.
  - destruct Hb' as [? ?]. destruct Hb as [?|?]; done.
  - right. split; [done|lia].
Qed.

Lemma insertBy_Permutation {A} (comparefn : A → A → Z) x l :
  insertBy comparefn x l ≡ₚ x :: l.
Proof.
  induction l as [|y l IH]; simpl; [done|].
  destruct (comparefn x y <=? 0); [done|].
  rewrite IH. apply Permutation_swap.
Qed.

Lemma Array_sort_Permutation {A} (comparefn : A → A → Z) l :
  Array_sort comparefn l ≡ₚ l.
Proof.
  unfold Array_sort. induction l as [|x l IH]; simpl; [done|].
  by rewrite insertBy_Permutation, IH.
Qed.

Lemma insertBy_sorted d x l :
  StronglySorted (ranksBefore d) l →
  StronglySorted (ranksBefore d) (insertBy (compareKeys d) x l).
Proof.
  induction l as [|y l IH]; simpl; intros Hsorted.
  - apply SSorted_cons; [apply SSorted_nil|apply List.Forall_nil].
  - apply StronglySorted_inv in Hsorted as [Hl Hy].
    destruct (Z.leb_spec (compareKeys d x y) 0) as [Hle|Hgt].
    + apply compareKeys_ranksBefore in Hle.
      apply SSorted_cons; [by apply SSorted_cons|].
      apply List.Forall_cons; [done|].
      eapply List.Forall_impl; [|exact Hy].
      intros z Hz. by eapply ranksBefore_trans.
    + apply SSorted_cons; [by apply IH|].
      apply Forall_forall. intros z Hz.
      rewrite insertBy_Permutation in Hz.
      apply elem_of_cons in Hz as [->|Hz].
      * apply ranksBefore_total. rewrite <- compareKeys_ranksBefore. lia.
      * by eapply (proj1 (Forall_forall _ _) Hy).
Qed.

Lemma fingerprint_unique (keys : list Key) a b :
  NoDup (fingerprintsOf keys) → a ∈ keys → b ∈ keys →
  fingerprint a = fingerprint b → a = b.
Proof.
  unfold fingerprintsOf. induction keys as [|k keys IH]; csimpl; intros Hnd Ha Hb Heq.
  - by apply elem_of_nil in Ha.
  - apply NoDup_cons in Hnd as [Hk Hnd].
    apply elem_of_cons in Ha as [->|Ha]; apply elem_of_cons in Hb as [->|Hb].
    + done.
    + exfalso. apply Hk. rewrite Heq. apply list_elem_of_fmap. by exists b.
    + exfalso. apply Hk. rewrite <- Heq. apply list_elem_of_fmap. by exists a.
    + by apply IH.
Qed.

(** X15.  [sortKeysByCreationDate] reorders the keys without losing or
    repeating one, and the order it leaves is: the key with the default
    fingerprint first, then the other keys from the newest to the oldest.
    (No two keys share a fingerprint, which makes the comparison function
    consistent.) *)
Theorem sortKeysByCreationDate_order (keys : list Key) (defaultKeyFpr : string) :
  NoDup (fingerprintsOf keys) →
  sortKeysByCreationDate keys defaultKeyFpr ≡ₚ keys
  ∧ StronglySorted (ranksBefore defaultKeyFpr)
                   (sortKeysByCreationDate keys defaultKeyFpr)
  ∧ (∀ k, k ∈ keys → defaultKeyFpr ≠ "" → fingerprint k = defaultKeyFpr →
          head (sortKeysByCreationDate keys defaultKeyFpr) = Some k)
  ∧ (∀ a b rest, defaultKeyFpr ∉ fingerprintsOf keys →
          sortKeysByCreationDate keys defaultKeyFpr = a :: rest → b ∈ rest →
          created b ≤ created a).
Proof.
  intros Hnd. unfold sortKeysByCreationDate.
  assert (StronglySorted (ranksBefore defaultKeyFpr)
            (Array_sort (compareKeys defaultKeyFpr) keys)) as Hsorted.
  { unfold Array_sort. induction keys as [|k keys IH]; simpl; [apply SSorted_nil|].
    apply insertBy_sorted, IH. unfold fingerprintsOf in Hnd. csimpl in Hnd.
    by apply NoDup_cons in Hnd as [_ ?]. }
  pose proof (Array_sort_Permutation (compareKeys defaultKeyFpr) keys) as Hperm.
  split; [done|]. split; [done|]. split.
  - intros k Hk Hd Hfpr.
    destruct (Array_sort (compareKeys defaultKeyFpr) keys) as [|h sorted] eqn:Hs.
    { rewrite <- Hperm in Hk. by apply elem_of_nil in Hk. }
    simpl. f_equal. apply StronglySorted_inv in Hsorted as [_ Hh].
    rewrite <- Hperm in Hk. apply elem_of_cons in Hk as [->|Hk]; [done|].
    pose proof (proj1 (Forall_forall _ _) Hh k Hk) as [[_ Hhd]|[[?|?] _]]; try done.
    apply (fingerprint_unique keys); [done| | |congruence].
    + rewrite <- Hperm. by left.
    + rewrite <- Hperm. by right.
  - intros a b rest Hno Hs Hb. rewrite Hs in Hsorted, Hperm.
    apply StronglySorted_inv in Hsorted as [_ Ha].
    pose proof (proj1 (Forall_forall _ _) Ha b Hb) as [[_ Hhd]|[_ ?]]; [|done].
    exfalso. apply Hno. rewrite <- Hhd. unfold fingerprintsOf.
    apply list_elem_of_fmap. exists a. split; [done|]. rewrite <- Hperm. by left.
Qed.

Lemma sortKeysByCreationDate_order_witness :
  sortKeysByCreationDate [alice; bob; carol] "a1" ≡ₚ [alice; bob; carol]
  ∧ head (sortKeysByCreationDate [alice; bob; carol] "a1") = Some alice.
Proof.
  destruct (sortKeysByCreationDate_order [alice; bob; carol] "a1")
    as (Hperm & _ & Hhead & _).
  - apply (bool_decide_unpack _). by vm_compute.
  - split; [done|]. apply Hhead; [by left|done|done].
Defined.

(** ** pgpModel.js: the signers of a cleartext message *)

Lemma getKeysForId_first ks id deep :
  match getKeysForId ks id deep with
  | Some (first :: _) =>
      first ∈ publicKeys ks ++ privateKeys ks ∧ matchesId id deep first = true
  | Some [] => False
  | None => ∀ key, key ∈ publicKeys ks ++ privateKeys ks → matchesId id deep key = false
  end.
Proof.
  unfold getKeysForId. rewrite <- List.filter_app.
  destruct (List.filter (matchesId id deep) (publicKeys ks ++ privateKeys ks))
    as [|first rest] eqn:Hfilter.
  - intros key Hkey. destruct (matchesId id deep key) eqn:Hm; [|done].
    assert (List.In key []) as []. rewrite <- Hfilter.
    apply filter_In. split; [by apply list_elem_of_In|done].
  - assert (List.In first (first :: rest)) as Hin by by left.
    rewrite <- Hfilter in Hin. apply filter_In in Hin as [Hin Hm].
    split; [by apply list_elem_of_In|done].
Qed.

Lemma readSigner_spec (keyUsers : Key → KeyUsers) ks keyid :
  signer_keyid (readSigner keyUsers ks keyid) = keyid
  ∧ match signer_key (readSigner keyUsers ks keyid) with
    | Some key =>
        key ∈ publicKeys ks ++ privateKeys ks ∧ answersTo key keyid
        ∧ signer_userid (readSigner keyUsers ks keyid)
          = Some (getUserId (keyUsers key) None)
    | None =>
        signer_userid (readSigner keyUsers ks keyid) = None
        ∧ ∀ key, key ∈ publicKeys ks ++ privateKeys ks → ¬ answersTo key keyid
    end.
Proof.
  split; [done|]. unfold readSigner.
  pose proof (getKeysForId_first ks (KeyID keyid) true) as Hfirst.
  destruct (getKeysForId ks (KeyID keyid) true) as [[|first rest]|]; simpl.
  - done.
  - destruct Hfirst as [Hin Hm]. by apply matchesId_keyID in Hm.
  - split; [done|]. intros key Hkey Hans. apply matchesId_keyID in Hans.
    by rewrite (Hfirst key Hkey) in Hans.
Qed.

Lemma readSigner_keyids (keyUsers : Key → KeyUsers) ks ids :
  map signer_keyid (map (readSigner keyUsers ks) ids) = ids.
Proof. induction ids as [|i ids IH]; [done|]. rewrite !map_cons. by f_equal. Qed.

(** X16.  [readCleartextMessage] returns one signer per signature of the
    message, in order and never none: a message without signature is
    refused.  A signer carries a key exactly when the key store has a key
    that answers to the signer's key id (as a primary key id or a subkey
    id); the key is then one of the key store, and the signer's user id is
    the one [getUserId] reads from it.  A signer without key has no user
    id. *)
Theorem readCleartextMessage_signers
    (cleartext_readArmored : string → string + CleartextMessage)
    (keyUsers : Key → KeyUsers)
    (armoredText : string) (ks : KeyStore)
    (message : CleartextMessage) (signers : list Signer) :
  readCleartextMessage cleartext_readArmored keyUsers armoredText ks
  = inr (message, signers) →
  cleartext_readArmored armoredText = inr message
  ∧ signers ≠ []
  ∧ map signer_keyid signers = getSigningKeyIds message
  ∧ ∀ signer, signer ∈ signers →
      match signer_key signer with
      | Some key =>
          key ∈ publicKeys ks ++ privateKeys ks
          ∧ answersTo key (signer_keyid signer)
          ∧ signer_userid signer = Some (getUserId (keyUsers key) None)
      | None =>
          signer_userid signer = None
          ∧ ∀ key, key ∈ publicKeys ks ++ privateKeys ks →
                   ¬ answersTo key (signer_keyid signer)
      end.
Proof.
  unfold readCleartextMessage. intros Hread.
  destruct (cleartext_readArmored armoredText) as [e|m]; [done|].
  destruct (getSigningKeyIds m) as [|keyid ids] eqn:Hids; [done|].
  simpl in Hread. injection Hread as <- <-. rewrite Hids.
  split; [done|]. split; [done|]. split.
  - apply (readSigner_keyids keyUsers ks (keyid :: ids)).
  - intros signer Hin.
    change (signer ∈ map (readSigner keyUsers ks) (keyid :: ids)) in Hin.
    apply list_elem_of_fmap in Hin as (i & -> & _).
    destruct (readSigner_spec keyUsers ks i) as [Hid Hkey]. by rewrite Hid.
Qed.

Lemma readCleartextMessage_signers_witness :
  let readArmored := λ _ : string, inr (mkCleartext "hello" ["0a"; "ff"]) in
  let keyUsers := λ k : Key, mkKeyUsers (head (certifications k)) [] in
  ∃ signers,
    readCleartextMessage readArmored keyUsers "text" (mkKeyStore [alice] [carol])
    = inr (mkCleartext "hello" ["0a"; "ff"], signers)
    ∧ map signer_keyid signers = ["0a"; "ff"].
Proof.
  intros readArmored keyUsers. eexists.
  split; [reflexivity|].
  by edestruct (readCleartextMessage_signers readArmored keyUsers "text"
                  (mkKeyStore [alice] [carol])) as (_ & _ & -> & _).
Defined.

Lemma verifyMessage_inr
    (openpgp_verify : CleartextMessage → list Key → string + list Signature)
    message signers result :
  verifyMessage openpgp_verify message signers = inr result →
  ∃ signatures,
    openpgp_verify message (omap signer_key signers) = inr signatures
    ∧ result
      = map (fun signer =>
               mkVerifiedSigner
                 (signer_keyid signer) (signer_userid signer)
                 (match signer_key signer with
                  | None => None
                  | Some _ =>
                      Some (existsb
                              (fun verifiedSig =>
                                 bool_decide (signer_keyid signer = sig_keyid verifiedSig)
                                 && bool_decide (sig_valid verifiedSig = Some true))
                              signatures)
                  end))
            signers.
Proof.
  unfold verifyMessage. destruct (openpgp_verify _ _) as [e|signatures]; [done|].
  intros [= <-]. by exists signatures.
Qed.

Lemma existsb_signature keyid (signatures : list Signature) :
  existsb (fun verifiedSig =>
             bool_decide (keyid = sig_keyid verifiedSig)
             && bool_decide (sig_valid verifiedSig = Some true)) signatures = true
  ↔ ∃ sig, sig ∈ signatures ∧ sig_keyid sig = keyid ∧ sig_valid sig = Some true.
Proof.
  rewrite existsb_exists. split.
  - intros (sig & Hin & Hsig). apply andb_prop in Hsig as [H1 H2].
    apply bool_decide_eq_true in H1, H2. exists sig.
    split; [by apply list_elem_of_In|done].
  - intros (sig & Hin & Hid & Hvalid). exists sig.
    split; [by apply list_elem_of_In|].
    apply andb_true_intro. split; by apply bool_decide_eq_true.
Qed.

(** X17.  [verifyMessage] hands to the engine the keys of the signers that
    have one, and returns the signers in their order, each with its key id
    and user id unchanged.  A signer without key gets [valid = null],
    whatever the engine reports; a signer with a key gets a boolean, which
    is [true] exactly when the engine reports a valid signature of the
    signer's key id. *)
Theorem verifyMessage_valid
    (openpgp_verify : CleartextMessage → list Key → string + list Signature)
    (message : CleartextMessage) (signers : list Signer)
    (result : list VerifiedSigner) :
  verifyMessage openpgp_verify message signers = inr result →
  ∃ signatures,
    openpgp_verify message (omap signer_key signers) = inr signatures
    ∧ Forall2 (λ signer v,
         v_keyid v = signer_keyid signer
         ∧ v_userid v = signer_userid signer
         ∧ (signer_key signer = None → v_valid v = None)
         ∧ (is_Some (signer_key signer) → is_Some (v_valid v))
         ∧ (v_valid v = Some true
            ↔ is_Some (signer_key signer)
              ∧ ∃ sig, sig ∈ signatures
                       ∧ sig_keyid sig = signer_keyid signer
                       ∧ sig_valid sig = Some true))
        signers result.
Proof.
  intros (signatures & Hengine & ->)%verifyMessage_inr.
  exists signatures. split; [done|]. clear Hengine.
  induction signers as [|signer signers IH]; [constructor|].
  rewrite map_cons. constructor; [|apply IH]. simpl.
  split; [done|]. split; [done|].
  destruct (signer_key signer) as [key|].
  - split; [done|]. split; [by eauto|].
    rewrite <- existsb_signature. split.
    + intros [= Hvalid]. by eauto.
    + intros [_ ->]. done.
  - split; [done|]. split; [by intros [? ?]|].
    split; [done|]. by intros [[? ?] _].
Qed.

Lemma verifyMessage_valid_witness :
  let engine := λ (_ : CleartextMessage) (_ : list Key),
                  inr [mkSig "0a" (Some true); mkSig "ff" (Some true)] in
  ∃ result,
    verifyMessage engine (mkCleartext "hello" ["0a"; "ff"])
                  [mkSigner "0a" (Some alice) (Some "alice");
                   mkSigner "ff" None None] = inr result
    ∧ v_valid <$> result = [Some true; None].
Proof.
  intros engine. eexists. split; [reflexivity|].
  edestruct (verifyMessage_valid engine (mkCleartext "hello" ["0a"; "ff"])
               [mkSigner "0a" (Some alice) (Some "alice"); mkSigner "ff" None None])
    as (signatures & _ & _); [reflexivity|].
  reflexivity.
Defined.

(** X18.  Reading a cleartext message and verifying it with the signers
    that the reading returns: the engine is handed keys of the key store
    only, one result comes back per signature of the message, and no signer
    is reported valid unless the key store holds a key that answers to the
    signer's key id and the engine reports a valid signature of that key
    id. *)
Theorem readCleartextMessage_verifyMessage
    (cleartext_readArmored : string → string + CleartextMessage)
    (openpgp_verify : CleartextMessage → list Key → string + list Signature)
    (keyUsers : Key → KeyUsers)
    (armoredText : string) (ks : KeyStore)
    (message : CleartextMessage) (signers : list Signer)
    (result : list VerifiedSigner) :
  readCleartextMessage cleartext_readArmored keyUsers armoredText ks
  = inr (message, signers) →
  verifyMessage openpgp_verify message signers = inr result →
  (∀ key, key ∈ omap signer_key signers → key ∈ publicKeys ks ++ privateKeys ks)
  ∧ map v_keyid result = getSigningKeyIds message
  ∧ ∀ v, v ∈ result → v_valid v = Some true →
      (∃ key, key ∈ publicKeys ks ++ privateKeys ks ∧ answersTo key (v_keyid v))
      ∧ ∃ signatures sig,
          openpgp_verify message (omap signer_key signers) = inr signatures
          ∧ sig ∈ signatures ∧ sig_keyid sig = v_keyid v
          ∧ sig_valid sig = Some true.
Proof.
  unfold readCleartextMessage. intros Hread Hverify.
  destruct (cleartext_readArmored armoredText) as [e|m]; [done|].
  destruct (length (getSigningKeyIds m) =? 0)%nat; [done|].
  injection Hread as <- <-.
  apply verifyMessage_inr in Hverify as (signatures & Hengine & ->).
  split; [|split].
  - intros key (signer & Hin & Hkey)%list_elem_of_omap.
    apply list_elem_of_fmap in Hin as (i & -> & _).
    destruct (readSigner_spec keyUsers ks i) as [_ Hspec].
    rewrite Hkey in Hspec. by destruct Hspec.
  - rewrite <- (readSigner_keyids keyUsers ks (getSigningKeyIds m)) at 2.
    by rewrite !map_map.
  - intros v Hv Hvalid.
    apply list_elem_of_fmap in Hv as (signer & -> & Hin). simpl in *.
    apply list_elem_of_fmap in Hin as (i & -> & _).
    destruct (readSigner_spec keyUsers ks i) as [Hid Hspec].
    destruct (signer_key (readSigner keyUsers ks i)) as [key|]; [|done].
    split.
    + exists key. rewrite Hid. by destruct Hspec as (? & ? & _).
    + injection Hvalid as Hvalid.
      apply existsb_signature in Hvalid as (sig & ? & ? & ?).
      by exists signatures, sig.
Qed.

Lemma readCleartextMessage_verifyMessage_witness :
  let readArmored := λ _ : string, inr (mkCleartext "hello" ["0a"; "ff"]) in
  let engine := λ (_ : CleartextMessage) (_ : list Key),
                  inr [mkSig "0a" (Some true); mkSig "ff" (Some true)] in
  let keyUsers := λ k : Key, mkKeyUsers (head (certifications k)) [] in
  ∃ signers result,
    readCleartextMessage readArmored keyUsers "text" (mkKeyStore [alice] [carol])
    = inr (mkCleartext "hello" ["0a"; "ff"], signers)
    ∧ verifyMessage engine (mkCleartext "hello" ["0a"; "ff"]) signers = inr result
    ∧ map v_keyid result = ["0a"; "ff"].
Proof.
  intros readArmored engine keyUsers. eexists. eexists.
  split; [reflexivity|]. split; [reflexivity|].
  by edestruct (readCleartextMessage_verifyMessage readArmored engine keyUsers "text"
                  (mkKeyStore [alice] [carol])) as (_ & -> & _).
Defined.

(** ** pgpModel.js: reading a message, decrypting and encrypting a file *)

Lemma string_append_nil_r (s : string) : (s ++ "")%string = s.
Proof.
  induction s as [|c s IH]; [done|].
  change (String c (s ++ "")%string = String c s). by rewrite IH.
Qed.

Lemma string_append_assoc (a b c : string) :
  ((a ++ b) ++ c)%string = (a ++ b ++ c)%string.
Proof.
  induction a as [|x a IH]; [done|].
  change (String x ((a ++ b) ++ c)%string = String x (a ++ b ++ c)%string).
  by rewrite IH.
Qed.

Lemma string_concat_cons (x : string) (l : list string) :
  String.concat "" (x :: l) = (x ++ String.concat "" l)%string.
Proof.
  destruct l; [|done].
  change (x = (x ++ "")%string). by rewrite string_append_nil_r.
Qed.

Section FileProperties.

Context {Msg Ring : Type}
        (openpgp_message_readArmored : string → string + Msg)
        (openpgp_message_read : string → string + Msg)
        (getEncryptionKeyIds : Msg → list string)
        (getKeyringWithPrivKey : list string → option Ring)
        (backend_decrypt : Ring → Msg → list string → string + DecryptedFile)
        (l10n : string → list string → string).

#[local] Abbreviation read_message :=
  (readMessage openpgp_message_readArmored openpgp_message_read).
#[local] Abbreviation decrypt_file :=
  (decryptFile openpgp_message_readArmored openpgp_message_read
               getEncryptionKeyIds getKeyringWithPrivKey backend_decrypt l10n).

Lemma prefix_nonempty (p s : string) :
  p ≠ EmptyString → String.prefix p s = true → s ≠ EmptyString.
Proof. intros Hp Hprefix ->. by destruct p. Qed.

(** What [decryptFile] makes of its file: the outcome of the reading. *)
Lemma decryptFile_reading (encryptedFile : EncryptedFile) :
  read_message
    (if String.prefix "-----BEGIN PGP MESSAGE-----" (ef_content encryptedFile)
     then Some (ef_content encryptedFile) else None)
    (if String.prefix "-----BEGIN PGP MESSAGE-----" (ef_content encryptedFile)
     then None else Some (ef_content encryptedFile))
  = if String.prefix "-----BEGIN PGP MESSAGE-----" (ef_content encryptedFile)
    then match openpgp_message_readArmored (ef_content encryptedFile) with
         | inr message => inr message
         | inl e => inl (ARMOR_PARSE_ERROR e)
         end
    else match openpgp_message_read (ef_content encryptedFile) with
         | inr message => inr message
         | inl e => inl (BINARY_PARSE_ERROR e)
         end.
Proof.
  destruct (String.prefix _ (ef_content encryptedFile)) eqn:Hprefix; [|done].
  apply prefix_nonempty in Hprefix; [|done].
  unfold readMessage. by destruct (ef_content encryptedFile).
Qed.

(** X19.  [readMessage] prefers the armored text: when it is given and not
    empty the binary is not looked at; an empty armored text counts as none,
    so that the binary is read; the error [No message to read] comes
    exactly when there is neither a non-empty armored text nor a binary.
    [decryptFile], which hands over the content as armored text when it
    starts with the armor header line and as binary otherwise, therefore
    never fails with that error, and it reports a parse error of the
    armored kind only for a content with the header line and one of the
    binary kind only for a content without. *)
Theorem readMessage_precedence (encryptedFile : EncryptedFile) :
  (∀ armoredText binary,
     armoredText ≠ EmptyString →
     read_message (Some armoredText) binary = read_message (Some armoredText) None)
  ∧ (∀ binary, read_message (Some EmptyString) binary = read_message None binary)
  ∧ (∀ armoredText binary,
       read_message armoredText binary = inl NoMessageToRead
       ↔ (armoredText = None ∨ armoredText = Some EmptyString) ∧ binary = None)
  ∧ decrypt_file encryptedFile ≠ inl (ReadFailed NoMessageToRead)
  ∧ (∀ e, decrypt_file encryptedFile = inl (ReadFailed (ARMOR_PARSE_ERROR e)) →
          String.prefix "-----BEGIN PGP MESSAGE-----" (ef_content encryptedFile) = true
          ∧ openpgp_message_readArmored (ef_content encryptedFile) = inl e)
  ∧ (∀ e, decrypt_file encryptedFile = inl (ReadFailed (BINARY_PARSE_ERROR e)) →
          String.prefix "-----BEGIN PGP MESSAGE-----" (ef_content encryptedFile) = false
          ∧ openpgp_message_read (ef_content encryptedFile) = inl e).
Proof.
  split; [|split; [|split]].
  - intros [|c rest] binary Hne; [done|]. done.
  - done.
  - intros armoredText binary. unfold readMessage. split.
    + destruct armoredText as [[|c rest]|], binary as [b|]; try done;
        try (destruct (openpgp_message_read b); done);
        try (destruct (openpgp_message_readArmored (String c rest)); done);
        intros _; split; auto.
    + intros [[->| ->] ->]; done.
  - assert (∀ e, decrypt_file encryptedFile = inl (ReadFailed e) →
                 read_message
                   (if String.prefix "-----BEGIN PGP MESSAGE-----"
                                     (ef_content encryptedFile)
                    then Some (ef_content encryptedFile) else None)
                   (if String.prefix "-----BEGIN PGP MESSAGE-----"
                                     (ef_content encryptedFile)
                    then None else Some (ef_content encryptedFile))
                 = inl e) as Hread.
    { intros e. unfold decryptFile.
      destruct (String.prefix _ (ef_content encryptedFile));
        (destruct (readMessage _ _ _ _) as [e'|message];
         [by intros [= ->]|]);
        destruct (getKeyringWithPrivKey _);
        try destruct (backend_decrypt _ _ _);
        try destruct (noKeyFoundError _ _); done. }
    split; [|split].
    + intros Hfail. apply Hread in Hfail. rewrite decryptFile_reading in Hfail.
      destruct (String.prefix _ (ef_content encryptedFile));
        [destruct (openpgp_message_readArmored _)|destruct (openpgp_message_read _)];
        done.
    + intros e Hfail. apply Hread in Hfail. rewrite decryptFile_reading in Hfail.
      destruct (String.prefix _ (ef_content encryptedFile));
        [destruct (openpgp_message_readArmored _)|destruct (openpgp_message_read _)];
        by simplify_eq.
    + intros e Hfail. apply Hread in Hfail. rewrite decryptFile_reading in Hfail.
      destruct (String.prefix _ (ef_content encryptedFile));
        [destruct (openpgp_message_readArmored _)|destruct (openpgp_message_read _)];
        by simplify_eq.
Qed.

Lemma noKeyFoundError_fold (errorMsg : string) (rest : list string) :
  foldl (fun errorMsg id =>
           (errorMsg ++ " " ++ l10n "word_or" [] ++ " " ++ toUpperCase id)%string)
        errorMsg rest
  = (errorMsg
     ++ String.concat ""
          (map (fun id => (" " ++ l10n "word_or" [] ++ " " ++ toUpperCase id)%string)
               rest))%string.
Proof.
  revert errorMsg. induction rest as [|id rest IH]; intros errorMsg.
  - simpl. by rewrite string_append_nil_r.
  - simpl foldl. rewrite IH, map_cons, string_concat_cons.
    by rewrite string_append_assoc.
Qed.

(** X20.  [noKeyFoundError] needs a first key id: for an empty list of
    encryption key ids its evaluation throws a [TypeError] and no error
    object is built.  Otherwise the error has the code [NO_KEY_FOUND] and
    its message names every key id, in order and in upper case: the
    message for the first id, then the word for or and the id for every
    further one.  So [decryptFile] of a message that names no encryption
    key id, when no keyring is found for it, ends in the [TypeError]. *)
Theorem noKeyFoundError_message (encryptedFile : EncryptedFile) :
  (∀ encryptionKeyIds,
     noKeyFoundError l10n encryptionKeyIds = None ↔ encryptionKeyIds = [])
  ∧ (∀ keyid rest,
       noKeyFoundError l10n (keyid :: rest)
       = Some (mkMveloError
                 (l10n "message_no_keys" [toUpperCase keyid]
                  ++ String.concat ""
                       (map (fun id => (" " ++ l10n "word_or" [] ++ " "
                                        ++ toUpperCase id)%string) rest))%string
                 "NO_KEY_FOUND"))
  ∧ (∀ message,
       read_message
         (if String.prefix "-----BEGIN PGP MESSAGE-----" (ef_content encryptedFile)
          then Some (ef_content encryptedFile) else None)
         (if String.prefix "-----BEGIN PGP MESSAGE-----" (ef_content encryptedFile)
          then None else Some (ef_content encryptedFile)) = inr message →
       getKeyringWithPrivKey (getEncryptionKeyIds message) = None →
       decrypt_file encryptedFile
       = match getEncryptionKeyIds message with
         | [] => inl NoKeyIdTypeError
         | ids => match noKeyFoundError l10n ids with
                  | Some e => inl (NoKeyFound e)
                  | None => inl NoKeyIdTypeError
                  end
         end).
Proof.
  split; [|split].
  - intros [|keyid rest]; simpl; split; done.
  - intros keyid rest. unfold noKeyFoundError. by rewrite noKeyFoundError_fold.
  - intros message Hread Hring. unfold decryptFile.
    destruct (String.prefix _ (ef_content encryptedFile));
      rewrite Hread, Hring; by destruct (getEncryptionKeyIds message).
Qed.

End FileProperties.

Lemma readMessage_precedence_witness :
  let readArmored := λ s : string, @inl string (list string) "bad armor" in
  let read := λ s : string, @inr string (list string) ["0c"] in
  readMessage readArmored read (Some EmptyString) (Some "bytes") = inr ["0c"].
Proof.
  intros readArmored read.
  destruct (readMessage_precedence (Ring := unit) readArmored read id (λ _, None)
              (λ _ _ _, inl "no backend") (λ _ _, EmptyString)
              (mkEncryptedFile "bytes" "file.gpg")) as (_ & Hempty & _).
  by rewrite Hempty.
Defined.

Lemma noKeyFoundError_message_witness :
  let l10n := λ (id : string) (args : list string),
                String.concat ":" (id :: args) in
  decryptFile (λ s : string, @inl string (list string) "bad armor")
              (λ s : string, @inr string (list string) ["0c"; "0d"])
              id (λ _, @None unit) (λ _ _ _, inl "no backend") l10n
              (mkEncryptedFile "bytes" "file.gpg")
  = inl (NoKeyFound (mkMveloError "message_no_keys:0C word_or 0D" "NO_KEY_FOUND")).
Proof.
  intros l10n.
  destruct (noKeyFoundError_message (Ring := unit)
              (λ s : string, @inl string (list string) "bad armor")
              (λ s : string, @inr string (list string) ["0c"; "0d"])
              id (λ _, None) (λ _ _ _, inl "no backend") l10n
              (mkEncryptedFile "bytes" "file.gpg")) as (_ & _ & Hfile).
  by rewrite (Hfile ["0c"; "0d"]).
Defined.

Section EncryptFileProperties.

Context {Encrypted : Type}
        (getKeyringById : string → string + KeyStore)
        (getKeysByIds : KeyStore → option (list string) → list Key)
        (keyUsers : Key → KeyUsers)
        (openpgp_encrypt_file : string → list Key → string → bool → string + Encrypted)
        (msg_data msg_packets : Encrypted → string)
        (l10n : string → list string → string).

(** X21.  [encryptFile] never resolves: whatever the file, the recipients
    and the engine, the promise is rejected with the message of
    [encrypt_error], and nothing is written to the log.  When keys are
    found for the recipients and the engine encrypts the file, the
    rejection comes from [logEncryption], which is handed the array of keys
    where it expects a keyring and calls [getKeysByIds] on it.  Handed a
    keyring and a source, [logEncryption] adds one entry to the log. *)
Theorem encryptFile_rejects (plainFile : PlainFile)
    (receipients : list Receipient) (armor : bool) (uiLog : UiLog) :
  (∃ e, encryptFile getKeyringById getKeysByIds keyUsers openpgp_encrypt_file
                    msg_data msg_packets l10n plainFile receipients armor uiLog
        = (uiLog, inl (l10n "encrypt_error" [e]))
        ∧ (∀ keys msg,
             receipientKeys getKeyringById receipients = inr keys → keys ≠ [] →
             openpgp_encrypt_file (pf_content plainFile) keys (pf_name plainFile) armor
             = inr msg →
             e = "keyring.getKeysByIds is not a function")
        ∧ (receipientKeys getKeyringById receipients = inr [] →
           e = "No key found for encryption"))
  ∧ (∀ source keystore keyIds,
       source ≠ EmptyString →
       ∃ message,
         logEncryption getKeysByIds keyUsers l10n source (KeyringObject keystore)
                       keyIds uiLog
         = inr (uiLog ++ [(source, message)])).
Proof.
  split.
  - unfold encryptFile.
    destruct (receipientKeys getKeyringById receipients) as [e|keys].
    { exists e. by split. }
    destruct keys as [|key keys].
    { eexists. split; [done|]. split; [by intros ? ? [= <-]|done]. }
    simpl. destruct (openpgp_encrypt_file _ _ _ _) as [e|msg] eqn:Hengine.
    + exists e. split; [done|]. split; [|done].
      intros ? ? [= <-] _ Hmsg. by rewrite Hengine in Hmsg.
    + eexists. split; [done|]. split; [|done]. done.
  - intros [|c source] keystore keyIds Hsource; [done|]. simpl. by eexists.
Qed.

End EncryptFileProperties.

Lemma encryptFile_rejects_witness :
  let getKeyringById := λ _ : string, @inr string KeyStore (mkKeyStore [alice] [carol]) in
  let engine := λ (content : string) (keys : list Key) (name : string) (armor : bool),
                  @inr string string content in
  let l10n := λ (id : string) (args : list string), String.concat ":" (id :: args) in
  encryptFile getKeyringById (λ _ _, []) (λ _, mkKeyUsers None []) engine id id l10n
              (mkPlainFile "data" "a.txt")
              [mkReceipient "local" (Fingerprint "a1")] true []
  = ([], inl "encrypt_error:keyring.getKeysByIds is not a function").
Proof.
  intros getKeyringById engine l10n.
  destruct (encryptFile_rejects getKeyringById (λ _ _, []) (λ _, mkKeyUsers None [])
              engine id id l10n (mkPlainFile "data" "a.txt")
              [mkReceipient "local" (Fingerprint "a1")] true [])
    as [(e & Hrejected & Hwhy & _) _].
  rewrite Hrejected. by rewrite (Hwhy [alice] "data").
Defined.

(** ** KeyringGPG: the import *)

Lemma KeyringGPG_mapKeys_ok state keys result :
  Forall (λ imported, KeyringGPG.gpg_userids (KeyringGPG.i_key imported) ≠ []) keys →
  KeyringGPG.mapKeys state keys result
  = (state.1 ++ KeyringGPG.removals keys,
     state.2 ++ map (λ imported, KeyringGPG.gpg_fingerprint (KeyringGPG.i_key imported)) keys,
     Some (result
           ++ map (λ imported,
                     KeyringGPG.successResult imported
                       (default "" (head (KeyringGPG.gpg_userids
                                            (KeyringGPG.i_key imported)))))
                  keys)).
Proof.
  revert state result. induction keys as [|k keys IH]; intros [calls fprs] result Hall.
  - simpl. by rewrite !app_nil_r.
  - apply Forall_cons in Hall as [Hk Hall]. simpl.
    destruct (KeyringGPG.gpg_userids (KeyringGPG.i_key k)) as [|userId rest] eqn:Hu;
      [done|].
    rewrite IH by done. simpl. by rewrite <- !app_assoc.
Qed.

Lemma KeyringGPG_mapKeys_throws state before k after result :
  Forall (λ imported, KeyringGPG.gpg_userids (KeyringGPG.i_key imported) ≠ []) before →
  KeyringGPG.gpg_userids (KeyringGPG.i_key k) = [] →
  KeyringGPG.mapKeys state (before ++ k :: after) result
  = (state.1 ++ KeyringGPG.removals (before ++ [k]),
     state.2 ++ map (λ imported, KeyringGPG.gpg_fingerprint (KeyringGPG.i_key imported))
                    (before ++ [k]),
     None).
Proof.
  revert state result.
  induction before as [|b before IH]; intros [calls fprs] result Hall Hk.
  - simpl. by rewrite Hk.
  - apply Forall_cons in Hall as [Hb Hall]. simpl.
    destruct (KeyringGPG.gpg_userids (KeyringGPG.i_key b)) as [|userId rest] eqn:Hu;
      [done|].
    rewrite IH by done. simpl. by rewrite <- !app_assoc.
Qed.

(** X22.  [importKeys] of the GnuPG keyring, when the key store accepts the
    joined armored text.  If every imported key has a user id, the key store
    is asked to forget each imported fingerprint (in lower case, in order)
    and then to add all imported fingerprints again, and the result holds
    one success per imported key, followed by exactly one error when the
    number of keys considered differs from the number imported (a smaller
    number included).  If an imported key has no user id, the import throws
    at that key: the key store has been asked to forget the fingerprints up
    to and including it, and is never asked to add them again. *)
Theorem KeyringGPG_importKeys_calls
    (keystore_importKeys : string → string + KeyringGPG.ImportOutcome)
    (armoredKeys : list KeyringGPG.ArmoredKey)
    (outcome : KeyringGPG.ImportOutcome) :
  let armored := join (String LF "") (map KeyringGPG.a_armored armoredKeys) in
  let keys := KeyringGPG.Keys outcome in
  let failed := KeyringGPG.considered outcome - Z.of_nat (length keys) in
  keystore_importKeys armored = inr outcome →
  (Forall (λ imported, KeyringGPG.gpg_userids (KeyringGPG.i_key imported) ≠ []) keys →
   ∃ result,
     KeyringGPG.importKeys keystore_importKeys armoredKeys
     = (KeyringGPG.importKeys_call armored :: KeyringGPG.removals keys
        ++ [KeyringGPG.addPublicKeys_call
              (map (λ imported, KeyringGPG.gpg_fingerprint (KeyringGPG.i_key imported))
                   keys)],
        inr result)
     ∧ (∀ i imported, keys !! i = Some imported →
          ∃ userId, head (KeyringGPG.gpg_userids (KeyringGPG.i_key imported))
                    = Some userId
                    ∧ result !! i = Some (KeyringGPG.successResult imported userId))
     ∧ (failed = 0 → length result = length keys)
     ∧ (failed ≠ 0 →
        result !! length keys
        = Some (KeyringGPG.mkResult error (KeyringGPG.key_import_number_of_failed failed))
        ∧ length result = S (length keys)))
  ∧ (∀ before imported after,
       keys = before ++ imported :: after →
       Forall (λ imported, KeyringGPG.gpg_userids (KeyringGPG.i_key imported) ≠ []) before →
       KeyringGPG.gpg_userids (KeyringGPG.i_key imported) = [] →
       KeyringGPG.importKeys keystore_importKeys armoredKeys
       = (KeyringGPG.importKeys_call armored
          :: KeyringGPG.removals (before ++ [imported]),
          inl KeyringGPG.TypeError)).
Proof.
  intros armored keys failed Hengine. subst armored keys failed. split.
  - intros Hall. unfold KeyringGPG.importKeys. rewrite Hengine.
    rewrite KeyringGPG_mapKeys_ok by done. simpl.
    eexists. split; [done|].
    set (successes := map _ (KeyringGPG.Keys outcome)).
    assert (length successes = length (KeyringGPG.Keys outcome)) as Hlen
      by (subst successes; by rewrite length_map).
    split; [|split].
    + intros i imported Hi.
      pose proof (proj1 (Forall_forall _ _) Hall imported
                    (list_elem_of_lookup_2 _ _ _ Hi)) as Hu.
      destruct (KeyringGPG.gpg_userids (KeyringGPG.i_key imported))
        as [|userId rest] eqn:Hus; [done|].
      exists userId. split; [done|].
      assert (successes !! i = Some (KeyringGPG.successResult imported userId)) as Hs.
      { subst successes. rewrite list_lookup_fmap, Hi. simpl. by rewrite Hus. }
      destruct (_ =? 0); [done|]. by rewrite lookup_app_l by by eapply lookup_lt_Some.
    + intros Hfailed. by rewrite Hfailed.
    + intros Hfailed. rewrite (proj2 (Z.eqb_neq _ _) Hfailed).
      rewrite length_app, Hlen. simpl. split; [|lia].
      rewrite lookup_app_r by lia. by rewrite Hlen, Nat.sub_diag.
  - intros before imported after Hkeys Hall Hnone.
    unfold KeyringGPG.importKeys. rewrite Hengine, Hkeys.
    by rewrite KeyringGPG_mapKeys_throws.
Qed.

Lemma KeyringGPG_importKeys_calls_witness :
  let engine := λ _ : string,
    inr (KeyringGPG.mkImportOutcome
           [KeyringGPG.mkImported (KeyringGPG.mkGpgKey "AB12" ["Ann"]) "newkey";
            KeyringGPG.mkImported (KeyringGPG.mkGpgKey "CD34" []) "newkey"] 2) in
  KeyringGPG.importKeys engine [KeyringGPG.mkArmoredKey public "text"]
  = ([KeyringGPG.importKeys_call "text"; KeyringGPG.removeKeysForId_call "ab12";
      KeyringGPG.removeKeysForId_call "cd34"],
     inl KeyringGPG.TypeError).
Proof.
  intros engine.
  destruct (KeyringGPG_importKeys_calls engine [KeyringGPG.mkArmoredKey public "text"]
              (KeyringGPG.mkImportOutcome
                 [KeyringGPG.mkImported (KeyringGPG.mkGpgKey "AB12" ["Ann"]) "newkey";
                  KeyringGPG.mkImported (KeyringGPG.mkGpgKey "CD34" []) "newkey"] 2))
    as [_ Hthrows]; [reflexivity|].
  rewrite (Hthrows [KeyringGPG.mkImported (KeyringGPG.mkGpgKey "AB12" ["Ann"]) "newkey"]
             (KeyringGPG.mkImported (KeyringGPG.mkGpgKey "CD34" []) "newkey") []).
  - reflexivity.
  - reflexivity.
  - apply List.Forall_cons; [done|apply List.Forall_nil].
  - reflexivity.
Defined.

(** ** An import that is rejected half way *)

(** X23.  [importKeys] is not all-or-nothing within a candidate.  When an
    armored text holds a first key that is new and passes the key-id check,
    and a second key that the check rejects once the first is in the key
    store, the result reports a single error for the candidate and no
    success, so that nothing is written to storage and nothing is
    committed; yet the first key stays in the public collection of the key
    store in memory, with a pending INSERT entry in the change log. *)
Theorem importKeys_rejected_half_way (k1 k2 : Key) (rest : Armored) (e : string)
    (r : Keyring) :
  checkKeyId k1 (keystore r) = None →
  ¬ holds (keystore r) (fingerprint k1) →
  checkKeyId k2 (mkKeyStore (publicKeys (keystore r) ++ [k1])
                            (privateKeys (keystore r))) = Some e →
  let imported :=
    importKeys [mkCandidate public (KeyBlock k1 :: KeyBlock k2 :: rest)] r in
  imported.2 = [mkResult error (key_import_unable e)]
  ∧ keystore imported.1
    = mkKeyStore (publicKeys (keystore r) ++ [k1]) (privateKeys (keystore r))
  ∧ sync imported.1 = <[fingerprint k1 := mkEntry INSERT (clock r)]> (sync r)
  ∧ storedPublic imported.1 = storedPublic r
  ∧ storedPrivate imported.1 = storedPrivate r
  ∧ committed imported.1 = committed r
  ∧ primary_key imported.1 = primary_key r.
Proof.
  intros Hcheck1 Hno Hcheck2 imported. subst imported.
  apply getKeysForId_None with (deep := false) in Hno.
  assert (importKeys [mkCandidate public (KeyBlock k1 :: KeyBlock k2 :: rest)] r
          = (sync_add (fingerprint k1) INSERT
               (setKeystore r (mkKeyStore (publicKeys (keystore r) ++ [k1])
                                          (privateKeys (keystore r)))),
             [mkResult error (key_import_unable e)])) as ->.
  { unfold importKeys.
    change (importAll [mkCandidate public (KeyBlock k1 :: KeyBlock k2 :: rest)] r)
      with (importOne (r, [])
              (mkCandidate public (KeyBlock k1 :: KeyBlock k2 :: rest))).
    unfold importOne, importPublicKey. cbn [c_type c_armored].
    change (keys (readArmored (KeyBlock k1 :: KeyBlock k2 :: rest)))
      with (k1 :: k2 :: keys (readArmored rest)).
    cbn [forEachKey]. unfold importPublicKey_body at 1.
    rewrite Hcheck1, Hno. cbn [forEachKey]. unfold importPublicKey_body at 1.
    cbn [keystore setKeystore sync_add]. rewrite Hcheck2. done. }
  by repeat split.
Qed.

Lemma importKeys_rejected_half_way_witness :
  let imported :=
    importKeys [mkCandidate public [KeyBlock erin; KeyBlock frank]]
               (keyringOf [alice] [carol] "c3") in
  imported.2
  = [mkResult error (key_import_unable "Sub keyId equals existing primary keyId.")]
  ∧ publicKeys (keystore imported.1) = [alice; erin]
  ∧ storedPublic imported.1 = [armor alice].
Proof.
  intros imported.
  destruct (importKeys_rejected_half_way erin frank []
              "Sub keyId equals existing primary keyId."
              (keyringOf [alice] [carol] "c3"))
    as (Hresult & Hks & _ & Hstored & _).
  - reflexivity.
  - intros [H|H]; apply list_elem_of_In in H; vm_compute in H;
      by destruct H as [?|[]].
  - reflexivity.
  - subst imported. rewrite Hresult, Hks, Hstored. done.
Defined.

(** ** The change log of an import *)

Lemma importPublicKey_body_records : recordsKey importPublicKey_body.
Proof.
  intros k r r' m. unfold importPublicKey_body.
  destruct (checkKeyId _ _); [done|].
  destruct (getKeysForId _ _ _); intros [= <- <-]; simpl;
    (split; [done|]); (split; [by exists k|]).
  - by exists UPDATE.
  - by exists INSERT.
Qed.

Lemma importPrivateKey_body_records : recordsKey importPrivateKey_body.
Proof.
  intros k r r' m. unfold importPrivateKey_body.
  destruct (checkKeyId _ _); [done|].
  destruct (getKeysForId _ _ _) as [[|key ?]|];
    [| destruct (isPublic key); [destruct (updateThrows k key); [done|]|] |];
    intros [= <- <-]; simpl; (split; [done|]).
  - split; [by exists k|]. by exists INSERT.
  - split; [by exists (update k key)|]. by exists UPDATE.
  - split; [by exists k|]. by exists UPDATE.
  - split; [by exists k|]. by exists INSERT.
Qed.

Lemma recorded_insert t log fpr ty f :
  ty ≠ DELETE → recorded t log f → recorded t (<[fpr := mkEntry ty t]> log) f.
Proof.
  intros Hty (ty' & Hty' & Hlog). destruct (decide (f = fpr)) as [->|Hne].
  - exists ty. by rewrite lookup_insert_eq.
  - exists ty'. by rewrite lookup_insert_ne.
Qed.

Lemma forEachKey_records body keys r result :
  recordsKey body →
  clock (forEachKey body keys r result).1 = clock r
  ∧ (∀ f, recorded (clock r) (sync r) f →
          recorded (clock r) (sync (forEachKey body keys r result).1) f)
  ∧ (resultsRecorded (clock r) r result →
     match (forEachKey body keys r result).2 with
     | inr result' =>
         resultsRecorded (clock r) (forEachKey body keys r result).1 result'
     | inl _ => True
     end).
Proof.
  intros Hbody. revert r result.
  induction keys as [|k keys IH]; intros r result; simpl; [done|].
  destruct (body k r) as [e|[r1 m]] eqn:Hk; simpl; [done|].
  destruct (Hbody k r r1 m Hk) as (Hclock & (k' & Hmk & Hfpr) & ty & Hty & Hsync).
  destruct (IH r1 (result ++ [m])) as (Hc & Hmono & Hres). rewrite Hclock in *.
  split; [done|].
  assert (∀ f, recorded (clock r) (sync r) f → recorded (clock r) (sync r1) f)
    as Hstep.
  { intros f Hf. rewrite Hsync. by apply recorded_insert. }
  split; [by auto|].
  intros Hrec. apply Hres. intros m0 [Hm0|Hm0]%elem_of_app Hsuccess.
  - destruct (Hrec m0 Hm0 Hsuccess) as (k0 & ? & ?). exists k0. by auto.
  - apply list_elem_of_singleton in Hm0 as ->. exists k'. split; [done|].
    rewrite Hfpr, Hsync. exists ty. by rewrite lookup_insert_eq.
Qed.

Lemma importOne_records acc c :
  clock (importOne acc c).1 = clock acc.1
  ∧ (resultsRecorded (clock acc.1) acc.1 acc.2 →
     resultsRecorded (clock acc.1) (importOne acc c).1 (importOne acc c).2).
Proof.
  destruct acc as [r result]. unfold importOne, importPublicKey, importPrivateKey.
  simpl.
  assert (∀ body errors,
            recordsKey body →
            (∀ m : ImportResult, m ∈ errors → r_type m = error) →
            let out := forEachKey body (keys (readArmored (c_armored c))) r errors in
            clock (match out.2 with
                   | inr imported => (out.1, result ++ imported)
                   | inl e => (out.1, result ++ [mkResult error (key_import_unable e)])
                   end).1 = clock r
            ∧ (resultsRecorded (clock r) r result →
               resultsRecorded (clock r)
                 (match out.2 with
                  | inr imported => (out.1, result ++ imported)
                  | inl e => (out.1, result ++ [mkResult error (key_import_unable e)])
                  end).1
                 (match out.2 with
                  | inr imported => (out.1, result ++ imported)
                  | inl e => (out.1, result ++ [mkResult error (key_import_unable e)])
                  end).2)) as Hgeneric.
  { intros body errors Hbody Herrors out.
    destruct (forEachKey_records body (keys (readArmored (c_armored c))) r errors Hbody)
      as (Hclock & Hmono & Hres).
    fold out in Hclock, Hmono, Hres.
    assert (resultsRecorded (clock r) r errors) as Hinit.
    { intros m Hm Hsuccess. rewrite (Herrors m Hm) in Hsuccess. done. }
    specialize (Hres Hinit).
    destruct out.2 as [e|imported]; simpl; (split; [done|]); intros Hrec m Hm Hsuccess.
    - apply elem_of_app in Hm as [Hm|Hm].
      + destruct (Hrec m Hm Hsuccess) as (k0 & ? & ?). exists k0. by auto.
      + apply list_elem_of_singleton in Hm as ->. done.
    - apply elem_of_app in Hm as [Hm|Hm].
      + destruct (Hrec m Hm Hsuccess) as (k0 & ? & ?). exists k0. by auto.
      + by apply Hres. }
  destruct (c_type c).
  - specialize (Hgeneric importPublicKey_body
                  (match err (readArmored (c_armored c)) with
                   | Some errors => map (λ e, mkResult error (key_import_public_read e)) errors
                   | None => []
                   end) importPublicKey_body_records).
    destruct (forEachKey _ _ _ _) as [r' [e|res]]; apply Hgeneric;
      intros m Hm; destruct (err _); [|by apply elem_of_nil in Hm| |by apply elem_of_nil in Hm];
      by apply list_elem_of_fmap in Hm as (? & -> & _).
  - specialize (Hgeneric importPrivateKey_body
                  (match err (readArmored (c_armored c)) with
                   | Some errors => map (λ e, mkResult error (key_import_private_read e)) errors
                   | None => []
                   end) importPrivateKey_body_records).
    destruct (forEachKey _ _ _ _) as [r' [e|res]]; apply Hgeneric;
      intros m Hm; destruct (err _); [|by apply elem_of_nil in Hm| |by apply elem_of_nil in Hm];
      by apply list_elem_of_fmap in Hm as (? & -> & _).
Qed.

Lemma importLoop_records cs acc :
  clock (foldl importOne acc cs).1 = clock acc.1
  ∧ (resultsRecorded (clock acc.1) acc.1 acc.2 →
     resultsRecorded (clock acc.1) (foldl importOne acc cs).1
                     (foldl importOne acc cs).2).
Proof.
  revert acc. induction cs as [|c cs IH]; intros acc; simpl; [done|].
  destruct (importOne_records acc c) as [Hclock Hrec].
  destruct (IH (importOne acc c)) as [Hclock' Hrec']. rewrite Hclock in *.
  split; [done|]. by auto.
Qed.

(** X24.  Every key that [importKeys] reports as imported is recorded in
    the change log: for each success among the results, the message is
    about a key whose fingerprint has an INSERT or UPDATE entry, stamped
    with the time of the import, in the change log as committed by the
    import; and the pending log is then empty. *)
Theorem importKeys_records (cs : list Candidate) (r : Keyring) (m : ImportResult) :
  m ∈ (importKeys cs r).2 → r_type m = success →
  sync (importKeys cs r).1 = ∅
  ∧ ∃ k ty,
      messageKey (r_message m) = Some k
      ∧ ty ≠ DELETE
      ∧ committed (importKeys cs r).1 !! fingerprint k
        = Some (mkEntry ty (clock r)).
Proof.
  unfold importKeys, importAll.
  destruct (importLoop_records (sortPublicFirst cs) (r, [])) as [Hclock Hrec].
  simpl in Hclock, Hrec.
  destruct (foldl importOne (r, []) (sortPublicFirst cs)) as [r' result] eqn:Hloop.
  simpl in *. intros Hm Hsuccess.
  assert (m ∈ result) as Hin by by destruct (negb _) in Hm.
  clear Hm.
  assert (existsb isSuccess result = true) as Hexists.
  { apply existsb_exists. exists m. split; [by apply list_elem_of_In|].
    unfold isSuccess. by apply bool_decide_eq_true. }
  rewrite Hexists in *. simpl in *.
  destruct Hrec with m as (k & Hk & ty & Hty & Hlog); [|done|done|].
  { by intros ? ?%elem_of_nil. }
  assert ((sync r' ∪ committed r') !! fingerprint k = Some (mkEntry ty (clock r)))
    as Hcommitted by by apply lookup_union_Some_l.
  destruct (privateKeys (keystore r')); [|destruct (negb _)]; simpl;
    (split; [done|]); by exists k, ty.
Qed.

Lemma importKeys_records_witness :
  ∃ ty, ty ≠ DELETE
        ∧ committed (importKeys [mkCandidate public (armor bob)]
                                (keyringOf [alice] [carol] "c3")).1 !! "b2"
          = Some (mkEntry ty 1000).
Proof.
  destruct (importKeys_records [mkCandidate public (armor bob)]
              (keyringOf [alice] [carol] "c3")
              (mkResult success (key_import_public_success bob)))
    as (_ & k & ty & Hk & Hty & Hlog).
  - apply list_elem_of_In. vm_compute. by left.
  - reflexivity.
  - injection Hk as <-. by exists ty.
Defined.

(** ** Importing any batch again *)

Lemma absorbs_trans a b c : absorbs a b → absorbs b c → absorbs a c.
Proof. intros [? ?] [? ?]. split; set_solver. Qed.

Lemma getForId_removeForId_ne l fpr f :
  f ≠ fpr → getForId (removeForId l fpr) f = getForId l f.
Proof.
  intros Hne. induction l as [|k l IH]; simpl; [done|].
  destruct (decide (fingerprint k = fpr)) as [Hk|Hk]; simpl.
  - rewrite decide_False by congruence. done.
  - by rewrite IH.
Qed.

Lemma getForId_snoc_ne l k f :
  fingerprint k ≠ f → getForId (l ++ [k]) f = getForId l f.
Proof.
  intros Hne. rewrite getForId_app. destruct (getForId l f); [done|].
  simpl. by rewrite decide_False.
Qed.

Lemma forEachKey_private_ok keys r result r' result' :
  forEachKey importPrivateKey_body keys r result = (r', inr result') →
  keystore r' = foldl (λ ks k, absorbPrivate k ks) (keystore r) keys.
Proof.
  revert r result. induction keys as [|k keys IH]; intros r result; simpl.
  - by intros [= <- <-].
  - destruct (importPrivateKey_body_cases k r) as [[e ->]|(r1 & m & -> & <- & _)];
      [done|]. apply IH.
Qed.

Lemma importOne_private_ok c r result :
  c_type c = private →
  (∀ m, m ∈ (importOne (r, result) c).2 → ¬ rejected m) →
  keystore (importOne (r, result) c).1
  = foldl (λ ks k, absorbPrivate k ks) (keystore r) (keys (readArmored (c_armored c))).
Proof.
  intros Hprivate Hnone. unfold importOne, importPrivateKey in *.
  rewrite Hprivate in *.
  destruct (forEachKey _ _ _ _) as [r' [e|res]] eqn:Hloop; simpl in *.
  - destruct (Hnone (mkResult error (key_import_unable e))).
    + apply elem_of_app. right. by left.
    + by exists e.
  - by eapply forEachKey_private_ok.
Qed.

Lemma importLoop_private_ok cs acc :
  Forall (λ c, c_type c = private) cs →
  (∀ m, m ∈ (foldl importOne acc cs).2 → ¬ rejected m) →
  keystore (foldl importOne acc cs).1
  = foldl (λ ks k, absorbPrivate k ks) (keystore acc.1) (candidateKeys cs).
Proof.
  revert acc. induction cs as [|c cs IH]; intros [r result] Hprivate Hnone; [done|].
  apply Forall_cons in Hprivate as [Hc Hprivate].
  rewrite candidateKeys_cons, foldl_app.
  change (foldl importOne (r, result) (c :: cs))
    with (foldl importOne (importOne (r, result) c) cs) in *.
  rewrite IH by done. f_equal.
  apply importOne_private_ok; [done|].
  intros m Hm. apply Hnone.
  destruct (importLoop_appends cs (importOne (r, result) c)) as [new ->].
  apply elem_of_app. by left.
Qed.

Lemma filter_type_Forall ty (cs : list Candidate) :
  Forall (λ c, c_type c = ty) (List.filter (λ c, bool_decide (c_type c = ty)) cs).
Proof.
  apply Forall_forall. intros c Hc. apply list_elem_of_In, filter_In in Hc as [_ Hc].
  by apply bool_decide_eq_true in Hc.
Qed.

Lemma keysOfType_elem ty cs k :
  k ∈ keysOfType ty cs
  ↔ ∃ c, c ∈ cs ∧ c_type c = ty ∧ k ∈ keys (readArmored (c_armored c)).
Proof.
  unfold keysOfType, candidateKeys. rewrite list_elem_of_bind. split.
  - intros (c & Hk & Hc). apply list_elem_of_In, filter_In in Hc as [Hc Hty].
    exists c. split; [by apply list_elem_of_In|].
    split; [by apply bool_decide_eq_true in Hty|done].
  - intros (c & Hc & Hty & Hk). exists c. split; [done|].
    apply list_elem_of_In, filter_In. split; [by apply list_elem_of_In|].
    by apply bool_decide_eq_true.
Qed.

(** The key store that an import without rejection leaves. *)
Lemma importKeys_absorbs cs r :
  (∀ m, m ∈ (importKeys cs r).2 → ¬ rejected m) →
  keystore (importKeys cs r).1
  = foldl (λ ks k, absorbPrivate k ks)
          (foldl (λ ks k, absorbPublic k ks) (keystore r) (keysOfType public cs))
          (keysOfType private cs).
Proof.
  intros Hnone. destruct (importKeys_result cs r) as [Hres ->].
  rewrite Hres in Hnone. unfold importAll, sortPublicFirst in *.
  rewrite foldl_app in *.
  rewrite importLoop_private_ok; [|apply filter_type_Forall|done].
  f_equal. apply importLoop_public_ok; [apply filter_type_Forall|].
  intros m Hm. apply Hnone.
  destruct (importLoop_appends
              (List.filter (λ c, bool_decide (c_type c = private)) cs)
              (foldl importOne (r, [])
                 (List.filter (λ c, bool_decide (c_type c = public)) cs)))
    as [new ->].
  apply elem_of_app. by left.
Qed.

(** The key on which an import falls, after the import of a private key. *)
Lemma firstMatch_absorbPrivate k' ks f k0 :
  uniqueFingerprints ks → privateOnly ks → isPublic k' = false →
  firstMatch ks f = Some k0 →
  ∃ k1, firstMatch (absorbPrivate k' ks) f = Some k1
        ∧ (∀ k, absorbs k0 k → absorbs k1 k)
        ∧ (isPublic k0 = false → isPublic k1 = false)
        ∧ (f = fingerprint k' → isPublic k1 = false ∧ absorbs k1 k').
Proof.
  intros Hu Hpo Hk' Hfirst. unfold absorbPrivate.
  destruct (firstMatch ks (fingerprint k')) as [key|] eqn:Hfm.
  - pose proof (firstMatch_Some _ _ _ Hfm) as [Hfpr Hwhere].
    destruct (isPublic key) eqn:Hkey.
    + assert (getForId (publicKeys ks) (fingerprint k') = Some key) as Hpub.
      { destruct Hwhere as [?|[_ Hpriv]]; [done|].
        apply getForId_Some in Hpriv as [Hin _]. apply Hpo in Hin. congruence. }
      assert (getForId (privateKeys ks) (fingerprint k') = None) as Hpriv.
      { apply getForId_None_iff. apply unique_public_private; [done|].
        apply getForId_is_Some. by eauto. }
      destruct (decide (f = fingerprint k')) as [->|Hne].
      * exists (update k' key). unfold firstMatch. simpl.
        assert (getForId (removeForId (publicKeys ks) (fingerprint k'))
                         (fingerprint k') = None) as ->.
        { apply getForId_None_iff. apply removeForId_gone. by apply unique_public. }
        rewrite getForId_app, Hpriv. simpl. rewrite decide_True by done.
        split; [done|]. rewrite Hfm in Hfirst. injection Hfirst as <-.
        split; [|split; [done|split; [done|]]].
        -- intros k Hk. eapply absorbs_trans; [apply absorbs_update|done].
        -- apply absorbs_update_mono, absorbs_refl.
      * exists k0. unfold firstMatch in *. simpl.
        rewrite getForId_removeForId_ne by done.
        rewrite getForId_snoc_ne by (simpl; congruence).
        split; [done|]. split; [by auto|]. split; [done|]. intros ?; congruence.
    + unfold updateInStore. rewrite existsb_getForId.
      destruct (decide (f = fingerprint k')) as [->|Hne].
      * rewrite Hfm in Hfirst. injection Hfirst as <-.
        exists (update key k'). unfold firstMatch.
        destruct Hwhere as [Hpub|[Hpub Hpriv]].
        -- rewrite bool_decide_eq_true_2 by (rewrite Hpub; by eauto). simpl.
           rewrite getForId_updateFirst_eq, Hpub. simpl. split; [done|].
           split; [intros k Hk; by apply absorbs_update_mono|].
           split; [done|]. split; [done|apply absorbs_update].
        -- rewrite bool_decide_eq_false_2 by (rewrite Hpub; by intros [? ?]). simpl.
           rewrite Hpub, getForId_updateFirst_eq, Hpriv. simpl. split; [done|].
           split; [intros k Hk; by apply absorbs_update_mono|].
           split; [done|]. split; [done|apply absorbs_update].
      * exists k0. unfold firstMatch in *.
        case_bool_decide; simpl; rewrite getForId_updateFirst_ne by done;
          (split; [done|]); (split; [by auto|]); (split; [done|]);
          intros ?; congruence.
  - destruct (decide (f = fingerprint k')) as [->|Hne]; [congruence|].
    exists k0. unfold firstMatch in *. simpl.
    rewrite getForId_snoc_ne by congruence. split; [done|]. split; [by auto|]. split; [done|]. intros ?; congruence.
Qed.

Lemma absorbPrivate_settles k ks :
  uniqueFingerprints ks → privateOnly ks → isPublic k = false →
  settledPrivate (absorbPrivate k ks) k.
Proof.
  intros Hu Hpo Hk.
  destruct (firstMatch ks (fingerprint k)) as [k0|] eqn:Hfm.
  - destruct (firstMatch_absorbPrivate k ks (fingerprint k) k0 Hu Hpo Hk Hfm)
      as (k1 & Hfirst & _ & _ & Hself).
    exists k1. destruct Hself as [? ?]; done.
  - unfold absorbPrivate. rewrite Hfm. exists k. unfold firstMatch in *. simpl.
    destruct (getForId (publicKeys ks) (fingerprint k)); [done|].
    rewrite getForId_app, Hfm. simpl. rewrite decide_True by done.
    split; [done|]. split; [apply absorbs_refl|done].
Qed.

Lemma settledPrivate_absorbPrivate k ks :
  settledPrivate ks k → absorbPrivate k ks = ks.
Proof.
  intros (k' & Hfirst & Habs & Hprivate).
  rewrite <- (settled_absorbPublic k ks) at 2 by by exists k'.
  unfold absorbPrivate, absorbPublic.
  by rewrite getKeysForId_firstMatch, Hfirst, Hprivate.
Qed.

(** Importing private keys one after the other: the key store stays a
    mapping, what was settled stays so, and every key is then settled. *)
Lemma absorbAllPrivate keys ks :
  uniqueFingerprints ks → privateOnly ks →
  Forall (λ k, isPublic k = false) keys →
  let after := foldl (λ ks k, absorbPrivate k ks) ks keys in
  (∀ k, settled ks k → settled after k)
  ∧ (∀ k, settledPrivate ks k → settledPrivate after k)
  ∧ (∀ k, k ∈ keys → settledPrivate after k).
Proof.
  revert ks. induction keys as [|k' keys IH]; intros ks Hu Hpo Hall; simpl.
  { split; [done|]. split; [done|]. by intros k ?%elem_of_nil. }
  apply Forall_cons in Hall as [Hk' Hall].
  destruct (absorbPrivate_mapping k' ks Hk' (conj Hu Hpo)) as [Hu' Hpo'].
  destruct (IH (absorbPrivate k' ks) Hu' Hpo' Hall) as (Hs & Hsp & Hnew).
  split; [|split].
  - intros k (k0 & Hfirst & Habs). apply Hs.
    destruct (firstMatch_absorbPrivate k' ks _ k0 Hu Hpo Hk' Hfirst)
      as (k1 & Hfirst1 & Hmono & _).
    exists k1. by auto.
  - intros k (k0 & Hfirst & Habs & Hprivate). apply Hsp.
    destruct (firstMatch_absorbPrivate k' ks _ k0 Hu Hpo Hk' Hfirst)
      as (k1 & Hfirst1 & Hmono & Hprivate1 & _).
    exists k1. by auto.
  - intros k [->|Hk]%elem_of_cons; [|by apply Hnew].
    apply Hsp. by apply absorbPrivate_settles.
Qed.

Lemma absorbAll_privateOnly keys ks :
  privateOnly ks → privateOnly (foldl (λ ks k, absorbPublic k ks) ks keys).
Proof.
  revert ks. induction keys as [|k keys IH]; intros ks Hpo; simpl; [done|].
  by apply IH, absorbPublic_privateOnly.
Qed.

(** X25.  Importing a batch a second time changes no key, whatever the
    types of its candidates: for a key store that is a mapping (no
    fingerprint twice, private keys only in the private collection), a
    batch whose candidates labelled private carry private keys, and a first
    import that rejects no candidate, the key store after the second import
    is the one that the first import left. *)
Theorem importKeys_again (cs : list Candidate) (r : Keyring) :
  uniqueFingerprints (keystore r) → privateOnly (keystore r) →
  privateCandidates cs →
  (∀ m, m ∈ (importKeys cs r).2 → ¬ rejected m) →
  keystore (importKeys cs (importKeys cs r).1).1 = keystore (importKeys cs r).1.
Proof.
  intros Hu Hpo Hpc Hnone.
  pose proof (importKeys_absorbs cs r Hnone) as Hfirst.
  set (middle := foldl (λ ks k, absorbPublic k ks) (keystore r)
                       (keysOfType public cs)) in *.
  assert (Forall (λ k, isPublic k = false) (keysOfType private cs)) as Hprivate.
  { apply Forall_forall. intros k (c & Hc & Hty & Hk)%keysOfType_elem.
    by eapply Hpc. }
  destruct (absorbAllPrivate (keysOfType private cs) middle)
    as (Hs & _ & Hnew); [by apply absorbAll_unique|by apply absorbAll_privateOnly|done|].
  simpl in Hs, Hnew. rewrite <- Hfirst in Hs, Hnew.
  apply (importKeys_keystore_inv (λ ks, ks = keystore (importKeys cs r).1));
    [done| |].
  - intros c k ks Hc Hty Hk ->. apply settled_absorbPublic, Hs.
    apply absorbAll_settled, keysOfType_elem. by exists c.
  - intros c k ks Hc Hty Hk ->. apply settledPrivate_absorbPrivate, Hnew.
    apply keysOfType_elem. by exists c.
Qed.

Lemma importKeys_again_witness :
  let cs := [mkCandidate private (armor dave); mkCandidate public (armor bob);
             mkCandidate private (armor (mkKey "a1" "0a" 100 (Some "secret of alice")
                                               valid (Some "0a") (Some "1a") ["1a"]
                                               ["alice"; "work"]))] in
  let r := keyringOf [alice] [carol] "c3" in
  keystore (importKeys cs (importKeys cs r).1).1 = keystore (importKeys cs r).1.
Proof.
  intros cs r. apply importKeys_again.
  - apply (bool_decide_unpack _). by vm_compute.
  - intros k Hk. apply list_elem_of_In in Hk. simpl in Hk.
    by destruct Hk as [<-|[]].
  - intros c k Hc Hty Hk. apply list_elem_of_In in Hc. simpl in Hc.
    destruct Hc as [<-|[<-|[<-|[]]]]; try done;
      apply list_elem_of_In in Hk; simpl in Hk; by destruct Hk as [<-|[]].
  - intros m Hm. apply list_elem_of_In in Hm. vm_compute in Hm.
    intros [e He]. by destruct Hm as [<-|[<-|[<-|[]]]].
Defined.

(** ** The values that a preamble gives *)

Lemma consHead_noBreak c rows :
  Ascii.eqb c CR = false → Ascii.eqb c LF = false →
  Forall (λ row, noBreak row = true) rows →
  Forall (λ row, noBreak row = true) (consHead c rows).
Proof.
  intros Hcr Hlf Hrows. destruct rows as [|row rows]; simpl.
  - apply Forall_cons. split; [|done]. simpl. by rewrite Hcr, Hlf.
  - apply Forall_cons in Hrows as [Hrow Hrows]. apply Forall_cons. split; [|done].
    simpl. by rewrite Hcr, Hlf.
Qed.

Lemma splitLines_noBreak txt :
  Forall (λ row, noBreak row = true) (splitLines (removeCR txt)).
Proof.
  induction txt as [|c txt IH]; simpl.
  - by apply Forall_cons.
  - destruct (Ascii.eqb c CR) eqn:Hcr; [done|]. simpl.
    destruct (Ascii.eqb c LF) eqn:Hlf.
    + by apply Forall_cons.
    + by apply consHead_noBreak.
Qed.

Lemma splitColonSpace_cons c d rest :
  splitColonSpace (String c (String d rest))
  = if Ascii.eqb c ":" && isWhitespace d
    then EmptyString :: splitColonSpace rest
    else consHead c (splitColonSpace (String d rest)).
Proof. done. Qed.

Lemma consHead_cons c rows :
  ∃ row' rows', consHead c rows = String c row' :: rows'.
Proof. destruct rows; simpl; by eexists _, _. Qed.

(** The first segment of a row is empty or starts as the row does. *)
Lemma splitColonSpace_head d rest :
  ∃ seg segs, splitColonSpace (String d rest) = seg :: segs
              ∧ (seg = EmptyString ∨ ∃ seg', seg = String d seg').
Proof.
  destruct rest as [|e rest].
  - exists (String d EmptyString), []. split; [done|]. right. by eexists.
  - rewrite splitColonSpace_cons. destruct (Ascii.eqb d ":" && isWhitespace e).
    + eexists _, _. split; [done|]. by left.
    + match goal with |- context [consHead d ?l] =>
        destruct (consHead_cons d l) as (seg' & segs & ->) end.
      eexists _, _. split; [done|]. right. by eexists.
Qed.

Lemma splitColonSpace_plainSegments n row :
  (String.length row ≤ n)%nat → noBreak row = true →
  Forall (λ seg, plainPassphrase seg = true) (splitColonSpace row).
Proof.
  revert row. induction n as [|n IH]; intros row Hlen Hrow.
  { destruct row; [|simpl in Hlen; lia]. by apply Forall_cons. }
  destruct row as [|c rest]; [by apply Forall_cons|].
  simpl in Hlen, Hrow. apply andb_prop in Hrow as [Hc Hrest].
  apply andb_prop in Hc as [Hcr Hlf].
  destruct rest as [|d rest'].
  { cbn [splitColonSpace]. apply Forall_cons. split; [|done].
    simpl. rewrite Hcr, Hlf. simpl. by rewrite andb_false_r. }
  rewrite splitColonSpace_cons.
  destruct (Ascii.eqb c ":" && isWhitespace d) eqn:Hsep.
  - apply Forall_cons. split; [done|]. apply IH; [simpl in *; lia|].
    simpl in Hrest. apply andb_prop in Hrest as [_ ?]. done.
  - pose proof (IH (String d rest') ltac:(simpl in *; lia) Hrest) as Hsegs.
    destruct (splitColonSpace_head d rest') as (seg & segs & Heq & Hhead).
    rewrite Heq in *. simpl. apply Forall_cons in Hsegs as [Hseg Hsegs].
    apply Forall_cons. split; [|done].
    cbn [plainPassphrase]. rewrite Hcr, Hlf, Hseg. simpl.
    destruct Hhead as [->|[seg' ->]]; [by rewrite andb_false_r|].
    by rewrite Hsep.
Qed.

(** Every value that [parseMetaInfo] reads is plain: it has no line break
    and no colon followed by white space. *)
Lemma parseMetaInfo_values_plain txt key v :
  parseMetaInfo txt !! key = Some (Some v) → plainPassphrase v = true.
Proof.
  unfold parseMetaInfo.
  pose proof (splitLines_noBreak txt) as Hrows.
  assert (∀ k w, (∅ : gmap string (option string)) !! k = Some (Some w) →
                 plainPassphrase w = true) as Hinit by done.
  revert Hinit. generalize (∅ : gmap string (option string)).
  revert Hrows. generalize (splitLines (removeCR txt)).
  intros rows. induction rows as [|row rows IH]; intros Hrows m Hm; simpl.
  - apply Hm.
  - apply Forall_cons in Hrows as [Hrow Hrows]. apply IH; [done|].
    intros k w. destruct (negb _); [|apply Hm].
    destruct (decide (k = default "undefined" (splitColonSpace row !! 0%nat)))
      as [->|Hne].
    + rewrite lookup_insert_eq. intros [= Hw].
      pose proof (splitColonSpace_plainSegments _ row (le_n _) Hrow) as Hsegs.
      apply (proj1 (Forall_forall _ _) Hsegs). by eapply list_elem_of_lookup_2.
    + rewrite lookup_insert_ne by done. apply Hm.
Qed.

(** X26.  The passphrase comes back from a backup exactly when it is plain:
    restoring the backup created for a key and a passphrase, with the code
    of its creation, returns that passphrase if and only if the passphrase
    has no carriage return, no line feed and no colon followed by white
    space.  The key comes back in every case, and a passphrase that comes
    back changed is itself plain. *)
Theorem restorePrivateKeyBackup_password_iff (key : Key) (pwd backupCode : string) :
  let restored :=
    (restorePrivateKeyBackup (createPrivateKeyBackup key pwd backupCode).2
                             (createPrivateKeyBackup key pwd backupCode).1).2 in
  (restored = inr (mkRestored key (Some pwd)) ↔ plainPassphrase pwd = true)
  ∧ ∃ pwd', restored = inr (mkRestored key pwd')
            ∧ ∀ p, pwd' = Some p → plainPassphrase p = true.
Proof.
  intros restored. subst restored. rewrite restore_create. simpl.
  split.
  - split.
    + intros [= Hpwd].
      destruct (parseMetaInfo _ !! "Pwd") as [[v|]|] eqn:Hlookup; try done.
      injection Hpwd as <-. by eapply parseMetaInfo_values_plain.
    + intros Hplain. by rewrite parseMetaInfo_plain.
  - eexists. split; [done|]. intros p Hp.
    destruct (parseMetaInfo _ !! "Pwd") as [[v|]|] eqn:Hlookup; try done.
    injection Hp as <-. by eapply parseMetaInfo_values_plain.
Qed.

Lemma restorePrivateKeyBackup_password_iff_witness :
  (restorePrivateKeyBackup
     (createPrivateKeyBackup carol "correct horse" "ABCDEFGHIJKLMNOPQRSTUVWXYZ").2
     (createPrivateKeyBackup carol "correct horse" "ABCDEFGHIJKLMNOPQRSTUVWXYZ").1).2
  = inr (mkRestored carol (Some "correct horse")).
Proof.
  by apply (proj1 (restorePrivateKeyBackup_password_iff carol "correct horse"
                     "ABCDEFGHIJKLMNOPQRSTUVWXYZ")).
Defined.

(** ** The primary key across an import *)

Lemma keepsPrivate_updateFirst k fpr src l k' :
  getForId l (fingerprint k) = Some k' →
  ∃ k'', getForId (updateFirst fpr src l) (fingerprint k) = Some k''
         ∧ secret k'' = secret k'
         ∧ ∀ x, absorbs k' x → absorbs k'' x.
Proof.
  intros Hget. destruct (decide (fingerprint k = fpr)) as [<-|Hne].
  - rewrite getForId_updateFirst_eq, Hget. simpl. eexists. split; [done|].
    split; [done|]. intros y Hy. by apply absorbs_update_mono.
  - rewrite getForId_updateFirst_ne, Hget by done. eexists. split; [done|].
    by split.
Qed.

Lemma keepsPrivate_updateInStore k fpr src ks :
  keepsPrivate k ks → keepsPrivate k (updateInStore fpr src ks).
Proof.
  intros (k' & Hget & Hsec & Habs). unfold updateInStore.
  destruct (existsb _ _); simpl; [by exists k'|].
  destruct (keepsPrivate_updateFirst k fpr src _ k' Hget)
    as (k'' & Hget' & ? & Hmono).
  exists k''. split; [done|]. split; [congruence|]. by apply Hmono.
Qed.

Lemma keepsPrivate_push k ks pub x :
  keepsPrivate k ks → keepsPrivate k (mkKeyStore pub (privateKeys ks ++ [x])).
Proof.
  intros (k' & Hget & Hrest). exists k'. simpl.
  by rewrite getForId_app, Hget.
Qed.

Lemma importKeys_primary_kept cs r :
  primary_key r ≠ "" → primary_key (importKeys cs r).1 = primary_key r.
Proof.
  intros Hset. unfold importKeys, importAll.
  pose proof (importLoop_frame (sortPublicFirst cs) (r, [])) as (Hp & _).
  destruct (foldl importOne (r, []) (sortPublicFirst cs)) as [r' result].
  simpl in *. destruct (negb (existsb isSuccess result)); [done|]. simpl.
  destruct (privateKeys (keystore r')); [done|].
  unfold hasPrimaryKey. simpl. rewrite Hp.
  by rewrite bool_decide_eq_false_2.
Qed.

(** X27.  An import never moves the primary key: when the primary-key
    attribute is set and names a key of the private collection, then after
    [importKeys], whatever the batch, the attribute is unchanged and the
    first key of that fingerprint in the private collection has the same
    secret material and all the certifications and subkeys the key had.
    (Whether the key still passes the validation of [getPrimaryKey] is
    another matter: an import can bring a revocation.) *)
Theorem importKeys_keeps_primary (cs : list Candidate) (r : Keyring) (k : Key) :
  primary_key r ≠ "" →
  getForId (privateKeys (keystore r)) (primary_key r) = Some k →
  primary_key (importKeys cs r).1 = primary_key r
  ∧ ∃ k', getForId (privateKeys (keystore (importKeys cs r).1)) (primary_key r)
          = Some k'
          ∧ secret k' = secret k
          ∧ subKeyIds k ⊆ subKeyIds k'
          ∧ certifications k ⊆ certifications k'.
Proof.
  intros Hset Hget. split; [by apply importKeys_primary_kept|].
  pose proof (getForId_Some _ _ _ Hget) as [_ Hfpr].
  assert (keepsPrivate k (keystore (importKeys cs r).1)) as Hkept.
  { apply importKeys_keystore_inv.
    - exists k. rewrite Hfpr. split; [done|]. split; [done|].
      apply absorbs_refl.
    - intros c k0 ks _ _ _ Hks. unfold absorbPublic.
      destruct (getKeysForId _ _ _); [by apply keepsPrivate_updateInStore|].
      destruct Hks as (k' & ? & ?). by exists k'.
    - intros c k0 ks _ _ _ Hks. unfold absorbPrivate.
      destruct (firstMatch ks (fingerprint k0)) as [key|].
      + destruct (isPublic key); [by apply keepsPrivate_push|].
        by apply keepsPrivate_updateInStore.
      + by apply keepsPrivate_push. }
  destruct Hkept as (k' & Hget' & Hsec & Hsub & Hcert).
  exists k'. rewrite <- Hfpr. by repeat split.
Qed.

Lemma importKeys_keeps_primary_witness :
  primary_key (importKeys [mkCandidate private (armor dave);
                           mkCandidate public (armor (toPublic carol))]
                          (keyringOf [alice] [carol] "c3")).1 = "c3"
  ∧ ∃ k', getForId (privateKeys (keystore
            (importKeys [mkCandidate private (armor dave);
                         mkCandidate public (armor (toPublic carol))]
                        (keyringOf [alice] [carol] "c3")).1)) "c3" = Some k'
          ∧ secret k' = Some "secret of carol".
Proof.
  destruct (importKeys_keeps_primary
              [mkCandidate private (armor dave);
               mkCandidate public (armor (toPublic carol))]
              (keyringOf [alice] [carol] "c3") carol)
    as (Hattr & k' & Hget & Hsec & _); [done|done|].
  split; [done|]. by exists k'.
Defined.

(** ** What a removal and an import do to the fingerprints *)

(** X28.  [removeKey] removes only what it is asked to: after a removal that
    succeeds, every other fingerprint that the key store held is still
    held, in the collection it was in, and the collection of the other
    type is untouched; no fingerprint is added, and exactly one key is
    taken out.  When the collection had the fingerprint once, it no longer
    has it. *)
Theorem removeKey_removes_only (fpr : string) (ty : KeyType) (r r' : Keyring) :
  removeKey fpr ty r = Some r' →
  let before := match ty with
                | public => publicKeys (keystore r)
                | private => privateKeys (keystore r)
                end in
  let after := match ty with
               | public => publicKeys (keystore r')
               | private => privateKeys (keystore r')
               end in
  match ty with
  | public => privateKeys (keystore r') = privateKeys (keystore r)
  | private => publicKeys (keystore r') = publicKeys (keystore r)
  end
  ∧ (∀ f, f ≠ fpr → (f ∈ fingerprintsOf after ↔ f ∈ fingerprintsOf before))
  ∧ (∀ k, k ∈ after → k ∈ before)
  ∧ length before = S (length after)
  ∧ (NoDup (fingerprintsOf before) → fpr ∉ fingerprintsOf after).
Proof.
  intros Hremove before after.
  assert (∀ l, fpr ∈ fingerprintsOf l →
               (∀ f, f ≠ fpr →
                     (f ∈ fingerprintsOf (removeForId l fpr) ↔ f ∈ fingerprintsOf l))
               ∧ (∀ k, k ∈ removeForId l fpr → k ∈ l)
               ∧ length l = S (length (removeForId l fpr))
               ∧ (NoDup (fingerprintsOf l) →
                  fpr ∉ fingerprintsOf (removeForId l fpr))) as Hlist.
  { intros l Hin. split; [|split; [|split]].
    - intros f Hf. split; [apply removeForId_subseteq|by apply removeForId_other].
    - intros k. apply removeForId_elem.
    - clear -Hin. unfold fingerprintsOf in Hin.
      induction l as [|k l IH]; csimpl in *; [by apply elem_of_nil in Hin|].
      case_decide as Hk; [done|]. simpl. f_equal. apply IH.
      apply elem_of_cons in Hin as [?|?]; [congruence|done].
    - apply removeForId_gone. }
  subst before after. unfold removeKey, base_removeKey in Hremove.
  destruct ty; simpl in Hremove.
  - destruct (getForId (publicKeys (keystore r)) fpr) as [k|] eqn:Hget;
      simplify_eq/=.
    split; [done|]. apply Hlist. apply getForId_is_Some. by eauto.
  - destruct (getForId (privateKeys (keystore r)) fpr) as [k|] eqn:Hget;
      simplify_eq/=.
    assert (fpr ∈ fingerprintsOf (privateKeys (keystore r))) as Hin
      by (apply getForId_is_Some; by eauto).
    destruct (bool_decide _); simpl; (split; [done|]); by apply Hlist.
Qed.

Lemma removeKey_removes_only_witness :
  ∃ r', removeKey "a1" public (keyringOf [alice; bob] [carol] "c3") = Some r'
        ∧ ("b2" ∈ fingerprintsOf (publicKeys (keystore r'))
           ↔ "b2" ∈ fingerprintsOf [alice; bob]).
Proof.
  eexists. split; [reflexivity|].
  by edestruct (removeKey_removes_only "a1" public
                  (keyringOf [alice; bob] [carol] "c3")) as (_ & Hother & _);
    [reflexivity|apply Hother].
Defined.

Lemma absorbPublic_adds k ks f :
  holds (absorbPublic k ks) f → holds ks f ∨ f = fingerprint k.
Proof.
  unfold absorbPublic. destruct (getKeysForId _ _ _).
  - rewrite holds_updateInStore. by left.
  - unfold holds, fingerprintsOf. simpl. rewrite fmap_app, elem_of_app.
    intros [[?|Hk]|?]; [by left; left| |by left; right].
    right. by apply list_elem_of_singleton in Hk.
Qed.

Lemma absorbPrivate_adds k ks f :
  holds (absorbPrivate k ks) f → holds ks f ∨ f = fingerprint k.
Proof.
  unfold absorbPrivate. destruct (firstMatch ks (fingerprint k)) as [key|].
  - destruct (isPublic key).
    + unfold holds, fingerprintsOf. simpl. rewrite fmap_app, elem_of_app.
      intros [Hpub|[?|Hk]]; [|by left; right|].
      * left. left. by eapply removeForId_subseteq.
      * right. by apply list_elem_of_singleton in Hk.
    + rewrite holds_updateInStore. by left.
  - unfold holds, fingerprintsOf. simpl. rewrite fmap_app, elem_of_app.
    intros [?|[?|Hk]]; [by left; left|by left; right|].
    right. by apply list_elem_of_singleton in Hk.
Qed.

Lemma absorbPrivate_holds_new k ks : holds (absorbPrivate k ks) (fingerprint k).
Proof.
  unfold absorbPrivate. destruct (firstMatch ks (fingerprint k)) as [key|] eqn:Hfm.
  - destruct (isPublic key).
    + right. unfold fingerprintsOf. simpl. rewrite fmap_app. apply elem_of_app.
      right. by apply list_elem_of_singleton.
    + rewrite holds_updateInStore. apply firstMatch_holds. by eauto.
  - right. unfold fingerprintsOf. simpl. rewrite fmap_app. apply elem_of_app.
    right. by apply list_elem_of_singleton.
Qed.

Lemma absorbPublic_holds_new k ks : holds (absorbPublic k ks) (fingerprint k).
Proof.
  apply firstMatch_holds. destruct (absorbPublic_settles k ks) as (k' & -> & _).
  by eauto.
Qed.

Lemma absorbAll_holds (step : Key → KeyStore → KeyStore) keys ks :
  (∀ k ks f, holds ks f → holds (step k ks) f) →
  (∀ k ks, holds (step k ks) (fingerprint k)) →
  (∀ f, holds ks f → holds (foldl (λ ks k, step k ks) ks keys) f)
  ∧ (∀ k, k ∈ keys → holds (foldl (λ ks k, step k ks) ks keys) (fingerprint k)).
Proof.
  intros Hkeep Hnew. revert ks. induction keys as [|k0 keys IH]; intros ks; simpl.
  { split; [done|]. by intros k ?%elem_of_nil. }
  destruct (IH (step k0 ks)) as [Hmono Hall]. split; [by auto|].
  intros k [->|Hk]%elem_of_cons; [|by apply Hall]. apply Hmono, Hnew.
Qed.

Lemma candidateKeys_elem cs k :
  k ∈ candidateKeys cs ↔ ∃ c, c ∈ cs ∧ k ∈ keys (readArmored (c_armored c)).
Proof.
  unfold candidateKeys. rewrite list_elem_of_bind. split.
  - intros (c & ? & ?). by exists c.
  - intros (c & ? & ?). by exists c.
Qed.

(** The fingerprints that an import without rejection leaves. *)
Lemma importKeys_holds_batch cs r k :
  (∀ m, m ∈ (importKeys cs r).2 → ¬ rejected m) →
  k ∈ candidateKeys cs → holds (keystore (importKeys cs r).1) (fingerprint k).
Proof.
  intros Hnone (c & Hc & Hk)%candidateKeys_elem.
  rewrite (importKeys_absorbs cs r Hnone).
  destruct (absorbAll_holds (λ k ks, absorbPublic k ks) (keysOfType public cs)
              (keystore r) absorbPublic_holds absorbPublic_holds_new)
    as [_ Hpub].
  destruct (absorbAll_holds (λ k ks, absorbPrivate k ks) (keysOfType private cs)
              (foldl (λ ks k, absorbPublic k ks) (keystore r) (keysOfType public cs))
              absorbPrivate_holds absorbPrivate_holds_new)
    as [Hmono Hpriv].
  destruct (c_type c) eqn:Hty.
  - apply Hmono, Hpub, keysOfType_elem. by exists c.
  - apply Hpriv, keysOfType_elem. by exists c.
Qed.

(** X29.  The fingerprints of a key store after an import: [importKeys]
    adds no fingerprint but those of the keys of its batch, and when it
    rejects no candidate the key store holds, after the import, exactly the
    fingerprints it held before and those of the keys of the batch. *)
Theorem importKeys_fingerprints (cs : list Candidate) (r : Keyring) :
  (∀ f, holds (keystore (importKeys cs r).1) f →
        holds (keystore r) f ∨ f ∈ fingerprintsOf (candidateKeys cs))
  ∧ ((∀ m, m ∈ (importKeys cs r).2 → ¬ rejected m) →
     ∀ f, holds (keystore (importKeys cs r).1) f
          ↔ holds (keystore r) f ∨ f ∈ fingerprintsOf (candidateKeys cs)).
Proof.
  assert (∀ f, holds (keystore (importKeys cs r).1) f →
               holds (keystore r) f ∨ f ∈ fingerprintsOf (candidateKeys cs)) as Hadds.
  { apply (importKeys_keystore_inv
             (λ ks, ∀ f, holds ks f →
                         holds (keystore r) f ∨ f ∈ fingerprintsOf (candidateKeys cs))).
    - by left.
    - intros c k ks Hc _ Hk Hks f [Hf| ->]%absorbPublic_adds; [by apply Hks|].
      right. unfold fingerprintsOf. apply list_elem_of_fmap. exists k.
      split; [done|]. apply candidateKeys_elem. by exists c.
    - intros c k ks Hc _ Hk Hks f [Hf| ->]%absorbPrivate_adds; [by apply Hks|].
      right. unfold fingerprintsOf. apply list_elem_of_fmap. exists k.
      split; [done|]. apply candidateKeys_elem. by exists c. }
  split; [done|]. intros Hnone f. split; [by apply Hadds|].
  intros [Hf|Hf].
  - by apply (importKeys_keystore_inv (λ ks, holds ks f));
      [done|intros; by apply absorbPublic_holds|intros; by apply absorbPrivate_holds].
  - unfold fingerprintsOf in Hf. apply list_elem_of_fmap in Hf as (k & -> & Hk).
    by apply importKeys_holds_batch.
Qed.

Lemma importKeys_fingerprints_witness :
  let cs := [mkCandidate private (armor dave); mkCandidate public (armor bob)] in
  let r := keyringOf [alice] [carol] "c3" in
  holds (keystore (importKeys cs r).1) "d4".
Proof.
  intros cs r.
  destruct (importKeys_fingerprints cs r) as [_ Hexact].
  apply Hexact.
  - intros m Hm. apply list_elem_of_In in Hm. vm_compute in Hm.
    intros [e He]. by destruct Hm as [<-|[<-|[]]].
  - right. apply list_elem_of_In. vm_compute. by left.
Defined.

(** ** An inserted key reaches the other keyring *)

(** X30.  A key that one keyring holds and has logged as inserted reaches
    the keyring that receives its sync message: the message that
    [encryptSyncMessage] builds is decoded by [decryptSyncMessage] with the
    same key into a packet with an INSERT entry for the fingerprint, and
    when [importKeys] imports the candidates of the packet into any keyring
    without rejecting one, that keyring holds the fingerprint. *)
Theorem encryptSyncMessage_delivers (key : Key) (changeLog : ChangeLog)
    (keyStore : KeyStore) (message : SyncMessage) (fpr : string) (t : Z)
    (receiver : Keyring) :
  encryptSyncMessage key changeLog keyStore = Some message →
  changeLog !! fpr = Some (mkEntry INSERT t) →
  fpr ∈ fingerprintsOf (exportedKeys keyStore) →
  ∃ packet,
    decryptSyncMessage key message = inr packet
    ∧ sp_changeLog packet !! fpr = Some (mkEntry INSERT t)
    ∧ ((∀ m, m ∈ (importKeys (sp_keys packet) receiver).2 → ¬ rejected m) →
       holds (keystore (importKeys (sp_keys packet) receiver).1) fpr).
Proof.
  unfold encryptSyncMessage, openpgp_encrypt. intros Henc Hlog Hin.
  destruct (encryptionKeyId key) as [kid|] eqn:Hkid; [|done].
  destruct (secret key) as [sec|] eqn:Hsec; [|done].
  destruct (signingKeyId key) as [sid|] eqn:Hsid; [|done].
  injection Henc as <-.
  exists (mergeSyncData (buildSyncData changeLog keyStore)).
  unfold fingerprintsOf in Hin. apply list_elem_of_fmap in Hin as (k & -> & Hk).
  destruct (convertAll_exports changeLog _ (mkSyncData ∅ ∅) k t Hk Hlog)
    as (k' & Hk' & Hfpr & Hinserted).
  rewrite <- buildSyncData_insertedKeys in Hinserted.
  split; [|split].
  - unfold decryptSyncMessage, openpgp_decrypt. rewrite Hsec, Hkid. simpl.
    rewrite decide_True by apply list_elem_of_here. simpl.
    rewrite Hsid. by rewrite decide_True.
  - rewrite mergeSyncData_changeLog, buildSyncData_deletedKeys, Hlog, Hinserted.
    done.
  - intros Hnone. rewrite <- Hfpr. apply importKeys_holds_batch; [done|].
    apply candidateKeys_elem. exists (mkCandidate public (armor k')).
    split; [|by left].
    apply mergeSyncData_keys_elem. by eexists _, _.
Qed.

Lemma encryptSyncMessage_delivers_witness :
  ∃ message packet,
    encryptSyncMessage carol {[ "a1" := mkEntry INSERT 5 ]}
                       (mkKeyStore [alice] [carol]) = Some message
    ∧ decryptSyncMessage carol message = inr packet
    ∧ sp_changeLog packet !! "a1" = Some (mkEntry INSERT 5).
Proof.
  eexists.
  edestruct (encryptSyncMessage_delivers carol {[ "a1" := mkEntry INSERT 5 ]}
               (mkKeyStore [alice] [carol]))
    with (fpr := "a1") (t := 5) (receiver := keyringOf [] [carol] "c3")
    as (packet & Hdec & Hlog & _); [reflexivity|done| |].
  - apply list_elem_of_In. vm_compute. by left.
  - exists packet. split; [reflexivity|]. by split.
Defined.
